(** * polymer-analyzer: a shallow embedding of the document-graph engine,
      the behavior scanner, the attached-comment helper and the editor RPC
      channel, with the properties the specification states about them.

    Layout: Part I holds the embedding (one module per source file), Part II
    the sample inputs, then come the notions the statements are written
    with, Part III the theorems on the statements of the specification,
    and Part IV further properties of the code. *)

From stdpp Require Import base option gmap strings list fin_maps.
From Stdlib Require Import Ascii ZArith NArith Lia Sorted.

Open Scope string_scope.
Open Scope list_scope.

(* ===================================================================== *)
(** * Part I. The embedding                                               *)
(* ===================================================================== *)

(** ** JavaScript values the code relies on

    A string of the program is held as the bytes of its UTF-8 encoding:
    [string] is a list of bytes, and a character outside ASCII takes two to
    four of them.  Searching a string for another gives the same answer on
    the bytes as on the code units of JavaScript; the operations that count
    code units or look at single characters ([length], [trim]) decode the
    bytes below. *)
Module Js.

(** [s.indexOf(needle)]: [None] stands for [-1]. *)
Definition indexOf (s needle : string) : option nat := String.index 0 needle s.

(** [s.indexOf(needle) !== -1], also [/needle/.test(s)] for a literal
    pattern without metacharacters. *)
Definition includes (s needle : string) : bool :=
  match indexOf s needle with Some _ => true | None => false end.

(** Truthiness of a [string|undefined]: [undefined] and [''] are falsy. *)
Definition truthy (s : option string) : bool :=
  match s with
  | None => false
  | Some s => negb (bool_decide (s = ""))
  end.

(** [a || b] on [string|undefined]. *)
Definition or_else (a b : option string) : option string :=
  if truthy a then a else b.

(** [s.length]: the number of UTF-16 code units of the string whose
    UTF-8 encoding [s] is.  A code point below U+10000 (one to three
    bytes) is one code unit, a code point from U+10000 on (four bytes, the
    first of them 240 or more) is two; the bytes 128 to 191 continue a
    code point. *)
Definition codeUnits (c : ascii) : nat :=
  let n := nat_of_ascii c in
  if (n <? 128)%nat then 1%nat
  else if (n <? 192)%nat then 0%nat
  else if (n <? 240)%nat then 1%nat
  else 2%nat.

Fixpoint length (s : string) : nat :=
  match s with
  | String c s' => (codeUnits c + length s')%nat
  | EmptyString => 0%nat
  end.

(** Whether [s] is a sequence of encoded code points, each leading byte
    followed by the continuation bytes it announces; [due] is the number
    of continuation bytes the code point under way still lacks.  The
    strings of the program are of this kind. *)
Fixpoint encoded (due : nat) (s : string) : bool :=
  match s with
  | EmptyString => (due =? 0)%nat
  | String c s' =>
      let n := nat_of_ascii c in
      match due with
      | O =>
          if (n <? 128)%nat then encoded 0 s'
          else if (n <? 192)%nat then false
          else if (n <? 224)%nat then encoded 1 s'
          else if (n <? 240)%nat then encoded 2 s'
          else if (n <? 248)%nat then encoded 3 s'
          else false
      | S due' =>
          if ((128 <=? n) && (n <? 192))%nat then encoded due' s' else false
      end
  end.

Definition wellFormed (s : string) : bool := encoded 0 s.

Definition bytes (l : list nat) : string :=
  foldr (fun n s => String (ascii_of_nat n) s) EmptyString l.

(** The code points [String.prototype.trim] removes, WhiteSpace and
    LineTerminator of ECMAScript, in UTF-8: U+0009 to U+000D, U+0020,
    U+00A0, U+1680, U+2000 to U+200A, U+2028, U+2029, U+202F, U+205F,
    U+3000 and U+FEFF.  U+180E, a space separator before Unicode 6.3, is
    not among them. *)
Definition whiteSpace : list string :=
  map bytes
    [ [9]; [10]; [11]; [12]; [13]; [32]; [194; 160]; [225; 154; 128];
      [226; 128; 128]; [226; 128; 129]; [226; 128; 130]; [226; 128; 131];
      [226; 128; 132]; [226; 128; 133]; [226; 128; 134]; [226; 128; 135];
      [226; 128; 136]; [226; 128; 137]; [226; 128; 138];
      [226; 128; 168]; [226; 128; 169]; [226; 128; 175]; [226; 129; 159];
      [227; 128; 128]; [239; 187; 191] ]%nat.

(** [s] without its prefix [p], when it starts with [p]. *)
Fixpoint dropPrefix (p s : string) : option string :=
  match p, s with
  | EmptyString, _ => Some s
  | String a p', String b s' =>
      if bool_decide (a = b) then dropPrefix p' s' else None
  | String _ _, EmptyString => None
  end.

(** [s] without the first of the [marks] it starts with. *)
Fixpoint dropFirst (marks : list string) (s : string) : option string :=
  match marks with
  | [] => None
  | m :: marks' =>
      match dropPrefix m s with
      | Some rest => Some rest
      | None => dropFirst marks' s
      end
  end.

Fixpoint dropAll (marks : list string) (fuel : nat) (s : string) : string :=
  match fuel with
  | O => s
  | S fuel' =>
      match dropFirst marks s with
      | Some rest => dropAll marks fuel' rest
      | None => s
      end
  end.

Definition trimStart (s : string) : string :=
  dropAll whiteSpace (String.length s) s.

Fixpoint rev_onto (s acc : string) : string :=
  match s with
  | String c s' => rev_onto s' (String c acc)
  | EmptyString => acc
  end.

Definition reverse (s : string) : string := rev_onto s EmptyString.

Definition trimEnd (s : string) : string :=
  reverse (dropAll (map reverse whiteSpace) (String.length s) (reverse s)).

Definition trim (s : string) : string := trimEnd (trimStart s).

(** [s.substring(1)]. *)
Definition substring1 (s : string) : string :=
  match s with
  | String _ s' => s'
  | EmptyString => EmptyString
  end.

End Js.

(** ** Source positions, warnings and thrown values
       (src/editor-service/editor-service.ts) *)

Record SourcePosition := mkPosition { line : Z; column : Z }.

Record SourceRange := mkRange {
  file : string;
  start : SourcePosition;
  end_ : SourcePosition
}.

Record LocationOffset := mkOffset {
  off_line : Z;
  off_col : Z;
  off_filename : option string
}.

Inductive Severity := ERROR | WARNING | INFO.

Record Warning := mkWarning {
  message : string;
  sourceRange : SourceRange;
  severity : Severity;
  code : string
}.

(** What a [throw] or a rejected promise carries.  [NoKnownParserError] and
    [WarningCarryingException] are the two subclasses of [Error] the code
    tests with [instanceof]; [Error] is any other [Error] object and
    [Thrown] a value that is not an object ([reject('reason')]). *)
Inductive Exn :=
| NoKnownParserError (msg : string)
| WarningCarryingException (warning : Warning)
| Error (msg : string) (stack : string)
| Thrown (value : string).

#[global] Instance SourcePosition_eq_dec : EqDecision SourcePosition.
Proof. solve_decision. Defined.
#[global] Instance SourceRange_eq_dec : EqDecision SourceRange.
Proof. solve_decision. Defined.
#[global] Instance LocationOffset_eq_dec : EqDecision LocationOffset.
Proof. solve_decision. Defined.
#[global] Instance Severity_eq_dec : EqDecision Severity.
Proof. solve_decision. Defined.
#[global] Instance Warning_eq_dec : EqDecision Warning.
Proof. solve_decision. Defined.
#[global] Instance Exn_eq_dec : EqDecision Exn.
Proof. solve_decision. Defined.

(** [error.message] ([super(warning.message)] for the warning carrier). *)
Definition exn_message (e : Exn) : option string :=
  match e with
  | NoKnownParserError m => Some m
  | WarningCarryingException w => Some (message w)
  | Error m _ => Some m
  | Thrown _ => None
  end.

(** [error.stack] as [_parse] interpolates it. *)
Definition exn_stack (e : Exn) : string :=
  match e with
  | NoKnownParserError m => "Error: " +:+ m
  | WarningCarryingException w => "Error: " +:+ message w
  | Error _ st => st
  | Thrown _ => "undefined"
  end.

(** ** src/model/inline-document.ts *)
Module InlineDocument.

(** A parse5 node, as far as the helper looks at it. *)
Record ASTNode := mkNode {
  nodeName : string;
  data : option string
}.

Section Helpers.
(** dom5 and the jsdoc module are collaborators. *)
Variable nodeWalkAllPrior : ASTNode -> (ASTNode -> bool) -> list ASTNode.
Variable isCommentNode : ASTNode -> bool.
Variable unindent : string -> string.

Definition getAttachedCommentText (node : ASTNode) : option string :=
  let parentComments := nodeWalkAllPrior node isCommentNode in
  let comment :=
    match parentComments !! 0%nat with
    | Some c => data c
    | None => None
    end in
  match comment with
  | Some text =>
      if (negb (Js.truthy comment) || Js.includes text "@license")%bool
      then None
      else Some (Js.trim (unindent text))
  | None => None
  end.
End Helpers.

(** The location parse5 attaches to a node.  The helper below tells the
    two shapes apart by the presence of a [line]. *)
Record LocationInfo := mkLocation {
  loc_line : Z;
  loc_col : Z;
  startOffset : Z;
  endOffset : Z
}.

Inductive Location :=
| PlainLocation (l : LocationInfo)              (* ['line' in loc] *)
| ElementLocation (startTag : LocationInfo).    (* an element's, without one *)

(** A node with what the helper below reads of it. *)
#[local] Unset Elimination Schemes.
Inductive Element :=
| mkElement (astNode : ASTNode) (__location : option Location)
            (childNodes : list Element).
#[local] Set Elimination Schemes.

Definition astNode (e : Element) : ASTNode :=
  match e with mkElement n _ _ => n end.
Definition __location (e : Element) : option Location :=
  match e with mkElement _ l _ => l end.
Definition childNodes (e : Element) : list Element :=
  match e with mkElement _ _ c => c end.

Definition isLocationInfo (loc : Location) : bool :=
  match loc with
  | PlainLocation _ => true
  | ElementLocation _ => false
  end.

Section Offsets.
(** [util.inspect] *)
Variable inspect : Element -> string.

Definition getLocationOffsetOfStartOfTextContent (node : Element)
  : Exn + LocationOffset :=
  let firstChildNodeWithLocation :=
    List.find (fun n => bool_decide (is_Some (__location n))) (childNodes node) in
  let bestLocation :=
    match firstChildNodeWithLocation with
    | Some child => __location child
    | None => __location node
    end in
  match bestLocation with
  | None =>
      inl (Error ("Couldn't extract a location offset from HTML node: "
                  +:+ inspect node) "")
  | Some (PlainLocation l) => inr (mkOffset (loc_line l - 1) (loc_col l) None)
  | Some (ElementLocation startTag) =>
      inr (mkOffset (loc_line startTag - 1) (endOffset startTag) None)
  end.
End Offsets.

End InlineDocument.

(** ** The editor RPC channels
       ([EditorServerChannel] and [SelfChannel], the channel of the remote
       editor service in its two versions; the two classes have the same
       members) *)
Module Channel.

Inductive SettledValue :=
| Resolution (resolution : string)
| Rejection (rejection : string)
| OtherKind (kind : string).   (* ruled out by the type, not by the wire *)

Record ResponseWrapper := mkResponse { id : Z; value : SettledValue }.

Inductive PromiseState :=
| Pending
| Resolved (v : string)
| Rejected (e : string).

(** A [Deferred] is an object; the map holds references to them. *)
Abbreviation DeferredRef := nat.

Record t := mkChannel {
  _idCounter : Z;
  _outstandingRequests : gmap Z DeferredRef;
  deferreds : list PromiseState;
  sent : list Z                       (* ids handed to [_child.send] *)
}.

Definition create : t :=
  {| _idCounter := 0; _outstandingRequests := ∅; deferreds := []; sent := [] |}.

(** [deferred.resolve(v)] and [deferred.reject(e)]: a promise settles once. *)
Definition settle (d : DeferredRef) (s : PromiseState) (ch : t) : t :=
  match deferreds ch !! d with
  | Some Pending =>
      {| _idCounter := _idCounter ch;
         _outstandingRequests := _outstandingRequests ch;
         deferreds := <[d := s]> (deferreds ch);
         sent := sent ch |}
  | _ => ch
  end.

(** [request], up to its [await]: the deferred is registered under a fresh
    id and the request is sent. *)
Definition request (ch : t) : Z * DeferredRef * t :=
  let id := _idCounter ch in
  let deferred := length (deferreds ch) in
  (id, deferred,
   {| _idCounter := id + 1;
      _outstandingRequests := <[id := deferred]> (_outstandingRequests ch);
      deferreds := deferreds ch ++ [Pending];
      sent := sent ch ++ [id] |}).

(** [util.inspect] of a response value of another kind. *)
Definition inspect (kind : string) : string := "{ kind: '" +:+ kind +:+ "' }".

Definition _handleResponse (response : ResponseWrapper) (ch : t) : Exn + t :=
  match _outstandingRequests ch !! id response with
  | None => inr ch
  | Some deferred =>
      match value response with
      | Resolution r => inr (settle deferred (Resolved r) ch)
      | Rejection r => inr (settle deferred (Rejected r) ch)
      | OtherKind kind =>
          inl (Error ("Got unknown kind of response: " +:+ inspect kind) "")
      end
  end.

End Channel.

Module EditorServerChannel.
Definition _handleResponse := Channel._handleResponse.
End EditorServerChannel.

Module SelfChannel.
Definition _handleResponse := Channel._handleResponse.
End SelfChannel.

(** ** Plain JavaScript objects used as dictionaries *)
Module JsObject.

(** The names every object literal inherits from [Object.prototype]: the
    [in] operator answers [true] for them on [{}]. *)
Definition inherited : list string :=
  [ "constructor"; "hasOwnProperty"; "isPrototypeOf"; "propertyIsEnumerable";
    "toLocaleString"; "toString"; "valueOf"; "__proto__";
    "__defineGetter__"; "__defineSetter__"; "__lookupGetter__";
    "__lookupSetter__" ].

(** Own enumerable string-keyed properties, in creation order. *)
Definition t (V : Type) := list (string * V).

Definition empty {V} : t V := [].

Definition hasOwn {V} (k : string) (o : t V) : bool :=
  bool_decide (k ∈ o.*1).

(** [k in o]. *)
Definition has_in {V} (k : string) (o : t V) : bool :=
  (bool_decide (k ∈ inherited) || hasOwn k o)%bool.

(** [o[k]] for an own property. *)
Fixpoint get {V} (k : string) (o : t V) : option V :=
  match o with
  | [] => None
  | (k', v) :: o' => if bool_decide (k' = k) then Some v else get k o'
  end.

(** [o[k] = v]: an existing own property keeps its place.  (The
    assignment to ["__proto__"] sets the prototype instead; the code
    below never reaches it, since ["__proto__" in o] holds.) *)
Fixpoint set {V} (k : string) (v : V) (o : t V) : t V :=
  match o with
  | [] => [(k, v)]
  | (k', v') :: o' =>
      if bool_decide (k' = k) then (k, v) :: o' else (k', v') :: set k v o'
  end.

Definition digit (c : ascii) : option N :=
  let n := N_of_ascii c in
  if ((48 <=? n) && (n <=? 57))%N then Some (n - 48)%N else None.

Fixpoint digits (s : string) (acc : N) : option N :=
  match s with
  | EmptyString => Some acc
  | String c s' =>
      match digit c with
      | Some d => digits s' (10 * acc + d)%N
      | None => None
      end
  end.

(** A property name is an array index when it is the canonical decimal
    form of an integer below [2^32 - 1]. *)
Definition arrayIndex (k : string) : option N :=
  match k with
  | EmptyString => None
  | String c rest =>
      if (bool_decide (c = "0"%char) && negb (bool_decide (rest = "")))%bool
      then None
      else if (10 <? String.length k)%nat then None
      else match digits k 0%N with
           | Some n => if (n <? 4294967295)%N then Some n else None
           | None => None
           end
  end.

Fixpoint insert_sorted (n : N) (k : string) (l : list (N * string))
  : list (N * string) :=
  match l with
  | [] => [(n, k)]
  | (m, k') :: l' =>
      if (n <=? m)%N then (n, k) :: l else (m, k') :: insert_sorted n k l'
  end.

Definition indexKeys {V} (o : t V) : list (N * string) :=
  foldr (fun kv acc =>
           match arrayIndex kv.1 with
           | Some n => insert_sorted n kv.1 acc
           | None => acc
           end) [] o.

Definition nameKeys {V} (o : t V) : list string :=
  omap (fun kv : string * V =>
          match arrayIndex kv.1 with
          | Some _ => None
          | None => Some kv.1
          end) o.

(** [Object.keys(o)]: array indices in ascending order, then the other
    names in creation order. *)
Definition keys {V} (o : t V) : list string := (indexKeys o).*2 ++ nameKeys o.

End JsObject.

(** ** src/polymer/behavior-scanner.ts *)
Module BehaviorScanner.

(** *** The estree nodes the scanner inspects *)
#[local] Unset Elimination Schemes.
Inductive Expr :=
| Identifier (name : string)
| MemberExpression (object property : Expr) (computed : bool)
| ObjectExpression (properties : list (Expr * Expr))      (* key, value *)
| ArrayExpression (elements : list Expr)
| AssignmentExpression (left right : Expr)
| OtherExpression (type : string).
#[local] Set Elimination Schemes.

Record VariableDeclarator := mkDeclarator { id : Expr; init : option Expr }.

Inductive Node :=
| VariableDeclaration (declarations : list VariableDeclarator) (loc : SourceRange)
| ExpressionStatement (expression : Expr) (loc : SourceRange)
| OtherNode (type : string) (loc : SourceRange).

(** *** The scanned records *)
Record ScannedEvent := mkEvent { ev_name : string; ev_description : string }.
Record ScannedProperty := mkProperty { prop_name : string; prop_value : string }.
Record Tag := mkTag { tag : string; tag_name : option string }.
Record Annotation := mkAnnotation { tags : list Tag }.

Record ScannedBehavior := mkBehavior {
  className : option string;
  description : option string;
  events : list ScannedEvent;
  demos : list string;
  properties : list ScannedProperty;
  observers : list string;
  behaviors : list string;
  jsdoc : option Annotation;
  sourceRange : SourceRange
}.

Definition with_className c b :=
  mkBehavior c (description b) (events b) (demos b) (properties b)
             (observers b) (behaviors b) (jsdoc b) (sourceRange b).
Definition with_description d b :=
  mkBehavior (className b) d (events b) (demos b) (properties b)
             (observers b) (behaviors b) (jsdoc b) (sourceRange b).
Definition with_events e b :=
  mkBehavior (className b) (description b) e (demos b) (properties b)
             (observers b) (behaviors b) (jsdoc b) (sourceRange b).
Definition with_demos d b :=
  mkBehavior (className b) (description b) (events b) d (properties b)
             (observers b) (behaviors b) (jsdoc b) (sourceRange b).
Definition with_properties p b :=
  mkBehavior (className b) (description b) (events b) (demos b) p
             (observers b) (behaviors b) (jsdoc b) (sourceRange b).
Definition with_observers o b :=
  mkBehavior (className b) (description b) (events b) (demos b) (properties b)
             o (behaviors b) (jsdoc b) (sourceRange b).
Definition with_behaviors l b :=
  mkBehavior (className b) (description b) (events b) (demos b) (properties b)
             (observers b) l (jsdoc b) (sourceRange b).

(** Modelled from the spec: the class ScannedBehavior lives in
    behavior-descriptor.ts, which is not among the sources.  The spec gives
    it the members below; [new ScannedBehavior({description, events,
    sourceRange})] sets the three it is given and leaves the lists empty
    and the names unset. *)
Definition new_ScannedBehavior (description : option string)
    (events : list ScannedEvent) (sourceRange : SourceRange) : ScannedBehavior :=
  mkBehavior None description events [] [] [] [] None sourceRange.

(** Modelled from the spec: [ScannedBehavior.addProperty] lives in
    behavior-descriptor.ts, which is not among the sources.  The spec has
    the properties "keyed by name, last-write-wins on merge": a property
    of a name already present replaces it, any other is added. *)
Fixpoint addProperty_list (p : ScannedProperty) (ps : list ScannedProperty)
  : list ScannedProperty :=
  match ps with
  | [] => [p]
  | q :: ps' =>
      if bool_decide (prop_name q = prop_name p) then p :: ps'
      else q :: addProperty_list p ps'
  end.

Definition addProperty (p : ScannedProperty) (b : ScannedBehavior) : ScannedBehavior :=
  with_properties (addProperty_list p (properties b)) b.

(** *** [dedupe] *)
Definition dedupe {T} (array : list T) (keyFunc : T -> string) : list T :=
  let bucket :=
    foldl (fun bucket el =>
             let key := keyFunc el in
             if JsObject.has_in key bucket then bucket
             else JsObject.set key el bucket)
          JsObject.empty array in
  omap (fun k => JsObject.get k bucket) (JsObject.keys bucket).

Definition templatizer : string := "Polymer.Templatizer".

(** *** Collaborators of the visitor (esutil, ast-value, jsdoc, docs,
        declaration-property-handlers, the document) *)
Record Env := mkEnv {
  getAttachedComment : Node -> option string;
  getEventComments : Node -> list ScannedEvent;
  sourceRangeForNode : Node -> SourceRange;
  objectKeyToString : Expr -> option string;
  getIdentifierName : Expr -> option string;
  annotateBehavior : ScannedBehavior -> ScannedBehavior;
  hasTag : option Annotation -> string -> bool;
  getTag : option Annotation -> string -> string -> option string;
  (** [name in declarationPropertyHandlers(b, document)] and, when it is,
      what the handler does to [b] for a property value. *)
  declarationPropertyHandlers :
    string -> option (Expr -> ScannedBehavior -> ScannedBehavior);
  toScannedPolymerProperty : Expr * Expr -> ScannedProperty
}.

(** *** The visitor.  ScannedBehavior objects are shared and mutated in
        place, so they live in a store and are named by reference. *)
Abbreviation Ref := nat.

Record BehaviorVisitor := mkVisitor {
  store : list ScannedBehavior;
  found : list Ref;                 (* [behaviors]: a Set, insertion order *)
  currentBehavior : option Ref;
  propertyHandlers : option Ref;    (* the record the handlers are bound to *)
  failedAssertions : nat            (* [console.assert] reports and goes on *)
}.

Definition create : BehaviorVisitor := mkVisitor [] [] None None 0.

Definition deref (r : Ref) (v : BehaviorVisitor) : option ScannedBehavior :=
  store v !! r.

Definition mutate (r : Ref) (f : ScannedBehavior -> ScannedBehavior)
    (v : BehaviorVisitor) : BehaviorVisitor :=
  mkVisitor (alter f r (store v)) (found v) (currentBehavior v)
            (propertyHandlers v) (failedAssertions v).

Definition set_current (c : option Ref) (v : BehaviorVisitor) :=
  mkVisitor (store v) (found v) c (propertyHandlers v) (failedAssertions v).

Definition set_handlers (h : option Ref) (v : BehaviorVisitor) :=
  mkVisitor (store v) (found v) (currentBehavior v) h (failedAssertions v).

Definition console_assert (ok : bool) (v : BehaviorVisitor) :=
  if ok then v
  else mkVisitor (store v) (found v) (currentBehavior v) (propertyHandlers v)
                 (S (failedAssertions v)).

(** [new ScannedBehavior(...)] *)
Definition alloc (b : ScannedBehavior) (v : BehaviorVisitor) : Ref * BehaviorVisitor :=
  (length (store v),
   mkVisitor (store v ++ [b]) (found v) (currentBehavior v)
             (propertyHandlers v) (failedAssertions v)).

(** [this.behaviors.add(r)] *)
Definition Set_add (r : Ref) (s : list Ref) : list Ref :=
  if bool_decide (r ∈ s) then s else s ++ [r].

Definition _startBehavior (behavior : Ref) (v : BehaviorVisitor) : BehaviorVisitor :=
  let v := console_assert (bool_decide (currentBehavior v = None)) v in
  set_current (Some behavior) v.

Definition _finishBehavior (v : BehaviorVisitor) : BehaviorVisitor :=
  let v := console_assert (negb (bool_decide (currentBehavior v = None))) v in
  match currentBehavior v with
  | Some r =>
      mkVisitor (store v) (Set_add r (found v)) None
                (propertyHandlers v) (failedAssertions v)
  | None => v
  end.

Definition _abandonBehavior (v : BehaviorVisitor) : BehaviorVisitor :=
  set_handlers None (set_current None v).

(** [behaviorExpression]: for an [ExpressionStatement] the [right] member
    of its expression, which only an assignment has here. *)
Definition behaviorExpression (node : Node) : option Expr :=
  match node with
  | ExpressionStatement (AssignmentExpression _ rhs) _ => Some rhs
  | ExpressionStatement _ _ => None
  | VariableDeclaration declarations _ =>
      match declarations with
      | d :: _ => init d
      | [] => None
      end
  | OtherNode _ _ => None
  end.

Definition isSimpleElement (element : Expr) : bool :=
  match element with
  | MemberExpression _ _ _ | Identifier _ => true
  | _ => false
  end.

Definition isSimpleBehaviorArray (expression : option Expr) : bool :=
  match expression with
  | Some (ArrayExpression elements) => forallb isSimpleElement elements
  | _ => false
  end.

Section Visitor.
Variable env : Env.

(** The names [_parseChainedBehaviors] collects from an array. *)
Definition chainedNames (elements : list Expr) : list string :=
  omap (fun element =>
          match getIdentifierName env element with
          | Some behaviorName =>
              if Js.truthy (Some behaviorName) then Some behaviorName else None
          | None => None
          end) elements.

Definition _parseChainedBehaviors (node : Node) (v : BehaviorVisitor)
  : BehaviorVisitor :=
  match behaviorExpression node, currentBehavior v with
  | Some (ArrayExpression elements), Some cur =>
      let chained := chainedNames elements in
      if (0 <? length chained)%nat
      then mutate cur (with_behaviors chained) v
      else v
  | _, _ => v
  end.

(** The body of the loop of [mergeBehavior], on the record found. *)
Definition mergeInto (newBehavior behavior : ScannedBehavior) : ScannedBehavior :=
  let isBehaviorImpl (b : string) :=
    match Js.indexOf b (default "undefined" (className newBehavior)) with
    | None => true
    | Some _ => false
    end in
  let behavior :=
    if Js.truthy (description newBehavior) then
      if Js.truthy (description behavior) then
        if (Js.length (default "" (description behavior))
            <? Js.length (default "" (description newBehavior)))%nat
        then with_description (description newBehavior) behavior
        else behavior
      else with_description (description newBehavior) behavior
    else behavior in
  let behavior := with_demos (demos behavior ++ demos newBehavior) behavior in
  let behavior := with_events (events behavior ++ events newBehavior) behavior in
  let behavior := with_events (dedupe (events behavior) ev_name) behavior in
  let behavior := foldl (fun b property => addProperty property b)
                        behavior (properties newBehavior) in
  let behavior :=
    with_observers (observers behavior ++ observers newBehavior) behavior in
  with_behaviors
    (List.filter isBehaviorImpl (behaviors behavior ++ behaviors newBehavior))
    behavior.

(** [for (const behavior of this.behaviors)]: the first record of the
    set whose class name is that of [newBehavior]. *)
Fixpoint sameName (newBehavior : ScannedBehavior) (st : list ScannedBehavior)
    (set : list Ref) : option Ref :=
  match set with
  | [] => None
  | r :: set' =>
      match st !! r with
      | Some behavior =>
          if bool_decide (className newBehavior = className behavior)
          then Some r
          else sameName newBehavior st set'
      | None => sameName newBehavior st set'
      end
  end.

Definition mergeBehavior (newBehavior : Ref) (v : BehaviorVisitor)
  : Ref * BehaviorVisitor :=
  match deref newBehavior v with
  | Some nb =>
      match sameName nb (store v) (found v) with
      | Some r => (r, mutate r (mergeInto nb) v)
      | None => (newBehavior, v)
      end
  | None => (newBehavior, v)
  end.

Definition _initBehavior (node : Node) (getName : option string)
    (v : BehaviorVisitor) : Exn + BehaviorVisitor :=
  let comment := getAttachedComment env node in
  let symbol := getName in
  (* Quickly filter down to potential candidates. *)
  if ((negb (Js.truthy comment)
       || negb (Js.includes (default "" comment) "@polymerBehavior"))
      && negb (bool_decide (symbol = Some templatizer)))%bool
  then inr v
  else
    let '(cur, v) :=
      alloc (new_ScannedBehavior comment (getEventComments env node)
                                 (sourceRangeForNode env node)) v in
    let v := _startBehavior cur v in
    let v := set_handlers (currentBehavior v) v in
    let v := mutate cur (annotateBehavior env) v in
    let parsed := jsdoc (default (new_ScannedBehavior None [] (sourceRangeForNode env node))
                                 (deref cur v)) in
    (* Make sure that we actually parsed a behavior tag! *)
    if (negb (hasTag env parsed "polymerBehavior")
        && negb (bool_decide (symbol = Some templatizer)))%bool
    then inr (_abandonBehavior v)
    else
      let explicitName := getTag env parsed "polymerBehavior" "name" in
      let name := Js.or_else explicitName symbol in
      let v := mutate cur (with_className name) v in
      if negb (Js.truthy name)
      then inl (Error ("Unable to determine name for @polymerBehavior: "
                       +:+ default "undefined" comment) "")
      else
        let v := _parseChainedBehaviors node v in
        let '(merged, v) := mergeBehavior cur v in
        let v := set_current (Some merged) v in
        let v := set_handlers (currentBehavior v) v in
        (* Some behaviors are just lists of other behaviors. *)
        if isSimpleBehaviorArray (behaviorExpression node)
        then inr (_finishBehavior v)
        else inr v.

Definition enterVariableDeclaration (node : Node) (v : BehaviorVisitor)
  : Exn + BehaviorVisitor :=
  match node with
  | VariableDeclaration [d] _ => _initBehavior node (objectKeyToString env (id d)) v
  | _ => inr v                      (* Ambiguous. *)
  end.

Definition enterAssignmentExpression (node : Expr) (parent : Node)
    (v : BehaviorVisitor) : Exn + BehaviorVisitor :=
  match node with
  | AssignmentExpression lhs _ =>
      _initBehavior parent (objectKeyToString env lhs) v
  | _ => inr v
  end.

(** The loop over [node.properties]. *)
Fixpoint objectProperties (props : list (Expr * Expr)) (v : BehaviorVisitor)
  : Exn + BehaviorVisitor :=
  match props with
  | [] => inr v
  | prop :: props' =>
      let name := objectKeyToString env prop.1 in
      if negb (Js.truthy name)
      then inl (Error "Cant determine name for property key." "undefined")
      else
        let v :=
          match declarationPropertyHandlers env (default "" name) with
          | Some handler =>
              match propertyHandlers v with
              | Some bound => mutate bound (handler prop.2) v
              | None => v
              end
          | None =>
              match currentBehavior v with
              | Some cur =>
                  mutate cur (addProperty (toScannedPolymerProperty env prop)) v
              | None => v
              end
          end in
        objectProperties props' v
  end.

Definition enterObjectExpression (node : Expr) (v : BehaviorVisitor)
  : Exn + BehaviorVisitor :=
  match node, currentBehavior v with
  | ObjectExpression props, Some _ =>
      match objectProperties props v with
      | inr v => inr (_finishBehavior v)
      | inl e => inl e
      end
  | _, _ => inr v
  end.

(** The callbacks the traversal makes, in document order. *)
Inductive Visit :=
| EnterVariableDeclaration (node : Node)
| EnterAssignmentExpression (node : Expr) (parent : Node)
| EnterObjectExpression (node : Expr).

Definition visit1 (e : Visit) (v : BehaviorVisitor) : Exn + BehaviorVisitor :=
  match e with
  | EnterVariableDeclaration node => enterVariableDeclaration node v
  | EnterAssignmentExpression node parent => enterAssignmentExpression node parent v
  | EnterObjectExpression node => enterObjectExpression node v
  end.

Fixpoint visit (es : list Visit) (v : BehaviorVisitor) : Exn + BehaviorVisitor :=
  match es with
  | [] => inr v
  | e :: es' =>
      match visit1 e v with
      | inr v' => visit es' v'
      | inl err => inl err
      end
  end.

(** [BehaviorScanner.scan]: [Array.from(visitor.behaviors)]. *)
Definition scan (es : list Visit) : Exn + list ScannedBehavior :=
  match visit es create with
  | inr v => inr (omap (fun r => deref r v) (found v))
  | inl err => inl err
  end.

End Visitor.

End BehaviorScanner.

(** ** src/analyzer.ts

    The analyzer is a set of async methods.  Each is split here where it
    awaits: the part up to the [await] is a function on the state of the
    analyzer that registers what comes after it as a continuation ([Cont])
    of the promise awaited, and the part after it is run as a job when that
    promise has settled.  Promises, ScannedDocument objects and the locals
    of each call of [_scanDocument] live in stores and are named by their
    position.  The job queue holds what is ready to run; [step_at] runs any
    one of the queued jobs, so that a list of positions describes an order
    of execution, and [run] takes them first in, first out.

    Every call of [_scanResolved] and of [_loadResolved] has a promise of
    its own, as every call of an async method has: where the body returns
    the promise that is in the cache, the promise of the call follows that
    promise ([KReturn]) and is a different object.  Where an async function
    returns the promise of a call it has just made and that nobody else
    holds ([return this._scanDocument(document)] in the function cached by
    [_scanResolved]), the two are one promise here.  A value that is
    awaited or followed is delivered by one job: the further turns of the
    microtask queue that JavaScript spends on adopting a promise are not
    counted.  The loader and the scan driver answer through a job as well,
    which any number of other jobs may overtake. *)
Module Analyzer.

Abbreviation Url := string.
Abbreviation PromiseRef := nat.
Abbreviation DocRef := nat.
Abbreviation ActRef := nat.

Definition newline : string := String (ascii_of_nat 10) EmptyString.

(** *** Documents and features (src/parser/document.ts, src/model) *)
Record ParsedDocument := mkParsed {
  type : string;
  url : Url;
  contents : string;
  ast : string
}.

Record ScannedImport := mkImport {
  importType : string;
  imp_url : Url;
  imp_sourceRange : SourceRange;
  urlSourceRange : SourceRange;
  imp_scannedDocument : option DocRef         (* filled in once resolved *)
}.

Record InlineParsedDocument := mkInline {
  inl_type : string;
  inl_contents : string;
  locationOffset : LocationOffset;
  attachedComment : option string;
  inl_scannedDocument : option DocRef;        (* filled in once scanned *)
  inl_sourceRange : SourceRange
}.

Record ScannedElement := mkElement {
  tagName : string;
  el_sourceRange : SourceRange;
  el_comment : option string
}.

Inductive ScannedFeature :=
| FImport (i : ScannedImport)
| FInline (d : InlineParsedDocument)
| FElement (e : ScannedElement)
| FOther (kind : string).

Record ScannedDocument := mkScanned {
  document : ParsedDocument;
  dependencies : list DocRef;
  features : list ScannedFeature;
  sd_locationOffset : LocationOffset;
  warnings : list Warning;
  isInline : bool
}.

(** *** Collaborators *)
Record UrlLoader := mkLoader {
  canLoad : Url -> bool;
  load : Url -> Exn + string          (* how the promise of [load] settles *)
}.

Record UrlResolver := mkResolver {
  canResolve : Url -> bool;
  resolve : Url -> Url
}.

Record Parser := mkParser { parse : string -> Url -> Exn + ParsedDocument }.

Abbreviation Scanner := string.

(** The analyzer's configuration, with the functions it imports from
    modules that are not among the sources. *)
Record Env := mkEnv {
  _loader : UrlLoader;
  _resolver : option UrlResolver;
  _parsers : gmap string Parser;
  scanners : gmap string (list Scanner);
  (** [scan(document, scanners)] of scanning/scan: how its promise settles *)
  scan : ParsedDocument -> list Scanner -> Exn + list ScannedFeature;
  (** [path.extname] *)
  extname : string -> string;
  (** [ScannedElement.applyLocationOffset], [.applyHtmlComment] *)
  applyLocationOffset : LocationOffset -> ScannedElement -> ScannedElement;
  applyHtmlComment : option string -> ScannedElement -> ScannedElement;
  (** [correctSourceRange] of model/source-range *)
  correctSourceRange : SourceRange -> LocationOffset -> SourceRange
}.

(** *** Promises and the job queue *)
Inductive Value :=
| VParsed (d : ParsedDocument)
| VScanned (d : DocRef)
| VContent (s : string)
| VFeatures (fs : list ScannedFeature)
| VDocument (root : DocRef).      (* [Document.makeRootDocument(root)] *)

Inductive Settled :=
| Fulfilled (v : Value)
| Rejected (e : Exn).

Inductive PromiseState :=
| Pending
| Done (s : Settled).

(** Where an [await] resumes. *)
Inductive Cont :=
| KLoadResolved (resolvedUrl : Url) (promise : PromiseRef)
    (* [_loadResolved], after [await this._loader.load(resolvedUrl)] *)
| KScanResolved (promise : PromiseRef)
    (* [_scanResolved], after [await this._loadResolved(..)] *)
| KScanDocument (act : ActRef)
    (* [_scanDocument], after [await this._getScannedFeatures(document)] *)
| KScanImport (act : ActRef) (slot feature : nat)
    (* [_scanImport], after [await this._scanResolved(..)] *)
| KScanInlineDocument (act : ActRef) (slot feature : nat) (offset : LocationOffset)
    (* [_scanInlineDocument], after [await this._scanSource(..)] *)
| KAnalyzeRoot (url : Url) (promise : PromiseRef)
    (* [analyzeRoot], after [await this._scanResolved(..)] *)
| KReturn (promise : PromiseRef).
    (* [return p] in an async method: [promise], the promise of the call,
       settles as [p] does *)

Inductive Job :=
| JScanResolved (resolvedUrl : Url) (contents : option string) (promise : PromiseRef)
    (* the function cached by [_scanResolved], after [await Promise.resolve()] *)
| JLoadResolved (resolvedUrl : Url) (providedContents : option string)
                (promise : PromiseRef)
    (* the function cached by [_loadResolved], after [await Promise.resolve()] *)
| JResume (k : Cont) (s : Settled).

(** Calls made to the loader, the parsers and the scan driver. *)
Inductive Call :=
| CallLoad (url : Url)
| CallParse (type contents : string) (url : Url)
| CallScan (document : ParsedDocument).

(** One call of [_scanDocument] in progress: its locals. *)
Record Activation := mkAct {
  act_document : ParsedDocument;
  act_locationOffset : LocationOffset;
  act_attachedComment : option string;
  act_features : list ScannedFeature;          (* [scannedFeatures] *)
  act_warnings : list Warning;                 (* [warnings] *)
  act_slots : list (option (option DocRef));   (* [Promise.all] inputs *)
  act_promise : PromiseRef                     (* the promise of the call *)
}.

(** *** The analyzer with its heap and its pending work *)
Record t := mkAnalyzer {
  _parsedDocuments : gmap Url PromiseRef;
  _scannedDocuments : gmap Url PromiseRef;
  _telemetryTracker : list (string * string);
  promises : list PromiseState;
  reactions : list (PromiseRef * Cont);
  jobs : list Job;
  activations : list Activation;
  documents : list ScannedDocument;
  calls : list Call
}.

Definition create : t := mkAnalyzer ∅ ∅ [] [] [] [] [] [] [].

Definition with_parsed m (a : t) :=
  mkAnalyzer m (_scannedDocuments a) (_telemetryTracker a) (promises a)
             (reactions a) (jobs a) (activations a) (documents a) (calls a).
Definition with_scanned m (a : t) :=
  mkAnalyzer (_parsedDocuments a) m (_telemetryTracker a) (promises a)
             (reactions a) (jobs a) (activations a) (documents a) (calls a).
Definition with_telemetry x (a : t) :=
  mkAnalyzer (_parsedDocuments a) (_scannedDocuments a) x (promises a)
             (reactions a) (jobs a) (activations a) (documents a) (calls a).
Definition with_promises x (a : t) :=
  mkAnalyzer (_parsedDocuments a) (_scannedDocuments a) (_telemetryTracker a) x
             (reactions a) (jobs a) (activations a) (documents a) (calls a).
Definition with_reactions x (a : t) :=
  mkAnalyzer (_parsedDocuments a) (_scannedDocuments a) (_telemetryTracker a)
             (promises a) x (jobs a) (activations a) (documents a) (calls a).
Definition with_jobs x (a : t) :=
  mkAnalyzer (_parsedDocuments a) (_scannedDocuments a) (_telemetryTracker a)
             (promises a) (reactions a) x (activations a) (documents a) (calls a).
Definition with_activations x (a : t) :=
  mkAnalyzer (_parsedDocuments a) (_scannedDocuments a) (_telemetryTracker a)
             (promises a) (reactions a) (jobs a) x (documents a) (calls a).
Definition with_documents x (a : t) :=
  mkAnalyzer (_parsedDocuments a) (_scannedDocuments a) (_telemetryTracker a)
             (promises a) (reactions a) (jobs a) (activations a) x (calls a).
Definition with_calls x (a : t) :=
  mkAnalyzer (_parsedDocuments a) (_scannedDocuments a) (_telemetryTracker a)
             (promises a) (reactions a) (jobs a) (activations a) (documents a) x.

Definition newPromise (a : t) : PromiseRef * t :=
  (length (promises a), with_promises (promises a ++ [Pending]) a).

Definition enqueue (j : Job) (a : t) : t := with_jobs (jobs a ++ [j]) a.

Definition record (c : Call) (a : t) : t := with_calls (calls a ++ [c]) a.

Definition telemetry_start (name detail : string) (a : t) : t :=
  with_telemetry (_telemetryTracker a ++ [(name, detail)]) a.

Definition waitingOn (p : PromiseRef) (r : PromiseRef * Cont) : bool :=
  bool_decide (r.1 = p).

(** A promise settles once; the functions waiting on it are queued in the
    order in which they started to wait. *)
Definition settle (p : PromiseRef) (s : Settled) (a : t) : t :=
  match promises a !! p with
  | Some Pending =>
      let woken := List.filter (waitingOn p) (reactions a) in
      let others := List.filter (fun r => negb (waitingOn p r)) (reactions a) in
      with_jobs (jobs a ++ map (fun r : PromiseRef * Cont => JResume r.2 s) woken)
        (with_reactions others
           (with_promises (<[p := Done s]> (promises a)) a))
  | _ => a
  end.

(** [await p], to resume at [k]. *)
Definition await (p : PromiseRef) (k : Cont) (a : t) : t :=
  match promises a !! p with
  | Some (Done s) => enqueue (JResume k s) a
  | _ => with_reactions (reactions a ++ [(p, k)]) a
  end.

(** [return p] in the body of the async method whose call has the promise
    [own]. *)
Definition return_ (p own : PromiseRef) (a : t) : t := await p (KReturn own) a.

Definition update_act (r : ActRef) (f : Activation -> Activation) (a : t) : t :=
  with_activations (alter f r (activations a)) a.

Definition act_set_features fs (x : Activation) :=
  mkAct (act_document x) (act_locationOffset x) (act_attachedComment x) fs
        (act_warnings x) (act_slots x) (act_promise x).
Definition act_set_warnings ws (x : Activation) :=
  mkAct (act_document x) (act_locationOffset x) (act_attachedComment x)
        (act_features x) ws (act_slots x) (act_promise x).
Definition act_set_slots sl (x : Activation) :=
  mkAct (act_document x) (act_locationOffset x) (act_attachedComment x)
        (act_features x) (act_warnings x) sl (act_promise x).

(** [warnings.push(w)] on the array of the activation *)
Definition push_warning (w : Warning) (x : Activation) : Activation :=
  act_set_warnings (act_warnings x ++ [w]) x.

(** the promise at position [slot] of [scannedSubDocuments] resolves to [r] *)
Definition fill_slot (slot : nat) (r : option DocRef) (x : Activation) : Activation :=
  act_set_slots (<[slot := Some r]> (act_slots x)) x.

(** [scannedImport.scannedDocument = d], [inlineDoc.scannedDocument = d] *)
Definition link_feature (d : DocRef) (f : ScannedFeature) : ScannedFeature :=
  match f with
  | FImport i =>
      FImport (mkImport (importType i) (imp_url i) (imp_sourceRange i)
                        (urlSourceRange i) (Some d))
  | FInline i =>
      FInline (mkInline (inl_type i) (inl_contents i) (locationOffset i)
                        (attachedComment i) (Some d) (inl_sourceRange i))
  | other => other
  end.

Definition link (feature : nat) (d : DocRef) (x : Activation) : Activation :=
  act_set_features (alter (link_feature d) feature (act_features x)) x.

Definition mark_inline (d : ScannedDocument) : ScannedDocument :=
  mkScanned (document d) (dependencies d) (features d) (sd_locationOffset d)
            (warnings d) true.

Definition isDependency (f : ScannedFeature) : bool :=
  match f with
  | FInline _ | FImport _ => true
  | _ => false
  end.

(** The positions in [scannedFeatures] of the members of
    [scannedDependencies], in order. *)
Fixpoint dependencyIndices (fs : list ScannedFeature) (i : nat) : list nat :=
  match fs with
  | [] => []
  | f :: fs' =>
      if isDependency f then i :: dependencyIndices fs' (S i)
      else dependencyIndices fs' (S i)
  end.

(** [error.message || error] under [error = error || ''] *)
Definition errorText (error : Exn) : string :=
  match error with
  | Thrown v => v
  | _ => if Js.truthy (exn_message error)
         then default "" (exn_message error)
         else "Error"
  end.

Definition isNoKnownParserError (e : Exn) : bool :=
  match e with NoKnownParserError _ => true | _ => false end.

Definition couldNotLoad (error : Exn) (scannedImport : ScannedImport) : Warning :=
  {| code := "could-not-load";
     message := "Unable to load import: " +:+ errorText error;
     sourceRange := imp_sourceRange scannedImport;
     severity := ERROR |}.

Section Methods.
Variable env : Env.

Definition _resolveUrl (url : Url) : Url :=
  match _resolver env with
  | Some resolver =>
      if canResolve resolver url then resolve resolver url else url
  | None => url
  end.

Definition _parse (type contents : string) (url : Url) (a : t)
  : (Exn + ParsedDocument) * t :=
  match _parsers env !! type with
  | None => (inl (NoKnownParserError ("No parser for for file type " +:+ type)), a)
  | Some parser =>
      let a := record (CallParse type contents url) a in
      match parse parser contents url with
      | inr doc => (inr doc, a)
      | inl (WarningCarryingException w) => (inl (WarningCarryingException w), a)
      | inl error =>
          (inl (Error ("Error parsing " +:+ url +:+ ":" +:+ newline +:+ " "
                       +:+ exn_stack error) ""), a)
      end
  end.

(** A call of [_loadResolved]: the result is the promise of the call.  It
    follows the cached promise, or is rejected (the [throw] before anything
    is cached), or follows a new promise, stored in the cache with its
    function suspended at [await Promise.resolve()]. *)
Definition _loadResolved (resolvedUrl : Url) (providedContents : option string)
    (a : t) : PromiseRef * t :=
  let '(own, a) := newPromise a in
  match _parsedDocuments a !! resolvedUrl with
  | Some cachedResult => (own, return_ cachedResult own a)
  | None =>
      if negb (canLoad (_loader env) resolvedUrl)
      then (own, settle own (Rejected (Error ("Can't load URL: " +:+ resolvedUrl) "")) a)
      else
        let '(promise, a) := newPromise a in
        let a := enqueue (JLoadResolved resolvedUrl providedContents promise) a in
        let a := with_parsed (<[resolvedUrl := promise]> (_parsedDocuments a)) a in
        (own, return_ promise own a)
  end.

(** The end of the function cached by [_loadResolved], from the content. *)
Definition loadResolved_parse (resolvedUrl : Url) (content : string)
    (promise : PromiseRef) (a : t) : t :=
  let extension := Js.substring1 (extname env resolvedUrl) in
  let a := telemetry_start "parse" "resolvedUrl" a in
  match _parse extension content resolvedUrl a with
  | (inr parsedDoc, a) => settle promise (Fulfilled (VParsed parsedDoc)) a
  | (inl e, a) => settle promise (Rejected e) a
  end.

Definition run_loadResolved (resolvedUrl : Url) (providedContents : option string)
    (promise : PromiseRef) (a : t) : t :=
  match providedContents with
  | None =>
      let a := record (CallLoad resolvedUrl) a in
      enqueue (JResume (KLoadResolved resolvedUrl promise)
                       (match load (_loader env) resolvedUrl with
                        | inr content => Fulfilled (VContent content)
                        | inl e => Rejected e
                        end)) a
  | Some content => loadResolved_parse resolvedUrl content promise a
  end.

(** A call of [_scanResolved]: the result is the promise of the call.  It
    follows the cached promise, or a new promise, stored in the cache with
    its function suspended at [await Promise.resolve()]. *)
Definition _scanResolved (resolvedUrl : Url) (contents : option string) (a : t)
  : PromiseRef * t :=
  let '(own, a) := newPromise a in
  match _scannedDocuments a !! resolvedUrl with
  | Some cachedResult => (own, return_ cachedResult own a)
  | None =>
      let '(promise, a) := newPromise a in
      let a := enqueue (JScanResolved resolvedUrl contents promise) a in
      let a := with_scanned (<[resolvedUrl := promise]> (_scannedDocuments a)) a in
      (own, return_ promise own a)
  end.

(** [_getScannedFeatures]: how its promise settles.  The scan driver is
    called only when scanners are registered for the type of the
    document. *)
Definition _getScannedFeatures (document : ParsedDocument) (a : t) : Settled * t :=
  match scanners env !! type document with
  | Some scanners =>
      (match scan env document scanners with
       | inr fs => Fulfilled (VFeatures fs)
       | inl e => Rejected e
       end, record (CallScan document) a)
  | None => (Fulfilled (VFeatures []), a)
  end.

(** [_scanDocument] up to [await this._getScannedFeatures(document)];
    [promise] is the promise of this call. *)
Definition _scanDocument (document : ParsedDocument)
    (maybeLocationOffset : option LocationOffset)
    (maybeAttachedComment : option string) (promise : PromiseRef) (a : t) : t :=
  let locationOffset :=
    default (mkOffset 0 0 (Some (url document))) maybeLocationOffset in
  let act := length (activations a) in
  let a := with_activations
             (activations a ++
              [mkAct document locationOffset maybeAttachedComment [] [] [] promise]) a in
  let '(scannedFeatures, a) := _getScannedFeatures document a in
  enqueue (JResume (KScanDocument act) scannedFeatures) a.

(** The end of [_scanDocument]: when [Promise.all] has all its values
    and has not rejected, the ScannedDocument is built. *)
Definition complete (act : ActRef) (a : t) : t :=
  match activations a !! act with
  | Some x =>
      match promises a !! act_promise x, mapM id (act_slots x) with
      | Some Pending, Some results =>
          let dependencies := omap id results in
          let d := length (documents a) in
          let a := with_documents
                     (documents a ++
                      [mkScanned (act_document x) dependencies (act_features x)
                                 (act_locationOffset x) (act_warnings x) false]) a in
          settle (act_promise x) (Fulfilled (VScanned d)) a
      | _, _ => a
      end
  | None => a
  end.

(** An exception leaves [_scanDocument]. *)
Definition abort (act : ActRef) (e : Exn) (a : t) : t :=
  match activations a !! act with
  | Some x => settle (act_promise x) (Rejected e) a
  | None => a
  end.

Definition _scanImport (act : ActRef) (slot feature : nat)
    (scannedImport : ScannedImport) (a : t) : t :=
  let '(promise, a) := _scanResolved (_resolveUrl (imp_url scannedImport)) None a in
  await promise (KScanImport act slot feature) a.

(** [_scanImport] from its [await] on. *)
Definition resume_scanImport (act : ActRef) (slot feature : nat) (s : Settled)
    (a : t) : t :=
  match s with
  | Fulfilled (VScanned scannedDocument) =>
      let a := update_act act (link feature scannedDocument) a in
      complete act (update_act act (fill_slot slot (Some scannedDocument)) a)
  | Fulfilled _ => a
  | Rejected error =>
      if isNoKnownParserError error
      then complete act (update_act act (fill_slot slot None) a)
      else
        match activations a !! act with
        | Some x =>
            match act_features x !! feature with
            | Some (FImport scannedImport) =>
                let a := update_act act
                           (push_warning (couldNotLoad error scannedImport)) a in
                complete act (update_act act (fill_slot slot None) a)
            | _ => a
            end
        | None => a
        end
  end.

(** [_scanSource] up to its [await]: the [throw] of [_parse] (a rejected
    promise for the caller), or the promise of the scan it has started. *)
Definition _scanSource (type contents : string) (url : Url)
    (locationOffset : option LocationOffset) (attachedComment : option string)
    (a : t) : (Exn + PromiseRef) * t :=
  let resolvedUrl := _resolveUrl url in
  match _parse type contents resolvedUrl a with
  | (inr document, a) =>
      let '(promise, a) := newPromise a in
      (inr promise, _scanDocument document locationOffset attachedComment promise a)
  | (inl e, a) => (inl e, a)
  end.

(** [_scanInlineDocument] up to its [await]. *)
Definition _scanInlineDocument (act : ActRef) (slot feature : nat)
    (inlineDoc : InlineParsedDocument) (containingDocument : ParsedDocument)
    (a : t) : t :=
  let locationOffset :=
    mkOffset (off_line (locationOffset inlineDoc))
             (off_col (locationOffset inlineDoc))
             (Some (url containingDocument)) in
  let k := KScanInlineDocument act slot feature locationOffset in
  match _scanSource (inl_type inlineDoc) (inl_contents inlineDoc)
                    (url containingDocument) (Some locationOffset)
                    (attachedComment inlineDoc) a with
  | (inr promise, a) => await promise k a
  | (inl e, a) => enqueue (JResume k (Rejected e)) a
  end.

(** [_scanInlineDocument] from its [await] on. *)
Definition resume_scanInlineDocument (act : ActRef) (slot feature : nat)
    (locationOffset : LocationOffset) (s : Settled) (a : t) : t :=
  match s with
  | Fulfilled (VScanned scannedDocument) =>
      let a := update_act act (link feature scannedDocument) a in
      let a := with_documents (alter mark_inline scannedDocument (documents a)) a in
      complete act (update_act act (fill_slot slot (Some scannedDocument)) a)
  | Fulfilled _ => a
  | Rejected (WarningCarryingException w) =>
      let warning :=
        mkWarning (message w)
                  (correctSourceRange env (sourceRange w) locationOffset)
                  (severity w) (code w) in
      let a := update_act act (push_warning warning) a in
      complete act (update_act act (fill_slot slot None) a)
  | Rejected err => abort act err a
  end.

(** The calls [scannedDependencies.map] makes, each up to its [await]. *)
Fixpoint startDependencies (act : ActRef) (document : ParsedDocument)
    (fs : list ScannedFeature) (deps : list nat) (slot : nat) (a : t) : t :=
  match deps with
  | [] => a
  | feature :: deps' =>
      let a :=
        match fs !! feature with
        | Some (FInline inlineDoc) =>
            _scanInlineDocument act slot feature inlineDoc document a
        | Some (FImport scannedImport) =>
            _scanImport act slot feature scannedImport a
        | _ => a
        end in
      startDependencies act document fs deps' (S slot) a
  end.

Definition offsetFeature (locationOffset : LocationOffset) (f : ScannedFeature)
  : ScannedFeature :=
  match f with
  | FElement e => FElement (applyLocationOffset env locationOffset e)
  | other => other
  end.

Definition commentFirst (maybeAttachedComment : option string)
    (fs : list ScannedFeature) : list ScannedFeature :=
  match fs with
  | FElement e :: fs' => FElement (applyHtmlComment env maybeAttachedComment e) :: fs'
  | _ => fs
  end.

(** [_scanDocument] from [await this._getScannedFeatures(document)] to
    [await Promise.all(scannedSubDocuments)]. *)
Definition resume_scanDocument (act : ActRef) (s : Settled) (a : t) : t :=
  match s, activations a !! act with
  | Fulfilled (VFeatures fs), Some x =>
      let scannedFeatures :=
        commentFirst (act_attachedComment x)
                     (map (offsetFeature (act_locationOffset x)) fs) in
      let deps := dependencyIndices scannedFeatures 0 in
      let a := update_act act
                 (fun x => act_set_slots (replicate (length deps) None)
                             (act_set_features scannedFeatures x)) a in
      let a := startDependencies act (act_document x) scannedFeatures deps 0 a in
      complete act a
  | Rejected e, Some _ => abort act e a
  | _, _ => a
  end.

(** [analyzeRoot] up to its [await]; the result is the promise of the Document. *)
Definition analyzeRoot (url : Url) (contents : option string) (a : t)
  : PromiseRef * t :=
  let resolvedUrl := _resolveUrl url in
  (* if we're given new contents, clear the cache *)
  let a :=
    match contents with
    | Some _ =>
        let a := with_scanned (delete resolvedUrl (_scannedDocuments a)) a in
        with_parsed (delete resolvedUrl (_parsedDocuments a)) a
    | None => a
    end in
  let '(scanned, a) := _scanResolved resolvedUrl contents a in
  let '(promise, a) := newPromise a in
  (promise, await scanned (KAnalyzeRoot url promise) a).

(** *** Running a job *)
Definition resume (k : Cont) (s : Settled) (a : t) : t :=
  match k with
  | KLoadResolved resolvedUrl promise =>
      match s with
      | Fulfilled (VContent content) => loadResolved_parse resolvedUrl content promise a
      | Fulfilled _ => a
      | Rejected e => settle promise (Rejected e) a
      end
  | KScanResolved promise =>
      match s with
      | Fulfilled (VParsed document) => _scanDocument document None None promise a
      | Fulfilled _ => a
      | Rejected e => settle promise (Rejected e) a
      end
  | KScanDocument act => resume_scanDocument act s a
  | KScanImport act slot feature => resume_scanImport act slot feature s a
  | KScanInlineDocument act slot feature offset =>
      resume_scanInlineDocument act slot feature offset s a
  | KAnalyzeRoot url promise =>
      match s with
      | Fulfilled (VScanned scannedDocument) =>
          let a := telemetry_start "Document.makeRootDocument" url a in
          settle promise (Fulfilled (VDocument scannedDocument)) a
      | Fulfilled _ => a
      | Rejected e => settle promise (Rejected e) a
      end
  | KReturn promise => settle promise s a
  end.

Definition run_job (j : Job) (a : t) : t :=
  match j with
  | JScanResolved resolvedUrl contents promise =>
      let '(loading, a) := _loadResolved resolvedUrl contents a in
      await loading (KScanResolved promise) a
  | JLoadResolved resolvedUrl providedContents promise =>
      run_loadResolved resolvedUrl providedContents promise a
  | JResume k s => resume k s a
  end.

(** One turn of the job queue: job number [i] runs to its next [await].
    [None] when there is no such job. *)
Definition step_at (i : nat) (a : t) : option t :=
  match jobs a !! i with
  | Some j => Some (run_job j (with_jobs (delete i (jobs a)) a))
  | None => None
  end.

(** Jobs taken in the order given by a schedule. *)
Fixpoint run_schedule (schedule : list nat) (a : t) : option t :=
  match schedule with
  | [] => Some a
  | i :: schedule' =>
      match step_at i a with
      | Some a' => run_schedule schedule' a'
      | None => None
      end
  end.

(** Jobs taken first in, first out, until none is left or the fuel is. *)
Fixpoint run (fuel : nat) (a : t) : t :=
  match fuel with
  | O => a
  | S fuel' =>
      match step_at 0 a with
      | Some a' => run fuel' a'
      | None => a
      end
  end.

End Methods.

Definition quiescent (a : t) : Prop := jobs a = [].

Definition state (p : PromiseRef) (a : t) : option PromiseState := promises a !! p.

End Analyzer.

(** ** The remote editor service and the editor server
       (the second version of remote-editor-service.ts; the parent process
       talks to a child process that runs the same file) *)
Module RemoteEditorService.

Inductive Request :=
| InitRequest (basedir : string)
| FileChangedRequest (localPath : string) (contents : option string)
| GetWarningsRequest (localPath : string)
| GetDocumentationRequest (localPath : string) (position : SourcePosition)
| GetDefinitionRequest (localPath : string) (position : SourcePosition)
| GetTypeaheadCompletionsRequest (localPath : string) (position : SourcePosition)
| ClearCachesRequest.

Definition kind (r : Request) : string :=
  match r with
  | InitRequest _ => "init"
  | FileChangedRequest _ _ => "fileChanged"
  | GetWarningsRequest _ => "getWarningsFor"
  | GetDocumentationRequest _ _ => "getDocumentationFor"
  | GetDefinitionRequest _ _ => "getDefinitionFor"
  | GetTypeaheadCompletionsRequest _ _ => "getTypeaheadCompletionsFor"
  | ClearCachesRequest => "clearCaches"
  end.

Record RequestWrapper := mkRequest { id : Z; value : Request }.

(** *** The parent process: [RemoteEditorService] over its [SelfChannel] *)
Record t := mkRemote {
  _channel : Channel.t;
  (** what [_child.send] has been given and the child has not received *)
  outbox : list RequestWrapper
}.

(** [this._channel.request(req)]: the promise is that of the deferred. *)
Definition request (req : Request) (s : t) : nat * t :=
  let '(id, deferred, ch) := Channel.request (_channel s) in
  (deferred, mkRemote ch (outbox s ++ [mkRequest id req])).

(** [new RemoteEditorService(basedir)]; the promise of the first request
    is dropped. *)
Definition new (basedir : string) : t :=
  (request (InitRequest basedir) (mkRemote Channel.create [])).2.

Definition getWarningsFor (localPath : string) :=
  request (GetWarningsRequest localPath).
Definition fileChanged (localPath : string) (contents : option string) :=
  request (FileChangedRequest localPath contents).
Definition getDocumentationFor (localPath : string) (position : SourcePosition) :=
  request (GetDocumentationRequest localPath position).
Definition getDefinitionFor (localPath : string) (position : SourcePosition) :=
  request (GetDefinitionRequest localPath position).
Definition getTypeaheadCompletionsFor (localPath : string)
    (position : SourcePosition) :=
  request (GetTypeaheadCompletionsRequest localPath position).
Definition clearCaches := request ClearCachesRequest.

(** The listener the channel has on the messages of the child. *)
Definition onResponse (m : Channel.ResponseWrapper) (s : t) : Exn + t :=
  match SelfChannel._handleResponse m (_channel s) with
  | inr ch => inr (mkRemote ch (outbox s))
  | inl e => inl e
  end.

(** *** The child process *)

(** [undefined], as a value of type [any] is carried here. *)
Definition undefined : string := "undefined".

(** [e.stack]; a value that is not an object has none. *)
Definition stack (e : Exn) : option string :=
  match e with
  | Thrown _ => None
  | _ => Some (exn_stack e)
  end.

(** [e.toString()] *)
Definition toString (e : Exn) : string :=
  match e with
  | Thrown v => v
  | _ => if Js.truthy (exn_message e)
         then "Error: " +:+ default "" (exn_message e)
         else "Error"
  end.

(** [e.stack || e.message || e.toString()] *)
Definition rejectionText (e : Exn) : string :=
  if Js.truthy (stack e) then default "" (stack e)
  else if Js.truthy (exn_message e) then default "" (exn_message e)
  else toString e.

(** The editor service the server drives (local-editor-service, not among
    the sources): its state and, for every method, how the promise it
    returns settles and the state it leaves. *)
Record EditorService (State : Type) := mkService {
  new_EditorService : string -> State;
  svc_getWarningsFor : string -> State -> (Exn + string) * State;
  svc_fileChanged : string -> option string -> State -> (Exn + string) * State;
  svc_getDefinitionFor : string -> SourcePosition -> State -> (Exn + string) * State;
  svc_getDocumentationFor : string -> SourcePosition -> State -> (Exn + string) * State;
  svc_getTypeaheadCompletionsFor :
    string -> SourcePosition -> State -> (Exn + string) * State;
  svc_clearCaches : State -> (Exn + string) * State
}.
Arguments new_EditorService {State}.
Arguments svc_getWarningsFor {State}.
Arguments svc_fileChanged {State}.
Arguments svc_getDefinitionFor {State}.
Arguments svc_getDocumentationFor {State}.
Arguments svc_getTypeaheadCompletionsFor {State}.
Arguments svc_clearCaches {State}.

(** What is left of the listeners on the messages of the parent: the one
    registered with [process.once], the one it registers with [process.on]
    together with the server it has built, or none. *)
Inductive Listener (State : Type) :=
| Starting
| Serving (_editorService : State)
| Deaf.
Arguments Starting {State}.
Arguments Serving {State}.
Arguments Deaf {State}.

Record Process (State : Type) := mkProcess {
  listener : Listener State;
  (** the calls of the listener that wait for [getSettledValue], each with
      the response it is going to send *)
  waiting : list Channel.ResponseWrapper;
  (** what [process.send] has been given and the parent has not received *)
  sent : list Channel.ResponseWrapper
}.
Arguments mkProcess {State}.
Arguments listener {State}.
Arguments waiting {State}.
Arguments sent {State}.

Definition start {State} : Process State := mkProcess Starting [] [].

Section Child.
Context {State : Type}.
Variable service : EditorService State.
(** The stack the engine records for an [Error] made in [handleMessage]. *)
Variable stackTrace : string -> string.

(** [EditorServer.handleMessage]: how its promise settles. *)
Definition handleMessage (message : Request) (_editorService : State)
  : (Exn + string) * State :=
  match message with
  | GetWarningsRequest localPath =>
      svc_getWarningsFor service localPath _editorService
  | FileChangedRequest localPath contents =>
      match svc_fileChanged service localPath contents _editorService with
      | (inr _, s) => (inr undefined, s)
      | (inl e, s) => (inl e, s)
      end
  | InitRequest _ =>
      (inl (Error "Already initialized!" (stackTrace "Already initialized!")),
       _editorService)
  | GetDefinitionRequest localPath position =>
      svc_getDefinitionFor service localPath position _editorService
  | GetDocumentationRequest localPath position =>
      svc_getDocumentationFor service localPath position _editorService
  | GetTypeaheadCompletionsRequest localPath position =>
      svc_getTypeaheadCompletionsFor service localPath position _editorService
  | ClearCachesRequest => svc_clearCaches service _editorService
  end.

Definition getSettledValue (message : Request) (_editorService : State)
  : Channel.SettledValue * State :=
  match handleMessage message _editorService with
  | (inr value, s) => (Channel.Resolution value, s)
  | (inl e, s) => (Channel.Rejection (rejectionText e), s)
  end.

(** A message of the parent arrives. *)
Definition onMessage (request : RequestWrapper) (p : Process State) : Process State :=
  match listener p with
  | Starting =>
      match value request with
      | InitRequest basedir =>
          mkProcess (Serving (new_EditorService service basedir))
                    (waiting p) (sent p)
      | other =>
          mkProcess Deaf (waiting p)
            (sent p ++
             [Channel.mkResponse (id request)
                (Channel.Rejection
                   ("Expected first message to be 'init', got " +:+ kind other))])
      end
  | Serving _editorService =>
      let '(result, s) := getSettledValue (value request) _editorService in
      mkProcess (Serving s)
                (waiting p ++ [Channel.mkResponse (id request) result])
                (sent p)
  | Deaf => p
  end.

(** The call number [i] of the listener gets its settled value and sends
    its response.  [None] when there is no such call. *)
Definition finish (i : nat) (p : Process State) : option (Process State) :=
  match waiting p !! i with
  | Some response =>
      Some (mkProcess (listener p) (delete i (waiting p)) (sent p ++ [response]))
  | None => None
  end.

End Child.

End RemoteEditorService.

(* ===================================================================== *)
(** * Part II. Sample inputs                                              *)
(* ===================================================================== *)

Module Samples.
Import Analyzer.

Definition range0 (f : string) : SourceRange :=
mkRange f (mkPosition 0 0) (mkPosition 0 0).

(** The text from the last dot on, as [path.extname] gives it for a plain
file name. *)
Fixpoint lastDot (s : string) : option string :=
match s with
| EmptyString => None
| String c s' =>
  match lastDot s' with
  | Some ext => Some ext
  | None => if bool_decide (c = "."%char) then Some s else None
  end
end.

Definition sample_extname (s : string) : string := default "" (lastDot s).

Definition echoParser (type : string) : Parser :=
mkParser (fun contents url => inr (mkParsed type url contents contents)).

Definition html_import (from to : Url) : ScannedFeature :=
FImport (mkImport "html-import" to (range0 from) (range0 from) None).

(** A project given by its files and by the features the scanners find
in each of them. *)
Definition project (files : list (Url * string))
(found : list (Url * list ScannedFeature)) : Env :=
{| _loader :=
   mkLoader (fun u => bool_decide (u ∈ files.*1))
            (fun u => match list_to_map (M := gmap string string) files !! u with
                      | Some c => inr c
                      | None => inl (Error ("ENOENT: " +:+ u) "")
                      end);
 _resolver := None;
 _parsers := {[ "html" := echoParser "html"; "js" := echoParser "js";
                "css" := echoParser "css" ]};
 scanners := {[ "html" := ["HtmlImportScanner"]; "js" := ["BehaviorScanner"] ]};
 scan := fun document _ =>
           inr (if bool_decide (type document = "html")
                then default [] (list_to_map (M := gmap string _) found
                                   !! url document)
                else []);
 extname := sample_extname;
 applyLocationOffset := fun _ e => e;
 applyHtmlComment := fun c e => mkElement (tagName e) (el_sourceRange e) c;
 correctSourceRange := fun r off =>
   mkRange (default (file r) (off_filename off))
           (mkPosition (line (start r) + off_line off) (column (start r)))
           (mkPosition (line (end_ r) + off_line off) (column (end_ r))) |}.

(** a.html and b.html import each other. *)
Definition cyclic : Env :=
project [("a.html", "<link rel=import href=b.html>");
       ("b.html", "<link rel=import href=a.html>")]
      [("a.html", [html_import "a.html" "b.html"]);
       ("b.html", [html_import "b.html" "a.html"])].

(** The analysis of a.html in [cyclic], requested and not yet run. *)
Definition cyclic_start : nat * t := analyzeRoot cyclic "a.html" None create.

(** a.html imports b.html, which imports nothing. *)
Definition chain : Env :=
project [("a.html", "<link rel=import href=b.html>"); ("b.html", "")]
      [("a.html", [html_import "a.html" "b.html"]); ("b.html", [])].

End Samples.


Module BehaviorSamples.
Import BehaviorScanner.

Definition at_line (n : Z) : SourceRange :=
mkRange "behaviors.js" (mkPosition n 0) (mkPosition n 0).

Definition node_loc (n : Node) : SourceRange :=
match n with
| VariableDeclaration _ l | ExpressionStatement _ l | OtherNode _ l => l
end.

(** The dotted name of an identifier or of a member access. *)
Fixpoint dotted (e : Expr) : option string :=
match e with
| Identifier n => Some n
| MemberExpression o p false =>
  match dotted o, dotted p with
  | Some a, Some b => Some (a +:+ "." +:+ b)
  | _, _ => None
  end
| _ => None
end.

Definition with_jsdoc j b :=
mkBehavior (className b) (description b) (events b) (demos b) (properties b)
         (observers b) (behaviors b) j (sourceRange b).

Definition has_tag (a : option Annotation) (t : string) : bool :=
match a with
| Some a => existsb (fun x => bool_decide (tag x = t)) (tags a)
| None => false
end.

Definition get_tag_name (a : option Annotation) (t key : string) : option string :=
match a with
| Some a =>
  match List.filter (fun x => bool_decide (tag x = t)) (tags a) with
  | x :: _ => tag_name x
  | [] => None
  end
| None => None
end.

(** A script given by the comment attached to the statement of each line,
the tags the doc-comment parser finds in each comment, and the events
documented on each line.  No declaration property has a handler. *)
Definition script (comments : list (Z * string))
(parsed : list (string * list Tag))
(documented : list (Z * list ScannedEvent)) : Env :=
{| getAttachedComment := fun n =>
   list_to_map (M := gmap Z string) comments !! line (start (node_loc n));
 getEventComments := fun n =>
   default [] (list_to_map (M := gmap Z _) documented
                 !! line (start (node_loc n)));
 sourceRangeForNode := node_loc;
 objectKeyToString := dotted;
 getIdentifierName := dotted;
 annotateBehavior := fun b =>
   with_jsdoc
     (Some (mkAnnotation
              (default [] (list_to_map (M := gmap string _) parsed
                             !! default "" (description b))))) b;
 hasTag := has_tag;
 getTag := get_tag_name;
 declarationPropertyHandlers := fun _ => None;
 toScannedPolymerProperty := fun kv =>
   mkProperty (default "" (dotted kv.1)) (default "" (dotted kv.2)) |}.

Definition member (o p : string) : Expr :=
MemberExpression (Identifier o) (Identifier p) false.

(** [left = right;] on line [n], as [enterAssignmentExpression] gets it. *)
Definition assign (n : Z) (lhs rhs : Expr) : Visit :=
EnterAssignmentExpression (AssignmentExpression lhs rhs)
(ExpressionStatement (AssignmentExpression lhs rhs) (at_line n)).

Definition object_a : Expr :=
ObjectExpression [(Identifier "a", Identifier "one")].

(** The convention of the Polymer elements:
<<
/** @polymerBehavior Polymer.Foo */
Polymer.FooImpl = {a: one};
/** @polymerBehavior */
Polymer.Foo = [Polymer.Bar, Polymer.FooImpl];
>> *)
Definition implConvention : Env :=
script [(1%Z, "@polymerBehavior Polymer.Foo"); (2%Z, "@polymerBehavior")]
     [("@polymerBehavior Polymer.Foo",
       [mkTag "polymerBehavior" (Some "Polymer.Foo")]);
      ("@polymerBehavior", [mkTag "polymerBehavior" None])]
     [].

Definition implDeclaration : list Visit :=
[assign 1 (member "Polymer" "FooImpl") object_a;
EnterObjectExpression object_a].

Definition chainElements : list Expr :=
[member "Polymer" "Bar"; member "Polymer" "FooImpl"].

Definition chainStatement : Node :=
ExpressionStatement
(AssignmentExpression (member "Polymer" "Foo") (ArrayExpression chainElements))
(at_line 2).

(** A comment that mentions the tag in running text:
<<
/** Not a @polymerBehavior, whatever the name says. */
var Helper = {a: one};
>> *)
Definition mention : Env :=
script [(1%Z, "Not a @polymerBehavior, whatever the name says.")]
     [("Not a @polymerBehavior, whatever the name says.", [])] [].

Definition helperStatement : Node :=
VariableDeclaration [mkDeclarator (Identifier "Helper") (Some object_a)]
                  (at_line 1).

(** Two declarations of one behavior, the second documenting an event
named like a member of [Object.prototype]:
<<
/** @polymerBehavior MyBehavior */
var first = {a: one};
/** @polymerBehavior MyBehavior
 *  @event constructor */
var second = {a: one};
>> *)
Definition twice : Env :=
script [(1%Z, "@polymerBehavior MyBehavior");
      (2%Z, "@polymerBehavior MyBehavior @event constructor")]
     [("@polymerBehavior MyBehavior",
       [mkTag "polymerBehavior" (Some "MyBehavior")]);
      ("@polymerBehavior MyBehavior @event constructor",
       [mkTag "polymerBehavior" (Some "MyBehavior")])]
     [(2%Z, [mkEvent "constructor" "fired when built"])].

Definition declare (n : Z) (name : string) (init : Expr) : Visit :=
EnterVariableDeclaration
(VariableDeclaration [mkDeclarator (Identifier name) (Some init)] (at_line n)).

Definition twiceVisits : list Visit :=
[declare 1 "first" object_a; EnterObjectExpression object_a;
declare 2 "second" object_a; EnterObjectExpression object_a].

End BehaviorSamples.

Module MoreSamples.
Import Analyzer Samples.

(** a.html imports missing.html, which the loader cannot load, then
data.bin, for which there is no parser, then b.html. *)
Definition broken : Env :=
project [("a.html", "<link rel=import href=missing.html> ...");
       ("data.bin", "0101"); ("b.html", "")]
      [("a.html", [html_import "a.html" "missing.html";
                   html_import "a.html" "data.bin";
                   html_import "a.html" "b.html"]);
       ("b.html", [])].


End MoreSamples.

Module InlineSamples.
Import Analyzer Samples.

Definition syntaxError (url : Url) : Warning :=
{| message := "Unexpected token";
   sourceRange := mkRange url (mkPosition 2 4) (mkPosition 2 5);
   severity := ERROR;
   code := "parse-error" |}.

(** A script parser that reports a syntax error as a warning-carrying
  exception and fails in another way on an empty script. *)
Definition strictParser : Parser :=
mkParser (fun contents url =>
            if Js.includes contents "<<<"
            then inl (WarningCarryingException (syntaxError url))
            else if bool_decide (contents = "")
                 then inl (Error "empty script" "Error: empty script")
                 else inr (mkParsed "js" url contents contents)).

Definition inline_script (contents : string) (line col : Z) : ScannedFeature :=
FInline (mkInline "js" contents (mkOffset line col None) None None
                  (range0 "c.html")).

Definition with_js (env : Env) : Env :=
mkEnv (_loader env) (_resolver env) (<["js" := strictParser]> (_parsers env))
      (scanners env) (scan env) (extname env) (applyLocationOffset env)
      (applyHtmlComment env) (correctSourceRange env).

(** c.html holds two inline scripts, the first with a syntax error. *)
Definition inlined : Env :=
with_js (project [("c.html", "<script>var <<<</script><script>ok()</script>")]
                 [("c.html", [inline_script "var <<<" 10 8;
                              inline_script "ok()" 10 31])]).

(** d.html holds an inline script the parser fails on without a warning. *)
Definition fatal : Env :=
with_js (project [("d.html", "<script></script>")]
                 [("d.html", [inline_script "" 10 8])]).


End InlineSamples.
Module ServerSamples.
Import RemoteEditorService.

(** An editor service that remembers the contents it has been told of and
    finds a warning in every file that holds a [<]. *)
Definition memo : EditorService (list (string * string)) :=
  {| new_EditorService := fun _ => [];
     svc_getWarningsFor := fun localPath files =>
       (match JsObject.get localPath files with
        | Some contents =>
            if Js.includes contents "<" then inr "[ 'stray <' ]" else inr "[]"
        | None => inl (Error ("unknown file " +:+ localPath) "")
        end, files);
     svc_fileChanged := fun localPath contents files =>
       (inr "true", JsObject.set localPath (default "" contents) files);
     svc_getDefinitionFor := fun _ _ files => (inl (Thrown "not implemented"), files);
     svc_getDocumentationFor := fun _ _ files => (inr "undefined", files);
     svc_getTypeaheadCompletionsFor := fun _ _ files => (inr "undefined", files);
     svc_clearCaches := fun _ => (inr "undefined", []) |}.

Definition traces (msg : string) : string :=
  "Error: " +:+ msg +:+ " at EditorServer.handleMessage".

End ServerSamples.

Module RootSamples.
Import Analyzer Samples.

(** A project with an element in card.html and a file of a type that has
    no parser. *)
Definition plain : Env :=
  project [("card.html", "<x-card></x-card>"); ("notes.txt", "to do")]
          [("card.html", [FElement (mkElement "x-card" (range0 "card.html") None);
                          FOther "comment"])].

(** The project [chain] once missing.html has been written. *)
Definition restored : Env :=
  project [("a.html", "<link rel=import href=b.html>"); ("b.html", "");
           ("missing.html", "")]
          [("a.html", [html_import "a.html" "b.html"]); ("b.html", []);
           ("missing.html", [])].

(** a.html imports itself. *)
Definition selfish : Env :=
  project [("a.html", "<link rel=import href=a.html>")]
          [("a.html", [FOther "comment"; html_import "a.html" "a.html"])].

(** a.html imports two files that do not exist. *)
Definition severed : Env :=
  project [("a.html", "<link rel=import href=x.html> <link rel=import href=y.html>")]
          [("a.html", [html_import "a.html" "x.html";
                       html_import "a.html" "y.html"])].

(** [severed] once both loads have failed, before either failure is
    delivered to its import of a.html. *)
Definition severed_waiting : t :=
  run severed 11 (analyzeRoot severed "a.html" None create).2.

End RootSamples.


(* ===================================================================== *)
(** * Notions the statements use                                          *)
(* ===================================================================== *)

Module BehaviorNotions.
Import BehaviorScanner.

Section WithEnv.
Variable env : Env.

(** The record [_initBehavior] builds for a promoted candidate, once
  [docs.annotateBehavior] has parsed its doc comment. *)
Definition candidate (node : Node) : ScannedBehavior :=
annotateBehavior env
  (new_ScannedBehavior (getAttachedComment env node)
                       (getEventComments env node)
                       (sourceRangeForNode env node)).

(** The comment carries the text of the tag. *)
Definition mentionsTag (node : Node) : bool :=
(Js.truthy (getAttachedComment env node)
 && Js.includes (default "" (getAttachedComment env node)) "@polymerBehavior")%bool.

Definition isSentinel (symbol : option string) : bool :=
bool_decide (symbol = Some templatizer).

(** What [_initBehavior] does up to the test of the parsed tags. *)
Definition promoted (node : Node) (v : BehaviorVisitor) : BehaviorVisitor :=
let cur := length (store v) in
mkVisitor (store v ++ [candidate node]) (found v) (Some cur) (Some cur)
          (if bool_decide (currentBehavior v = None)
           then failedAssertions v else S (failedAssertions v)).

(** Every reference the visitor holds names a record of the store. *)
Definition wf (v : BehaviorVisitor) : Prop :=
Forall (fun r => r < length (store v))%nat (found v)
/\ (forall r, currentBehavior v = Some r -> (r < length (store v))%nat).

(** The record a promoted, accepted and named candidate has become when
  [mergeBehavior] is called, for an initializer [[e1, .., en]] whose
  elements have the names [names]. *)
Definition chained (node : Node) (symbol : option string) (names : list string)
: ScannedBehavior :=
let name := Js.or_else (getTag env (jsdoc (candidate node))
                               "polymerBehavior" "name") symbol in
let b := with_className name (candidate node) in
if (0 <? length names)%nat then with_behaviors names b else b.

End WithEnv.

(** The class name of the record a reference names. *)
Definition nameAt (v : BehaviorVisitor) (r : Ref) : option (option string) :=
  className <$> deref r v.

(** No two records of the set share a class name, and a record in progress
    that is not in the set shares its class name with none of them. *)
Definition uniqueNames (v : BehaviorVisitor) : Prop :=
  wf v
  /\ NoDup (found v)
  /\ (forall r1 r2, r1 ∈ found v -> r2 ∈ found v ->
                    nameAt v r1 = nameAt v r2 -> r1 = r2)
  /\ (forall c, currentBehavior v = Some c -> c ∉ found v ->
                forall r, r ∈ found v -> nameAt v r <> nameAt v c).

(** The found records of two visitors have the same names. *)
Definition sameFound (v v' : BehaviorVisitor) : Prop :=
  found v' = found v
  /\ (length (store v) <= length (store v'))%nat
  /\ forall r, r ∈ found v -> nameAt v' r = nameAt v r.

(** The part of [uniqueNames] that does not speak of [currentBehavior]. *)
Definition foundUnique (v : BehaviorVisitor) : Prop :=
  Forall (fun r => r < length (store v))%nat (found v)
  /\ NoDup (found v)
  /\ (forall r1 r2, r1 ∈ found v -> r2 ∈ found v ->
                    nameAt v r1 = nameAt v r2 -> r1 = r2).

(** The property handlers leave the class name of a record alone. *)
Definition handlersKeepName (env : Env) : Prop :=
  forall name handler value b,
    declarationPropertyHandlers env name = Some handler ->
    className (handler value b) = className b.

(** A name that is neither inherited from [Object.prototype] nor an array
    index. *)
Definition ordinaryName (k : string) : Prop :=
  (k ∉ JsObject.inherited) /\ JsObject.arrayIndex k = None.

(** The first element of each key, in the order of the array, leaving out
    the keys already [seen]. *)
Fixpoint firstOfEachKey {T} (key : T -> string) (seen : list string)
    (array : list T) : list T :=
  match array with
  | [] => []
  | el :: rest =>
      if bool_decide (key el ∈ seen) then firstOfEachKey key seen rest
      else el :: firstOfEachKey key (seen ++ [key el]) rest
  end.

End BehaviorNotions.

Module AnalyzerNotions.

(** The outcome of an import edge that failed, in the activation of the
    containing document. *)
Definition failedImport (error : Exn) (scannedImport : Analyzer.ScannedImport)
    (slot : nat) (x : Analyzer.Activation) : Analyzer.Activation :=
  Analyzer.fill_slot slot None
    (if Analyzer.isNoKnownParserError error then x
     else Analyzer.push_warning (Analyzer.couldNotLoad error scannedImport) x).





(** The URLs the loader has been asked to load, in order. *)
Definition loadedUrls (a : Analyzer.t) : list string :=
  omap (fun c => match c with Analyzer.CallLoad u => Some u | _ => None end)
       (Analyzer.calls a).

(** The URLs whose loading function is queued and has not run. *)
Definition pendingLoads (a : Analyzer.t) : list string :=
  omap (fun j => match j with
                 | Analyzer.JLoadResolved u _ _ => Some u
                 | _ => None
                 end) (Analyzer.jobs a).

(** The scans that are queued and have not started: the URL, the contents
    given with the request and the promise in the cache. *)
Definition pendingScans (a : Analyzer.t) : list (string * option string * nat) :=
  omap (fun j => match j with
                 | Analyzer.JScanResolved u c p => Some (u, c, p)
                 | _ => None
                 end) (Analyzer.jobs a).

(** The documents the scan driver has been called on, by URL. *)
Definition scannedUrls (a : Analyzer.t) : list string :=
  omap (fun c => match c with
                 | Analyzer.CallScan d => Some (Analyzer.url d)
                 | _ => None
                 end) (Analyzer.calls a).

(** The texts the parsers have been called on, with their URLs, in order. *)
Definition parsedTexts (a : Analyzer.t) : list (string * string) :=
  omap (fun c => match c with
                 | Analyzer.CallParse _ text u => Some (u, text)
                 | _ => None
                 end) (Analyzer.calls a).


(** Promises settle once: what is settled in [a] is settled alike in [a']. *)
Definition settledStay (a a' : Analyzer.t) : Prop :=
  forall q r, Analyzer.promises a !! q = Some (Analyzer.Done r) ->
              Analyzer.promises a' !! q = Some (Analyzer.Done r).

(** [a'] differs from [a] by work that neither touches the cache of parsed
    documents nor loads nor queues a load. *)
Definition quiet (a a' : Analyzer.t) : Prop :=
  Analyzer._parsedDocuments a' = Analyzer._parsedDocuments a
  /\ loadedUrls a' = loadedUrls a
  /\ pendingLoads a' = pendingLoads a
  /\ settledStay a a'.


(** The promise a continuation settles by itself when it ends, if there
    is one; the other continuations end in the activation they belong to. *)
Definition aim (k : Analyzer.Cont) : option nat :=
  match k with
  | Analyzer.KLoadResolved _ p | Analyzer.KScanResolved p
  | Analyzer.KAnalyzeRoot _ p | Analyzer.KReturn p => Some p
  | _ => None
  end.

Definition jobAim (j : Analyzer.Job) : option nat :=
  match j with
  | Analyzer.JScanResolved _ _ p | Analyzer.JLoadResolved _ _ p => Some p
  | Analyzer.JResume k _ => aim k
  end.

(** The analyzer names no promise that has not been made. *)
Definition closed (a : Analyzer.t) : Prop :=
  (forall x, x ∈ Analyzer.activations a ->
             (Analyzer.act_promise x < length (Analyzer.promises a))%nat)
  /\ (forall r t, r ∈ Analyzer.reactions a -> aim r.2 = Some t ->
                  (t < length (Analyzer.promises a))%nat)
  /\ (forall j t, j ∈ Analyzer.jobs a -> jobAim j = Some t ->
                  (t < length (Analyzer.promises a))%nat)
  /\ (forall u p, Analyzer._scannedDocuments a !! u = Some p ->
                  (p < length (Analyzer.promises a))%nat)
  /\ (forall u p, Analyzer._parsedDocuments a !! u = Some p ->
                  (p < length (Analyzer.promises a))%nat)
  /\ (forall r, r ∈ Analyzer.reactions a ->
                (r.1 < length (Analyzer.promises a))%nat).

(** The promise [q] of a call follows the promise [p]: nothing settles [q]
    but the job that hands it the outcome of [p], that job is on its way
    while [q] is pending, and [q], once settled, is settled as [p] is. *)
Definition tracks (q p : nat) (a : Analyzer.t) : Prop :=
  (forall x, x ∈ Analyzer.activations a -> Analyzer.act_promise x <> q)
  /\ (forall r, r ∈ Analyzer.reactions a -> aim r.2 = Some q ->
                r = (p, Analyzer.KReturn q)
                /\ Analyzer.promises a !! p = Some Analyzer.Pending)
  /\ (forall j, j ∈ Analyzer.jobs a -> jobAim j = Some q ->
                exists s, j = Analyzer.JResume (Analyzer.KReturn q) s
                          /\ Analyzer.promises a !! p
                             = Some (Analyzer.Done s))
  /\ (forall s, Analyzer.promises a !! q = Some (Analyzer.Done s) ->
                Analyzer.promises a !! p = Some (Analyzer.Done s))
  /\ (Analyzer.promises a !! q = Some Analyzer.Pending ->
      (p, Analyzer.KReturn q) ∈ Analyzer.reactions a
      \/ exists s, Analyzer.JResume (Analyzer.KReturn q) s ∈ Analyzer.jobs a).

(** [a'] is [a] after work that settles by itself no promise of [a] but
    those of [ts]: the analyzer stays closed, and every other promise of
    [a] that follows a promise goes on following it. *)
Definition ext (ts : list nat) (a a' : Analyzer.t) : Prop :=
  (length (Analyzer.promises a) <= length (Analyzer.promises a'))%nat
  /\ ((forall t, t ∈ ts -> (t < length (Analyzer.promises a))%nat) ->
      closed a -> closed a')
  /\ (forall q p, (q < length (Analyzer.promises a))%nat -> q ∉ ts ->
                  tracks q p a -> tracks q p a').

(** [a'] is reached from [a] by turns of the job queue, in any order, and
    by further calls of [analyzeRoot], with or without contents. *)
Inductive later (env : Analyzer.Env) (a : Analyzer.t) : Analyzer.t -> Prop :=
| later_now : later env a a
| later_request b url contents :
    later env a b -> later env a (Analyzer.analyzeRoot env url contents b).2
| later_step b i b' :
    later env a b -> Analyzer.step_at env i b = Some b' -> later env a b'.


(** [P] holds of every state that any order of running the queued jobs
    reaches from [a], and every such run is over after [fuel] turns. *)
Fixpoint holdsOnAllRuns (env : Analyzer.Env) (P : Analyzer.t -> bool)
    (fuel : nat) (a : Analyzer.t) : bool :=
  (P a &&
   match fuel with
   | O => match Analyzer.jobs a with [] => true | _ => false end
   | S fuel' =>
       forallb (fun i => match Analyzer.step_at env i a with
                         | Some a' => holdsOnAllRuns env P fuel' a'
                         | None => true
                         end)
               (seq 0 (length (Analyzer.jobs a)))
   end)%bool.

Definition isPending (s : option Analyzer.PromiseState) : bool :=
  match s with Some Analyzer.Pending => true | _ => false end.

(** The promise [root] is pending and no ScannedDocument has been built. *)
Definition stuck (root : nat) (a : Analyzer.t) : bool :=
  (isPending (Analyzer.promises a !! root)
   && match Analyzer.documents a with [] => true | _ => false end)%bool.

End AnalyzerNotions.
Module ChannelNotions.

(** The state of the promise of the request that went out under [id]. *)
Definition promiseOf (ch : Channel.t) (id : Z) : option Channel.PromiseState :=
  Channel._outstandingRequests ch !! id ≫= fun d => Channel.deferreds ch !! d.

(** What a settled value makes of a pending promise. *)
Definition outcome (v : Channel.SettledValue) : option Channel.PromiseState :=
  match v with
  | Channel.Resolution r => Some (Channel.Resolved r)
  | Channel.Rejection r => Some (Channel.Rejected r)
  | Channel.OtherKind _ => None
  end.

(** The life of a channel: requests are made and messages of the child
    arrive; a listener that throws ends it. *)
Inductive Event :=
| Request
| Response (response : Channel.ResponseWrapper).

Fixpoint run (es : list Event) (ch : Channel.t) : Exn + Channel.t :=
  match es with
  | [] => inr ch
  | Request :: es' => run es' (Channel.request ch).2
  | Response response :: es' =>
      match Channel._handleResponse response ch with
      | inr ch' => run es' ch'
      | inl e => inl e
      end
  end.

(** Requests are numbered from zero, and the deferred of request [n] is
    the [n]th one made. *)
Definition numbered (ch : Channel.t) : Prop :=
  let n := length (Channel.deferreds ch) in
  Channel._idCounter ch = Z.of_nat n
  /\ Channel.sent ch = Z.of_nat <$> seq 0 n
  /\ forall id, Channel._outstandingRequests ch !! id
                = if bool_decide (0 <= id < Z.of_nat n)%Z
                  then Some (Z.to_nat id) else None.

End ChannelNotions.

Module ServerNotions.
Import RemoteEditorService.

(** What happens in the child: a message of the parent arrives, or a call
    of the listener gets its settled value. *)
Inductive Event :=
| Message (m : RequestWrapper)
| Finish (i : nat).

Definition messages (es : list Event) : list RequestWrapper :=
  omap (fun e => match e with Message m => Some m | Finish _ => None end) es.

Section WithService.
Context {State : Type}.
Variable service : EditorService State.
Variable stackTrace : string -> string.

Definition step (p : Process State) (e : Event) : Process State :=
  match e with
  | Message m => onMessage service stackTrace m p
  | Finish i => default p (finish i p)
  end.

Definition run (es : list Event) (p : Process State) : Process State :=
  foldl step p es.

(** The responses a server owes to the messages [ms] that arrive in this
    order when its editor service is in the state [s]. *)
Fixpoint answers (s : State) (ms : list RequestWrapper)
  : list Channel.ResponseWrapper :=
  match ms with
  | [] => []
  | m :: ms' =>
      let '(result, s') := getSettledValue service stackTrace (value m) s in
      Channel.mkResponse (id m) result :: answers s' ms'
  end.

(** *** Parent and child together *)
Record System := mkSystem { parent : t; child : Process State }.

Inductive SystemEvent :=
| Call (req : Request)        (* a method of the remote editor service *)
| ChildReceives               (* the oldest message of the parent arrives *)
| ChildFinishes (i : nat)
| ParentReceives.             (* the oldest message of the child arrives *)

Definition systemStep (sys : System) (e : SystemEvent) : Exn + System :=
  match e with
  | Call req => inr (mkSystem (request req (parent sys)).2 (child sys))
  | ChildReceives =>
      match outbox (parent sys) with
      | m :: rest =>
          inr (mkSystem (mkRemote (_channel (parent sys)) rest)
                        (onMessage service stackTrace m (child sys)))
      | [] => inr sys
      end
  | ChildFinishes i =>
      inr (mkSystem (parent sys) (default (child sys) (finish i (child sys))))
  | ParentReceives =>
      match sent (child sys) with
      | m :: rest =>
          match onResponse m (parent sys) with
          | inr parent' =>
              inr (mkSystem parent'
                     (mkProcess (listener (child sys)) (waiting (child sys)) rest))
          | inl e => inl e
          end
      | [] => inr sys
      end
  end.

Fixpoint systemRun (es : list SystemEvent) (sys : System) : Exn + System :=
  match es with
  | [] => inr sys
  | e :: es' =>
      match systemStep sys e with
      | inr sys' => systemRun es' sys'
      | inl err => inl err
      end
  end.

(** [new RemoteEditorService(basedir)] with the child it has forked. *)
Definition boot (basedir : string) : System := mkSystem (new basedir) start.

(** A response that can be the answer to a request other than the first. *)
Definition answered (m : Channel.ResponseWrapper) : Prop :=
  Channel.id m <> 0%Z /\ is_Some (ChannelNotions.outcome (Channel.value m)).

(** What holds of the system while it runs: the channel numbers its
    requests, the first of them is pending, and no message on its way to
    the parent has the id of the first request. *)
Definition initPending (sys : System) : Prop :=
  let ch := _channel (parent sys) in
  ChannelNotions.numbered ch
  /\ Channel.deferreds ch !! 0%nat = Some Channel.Pending
  /\ match listener (child sys) with
     | Starting =>
         waiting (child sys) = [] /\ sent (child sys) = []
         /\ exists basedir rest,
              outbox (parent sys) = mkRequest 0 (InitRequest basedir) :: rest
              /\ Forall (fun m => id m <> 0%Z) rest
     | Serving _ =>
         Forall (fun m => id m <> 0%Z) (outbox (parent sys))
         /\ Forall answered (waiting (child sys))
         /\ Forall answered (sent (child sys))
     | Deaf => False
     end.

End WithService.

End ServerNotions.

Module RootNotions.
Import Analyzer.

Section WithEnv.
Variable env : Env.

(** The features the scan driver gives for a document, or its failure. *)
Definition featuresOf (document : ParsedDocument) : Exn + list ScannedFeature :=
  match (_getScannedFeatures env document create).1 with
  | Fulfilled (VFeatures fs) => inr fs
  | Fulfilled _ => inr []
  | Rejected e => inl e
  end.

(** What loading, parsing and scanning the document at the resolved URL
    [u] come to: the parsed document with its features, or the first
    failure on the way.  Contents that are provided stand in for the
    answer of the loader. *)
Definition stages (u : Url) (contents : option string)
  : Exn + (ParsedDocument * list ScannedFeature) :=
  match match contents with
        | Some content => inr content
        | None => load (_loader env) u
        end with
  | inl e => inl e
  | inr content =>
      match (_parse env (Js.substring1 (extname env u)) content u create).1 with
      | inl e => inl e
      | inr document =>
          match featuresOf document with
          | inl e => inl e
          | inr fs => inr (document, fs)
          end
      end
  end.

(** The ScannedDocument of a document whose features name no other
    document: the features in the coordinates of the document itself. *)
Definition leaf (document : ParsedDocument) (fs : list ScannedFeature)
  : ScannedDocument :=
  let offset := mkOffset 0 0 (Some (url document)) in
  mkScanned document []
            (commentFirst env None (map (offsetFeature env offset) fs))
            offset [] false.

(** The calls [_getScannedFeatures] makes for a document: one to the scan
    driver when scanners are registered for its type, none otherwise. *)
Definition scanCalls (document : ParsedDocument) : list Call :=
  calls (_getScannedFeatures env document create).2.

(** The analyzer once the function cached by [_loadResolved] has the
    content of the root document: [cs] are the calls made so far.  The
    promises are, in the order in which they were made, those of the call
    of [_scanResolved], of the cached scan, of [analyzeRoot], of the call
    of [_loadResolved] and of the cached load. *)
Definition loaded (url : Url) (cs : list Call) : t :=
  mkAnalyzer (<[_resolveUrl env url := 4%nat]> ∅)
             (<[_resolveUrl env url := 1%nat]> ∅) []
             [Pending; Pending; Pending; Pending; Pending]
             [(1%nat, KReturn 0); (0%nat, KAnalyzeRoot url 2);
              (4%nat, KReturn 3); (3%nat, KScanResolved 1)]
             [] [] [] cs.

End WithEnv.

(** A state with at most one job and the promise of the caller pending. *)
Definition lone (a : t) : Prop :=
  (length (jobs a) <= 1)%nat /\ promises a !! 2%nat = Some Pending.

(** A new analyzer that has been asked for one root. *)
Definition asked (env : Env) (url : Url) (contents : option string) : t :=
  (analyzeRoot env url contents create).2.

End RootNotions.

Module NamedNotions.
Import BehaviorScanner BehaviorNotions.

(** The record a reference names has a class name that is not empty. *)
Definition isNamed (v : BehaviorVisitor) (r : Ref) : Prop :=
  exists c, nameAt v r = Some c /\ Js.truthy c = true.

(** The records found and the record in progress are named. *)
Definition allNamed (v : BehaviorVisitor) : Prop :=
  (forall r, r ∈ found v -> isNamed v r)
  /\ (forall c, currentBehavior v = Some c -> isNamed v c).

End NamedNotions.


(* ===================================================================== *)
(** * Part III. Properties                                                *)
(* ===================================================================== *)

(** ** The attached comment of an HTML node *)

Lemma includes_true_iff (s needle : string) :
  Js.includes s needle = true <-> exists n, Js.indexOf s needle = Some n.
Proof.
  unfold Js.includes. destruct (Js.indexOf s needle); split; intros H;
    try done; eauto. by destruct H.
Qed.

(** [includes] answers whether the needle occurs in the string as a
    contiguous run of characters. *)
Lemma includes_occurs (s needle : string) :
  Js.includes s needle = true ->
  exists n, String.substring n (String.length needle) s = needle.
Proof.
  unfold Js.includes, Js.indexOf.
  destruct (String.index 0 needle s) as [n|] eqn:E; [|done].
  intros _. exists n. exact (String.index_correct1 _ _ _ _ E).
Qed.

Lemma includes_absent (s needle : string) (n : nat) :
  Js.includes s needle = false -> needle <> "" ->
  String.substring n (String.length needle) s <> needle.
Proof.
  unfold Js.includes, Js.indexOf.
  destruct (String.index 0 needle s) as [m|] eqn:E; [done|].
  intros _ Hne. apply (String.index_correct3 0 n _ _ E Hne). lia.
Qed.

Example trim_example : Js.trim "  a doc comment
 " = "a doc comment".
Proof. reflexivity. Qed.

(** [trim] removes the white space of every kind [String.prototype.trim]
    removes: here a no-break space (U+00A0) and a tab in front, an
    ideographic space (U+3000), a byte order mark (U+FEFF) and a line
    separator (U+2028) behind.  A letter with an accent stays. *)
Example trim_unicode :
  Js.trim (Js.bytes [194; 160; 9; 195; 169; 32; 97;
                     227; 128; 128; 239; 187; 191; 226; 128; 168]%nat)
  = Js.bytes [195; 169; 32; 97]%nat.
Proof. reflexivity. Qed.

(** A zero-width space (U+200B) is not white space for [trim]. *)
Example trim_zero_width :
  Js.trim (Js.bytes [226; 128; 139; 97; 32]%nat)
  = Js.bytes [226; 128; 139; 97]%nat.
Proof. reflexivity. Qed.

Lemma dropPrefix_length (p s rest : string) :
  Js.dropPrefix p s = Some rest ->
  String.length s = (String.length p + String.length rest)%nat.
Proof.
  revert s. induction p as [|a p IH]; intros s; cbn.
  - by intros [= ->].
  - destruct s as [|b s]; [done|]. case_bool_decide; [|done].
    intros Hrest. cbn. by rewrite (IH _ Hrest).
Qed.

Lemma dropFirst_shorter (marks : list string) (s rest : string) :
  Forall (fun m => m <> "") marks ->
  Js.dropFirst marks s = Some rest ->
  (String.length rest < String.length s)%nat.
Proof.
  induction 1 as [|m marks Hm _ IH]; cbn; [done|].
  destruct (Js.dropPrefix m s) as [r|] eqn:E; [|exact IH].
  intros [= ->]. apply dropPrefix_length in E.
  destruct m; [done|]. cbn in E. lia.
Qed.

(** The fuel of [trimStart] and [trimEnd] is enough: what [dropAll]
    answers starts with none of the marks. *)
Lemma dropAll_done (marks : list string) (fuel : nat) (s : string) :
  Forall (fun m => m <> "") marks ->
  (String.length s <= fuel)%nat ->
  Js.dropFirst marks (Js.dropAll marks fuel s) = None.
Proof.
  intros Hmarks. revert s. induction fuel as [|fuel IH]; intros s Hs; cbn.
  - destruct s; [|cbn in Hs; lia].
    clear Hs. induction Hmarks as [|m marks Hm _ IHm]; cbn; [done|].
    by destruct m.
  - destruct (Js.dropFirst marks s) as [rest|] eqn:E; [|exact E].
    apply IH. apply (dropFirst_shorter _ _ _ Hmarks) in E. lia.
Qed.

Lemma rev_onto_length (s acc : string) :
  String.length (Js.rev_onto s acc) = (String.length s + String.length acc)%nat.
Proof.
  revert acc. induction s as [|c s IH]; intros acc; cbn; [done|].
  rewrite IH. cbn. lia.
Qed.

Lemma rev_onto_twice (s acc acc' : string) :
  Js.rev_onto (Js.rev_onto s acc) acc' = Js.rev_onto acc (s +:+ acc').
Proof.
  revert acc. induction s as [|c s IH]; intros acc; cbn; [done|].
  by rewrite IH.
Qed.

Lemma reverse_involutive (s : string) : Js.reverse (Js.reverse s) = s.
Proof.
  unfold Js.reverse. rewrite rev_onto_twice. cbn [Js.rev_onto].
  induction s as [|c s IH]; [done|].
  change (String c s +:+ "") with (String c (s +:+ "")). by rewrite IH.
Qed.

Lemma whiteSpace_marks :
  Forall (fun m => m <> "") Js.whiteSpace
  /\ Forall (fun m => m <> "") (map Js.reverse Js.whiteSpace).
Proof. split; repeat (constructor; [discriminate|]); constructor. Qed.

(** What [trim] answers neither starts nor ends with white space. *)
Lemma trim_done (s : string) :
  Js.dropFirst Js.whiteSpace (Js.trimStart s) = None
  /\ Js.dropFirst (map Js.reverse Js.whiteSpace) (Js.reverse (Js.trimEnd s))
     = None.
Proof.
  destruct whiteSpace_marks as [H1 H2]. split.
  - by apply dropAll_done.
  - unfold Js.trimEnd. rewrite reverse_involutive.
    apply dropAll_done; [done|]. unfold Js.reverse.
    rewrite rev_onto_length. cbn. lia.
Qed.

(** C9. [getAttachedCommentText] answers [undefined] whenever the nearest
    preceding comment is absent, empty or contains ["@license"]; in every
    other case it answers that comment, unindented and trimmed. *)
Theorem getAttachedCommentText_skips_license
    (nodeWalkAllPrior : InlineDocument.ASTNode ->
                        (InlineDocument.ASTNode -> bool) ->
                        list InlineDocument.ASTNode)
    (isCommentNode : InlineDocument.ASTNode -> bool)
    (unindent : string -> string) (node : InlineDocument.ASTNode) :
  let comment :=
    nodeWalkAllPrior node isCommentNode !! 0%nat ≫= InlineDocument.data in
  let result :=
    InlineDocument.getAttachedCommentText nodeWalkAllPrior isCommentNode
                                          unindent node in
  (comment = None \/ comment = Some ""
   \/ (exists text, comment = Some text /\ Js.includes text "@license" = true)
   -> result = None)
  /\ (forall text, comment = Some text -> text <> "" ->
        Js.includes text "@license" = false ->
        result = Some (Js.trim (unindent text))).
Proof.
  cbn zeta. unfold InlineDocument.getAttachedCommentText.
  destruct (nodeWalkAllPrior node isCommentNode !! 0%nat) as [c|]; cbn.
  - destruct (InlineDocument.data c) as [text|]; cbn.
    + split.
      * intros [H|[H|(t & H & Hl)]]; try done.
        -- injection H as ->. reflexivity.
        -- injection H as ->. rewrite Hl. by rewrite orb_true_r.
      * intros t [= ->] Hne Hl. rewrite Hl.
        rewrite bool_decide_eq_false_2 by done. reflexivity.
    + split; [done|]. intros t H; discriminate H.
  - split; [done|]. intros t H; discriminate H.
Qed.

(** ** The editor RPC channel *)

Lemma settle_keeps_requests d s ch :
  Channel._outstandingRequests (Channel.settle d s ch)
  = Channel._outstandingRequests ch.
Proof. unfold Channel.settle. by destruct (_ !! d) as [[]|]. Qed.

Lemma handleResponse_spec (response : Channel.ResponseWrapper) (ch : Channel.t) :
  (Channel._outstandingRequests ch !! Channel.id response = None ->
   Channel._handleResponse response ch = inr ch)
  /\ (forall kind, is_Some (Channel._outstandingRequests ch !! Channel.id response) ->
        Channel.value response = Channel.OtherKind kind ->
        exists text, Channel._handleResponse response ch = inl (Error text ""))
  /\ (forall ch', Channel._handleResponse response ch = inr ch' ->
        Channel._outstandingRequests ch' = Channel._outstandingRequests ch).
Proof.
  unfold Channel._handleResponse. split; [|split].
  - by intros ->.
  - intros kind [d ->] ->. cbn. eauto.
  - intros ch'. destruct (_ !! Channel.id response) as [d|].
    + destruct (Channel.value response); intros [= <-];
        apply settle_keeps_requests.
    + by intros [= <-].
Qed.

(** C10. In both channels a response whose id matches no outstanding
    request is ignored: the handler returns normally and leaves the channel
    as it was (no deferred settles, the map of outstanding requests keeps
    its entries); a response whose id is matched but whose kind is neither
    of the two known ones makes the handler throw. The handler never
    changes the map. *)
Theorem handleResponse_unmatched_ignored
    (response : Channel.ResponseWrapper) (ch : Channel.t) :
  ((Channel._outstandingRequests ch !! Channel.id response = None ->
    EditorServerChannel._handleResponse response ch = inr ch)
   /\ (forall kind,
         is_Some (Channel._outstandingRequests ch !! Channel.id response) ->
         Channel.value response = Channel.OtherKind kind ->
         exists text,
           EditorServerChannel._handleResponse response ch = inl (Error text ""))
   /\ (forall ch', EditorServerChannel._handleResponse response ch = inr ch' ->
         Channel._outstandingRequests ch' = Channel._outstandingRequests ch))
  /\
  ((Channel._outstandingRequests ch !! Channel.id response = None ->
    SelfChannel._handleResponse response ch = inr ch)
   /\ (forall kind,
         is_Some (Channel._outstandingRequests ch !! Channel.id response) ->
         Channel.value response = Channel.OtherKind kind ->
         exists text,
           SelfChannel._handleResponse response ch = inl (Error text ""))
   /\ (forall ch', SelfChannel._handleResponse response ch = inr ch' ->
         Channel._outstandingRequests ch' = Channel._outstandingRequests ch)).
Proof. split; apply handleResponse_spec. Qed.

(** A response for request 0 that arrives twice, then one for a request
    that was never made: only the first settles anything. *)
Example handleResponse_run :
  let '(_, d, ch) := Channel.request Channel.create in
  let first := Channel._handleResponse (Channel.mkResponse 0 (Channel.Resolution "ok")) ch in
  first = inr (Channel.settle d (Channel.Resolved "ok") ch)
  /\ Channel._handleResponse (Channel.mkResponse 7 (Channel.Rejection "no")) ch = inr ch
  /\ Channel._handleResponse (Channel.mkResponse 0 (Channel.OtherKind "progress")) ch
     = inl (Error "Got unknown kind of response: { kind: 'progress' }" "").
Proof. cbn. repeat split. Qed.

(** ** The behavior scanner *)
Section BehaviorScannerFacts.
Import BehaviorScanner BehaviorNotions.
Variable env : Env.

Lemma deref_alloc b v : deref (alloc b v).1 (alloc b v).2 = Some b.
Proof.
  unfold deref, alloc. cbn [fst snd store]. rewrite lookup_app_r by lia.
  by rewrite Nat.sub_diag.
Qed.

Lemma deref_mutate_eq r f v b :
  deref r v = Some b -> deref r (mutate r f v) = Some (f b).
Proof.
  unfold deref, mutate. cbn [store]. intros H.
  by rewrite list_lookup_alter_eq, H.
Qed.

Lemma deref_mutate_ne r r' f v :
  r <> r' -> deref r' (mutate r f v) = deref r' v.
Proof.
  unfold deref, mutate. cbn [store]. intros H. by rewrite list_lookup_alter_ne.
Qed.

Lemma deref_old_alloc r b v :
  (r < length (store v))%nat -> deref r (alloc b v).2 = deref r v.
Proof. unfold deref, alloc. cbn [snd store]. intros H. by rewrite lookup_app_l. Qed.

Lemma alter_last {A} (f : A -> A) (l : list A) (x : A) :
  alter f (length l) (l ++ [x]) = l ++ [f x].
Proof.
  induction l as [|y l IH]; cbn; [done|]. by rewrite IH.
Qed.

Lemma promote_steps node v :
  mutate (length (store v)) (annotateBehavior env)
    (set_handlers (Some (length (store v)))
       (_startBehavior (length (store v))
          (alloc (new_ScannedBehavior (getAttachedComment env node)
                    (getEventComments env node) (sourceRangeForNode env node)) v).2))
  = promoted env node v.
Proof.
  unfold promoted, mutate, set_handlers, _startBehavior, set_current,
    console_assert, alloc, candidate.
  destruct v as [st fd cur hd fa]; cbn [store found currentBehavior
    propertyHandlers failedAssertions snd fst].
  destruct (bool_decide (cur = None));
    cbn [store found currentBehavior propertyHandlers failedAssertions];
    by rewrite alter_last.
Qed.

Lemma deref_promoted node v :
  deref (length (store v)) (promoted env node v) = Some (candidate env node).
Proof.
  unfold deref, promoted. cbn [store]. rewrite lookup_app_r by lia.
  by rewrite Nat.sub_diag.
Qed.

(** [_initBehavior] past its first filter. *)
Lemma initBehavior_promoted node symbol v :
  (mentionsTag env node || isSentinel symbol)%bool = true ->
  _initBehavior env node symbol v =
    let cur := length (store v) in
    let v1 := promoted env node v in
    if (negb (hasTag env (jsdoc (candidate env node)) "polymerBehavior")
        && negb (isSentinel symbol))%bool
    then inr (_abandonBehavior v1)
    else
      let name := Js.or_else (getTag env (jsdoc (candidate env node))
                                     "polymerBehavior" "name") symbol in
      let v2 := mutate cur (with_className name) v1 in
      if negb (Js.truthy name)
      then inl (Error ("Unable to determine name for @polymerBehavior: "
                       +:+ default "undefined" (getAttachedComment env node)) "")
      else
        let v3 := _parseChainedBehaviors env node v2 in
        let v4 := set_handlers (Some (mergeBehavior cur v3).1)
                    (set_current (Some (mergeBehavior cur v3).1)
                                 (mergeBehavior cur v3).2) in
        if isSimpleBehaviorArray (behaviorExpression node)
        then inr (_finishBehavior v4) else inr v4.
Proof.
  intros Hp. unfold _initBehavior.
  assert (((negb (Js.truthy (getAttachedComment env node))
            || negb (Js.includes (default "" (getAttachedComment env node))
                       "@polymerBehavior"))
           && negb (bool_decide (symbol = Some templatizer)))%bool = false) as ->.
  { unfold mentionsTag, isSentinel in Hp.
    destruct (Js.truthy _), (Js.includes _ _), (bool_decide _); done. }
  cbn zeta.
  change (alloc ?b v) with (length (store v), (alloc b v).2).
  cbn iota beta.
  replace (currentBehavior (_startBehavior (length (store v)) _))
    with (Some (length (store v))) by reflexivity.
  rewrite promote_steps, deref_promoted. cbn [default].
  unfold isSentinel, Datatypes.id.
  destruct (negb (hasTag env (jsdoc (candidate env node)) "polymerBehavior")
            && negb (bool_decide (symbol = Some templatizer)))%bool; [done|].
  destruct (negb (Js.truthy _)); [done|].
  by destruct (mergeBehavior _ _) as [merged v'].
Qed.

Lemma initBehavior_ignored node symbol v :
  (mentionsTag env node || isSentinel symbol)%bool = false ->
  _initBehavior env node symbol v = inr v.
Proof.
  intros Hp. unfold _initBehavior.
  assert (((negb (Js.truthy (getAttachedComment env node))
            || negb (Js.includes (default "" (getAttachedComment env node))
                       "@polymerBehavior"))
           && negb (bool_decide (symbol = Some templatizer)))%bool = true) as ->;
    [|done].
  unfold mentionsTag, isSentinel in Hp.
  destruct (Js.truthy _), (Js.includes _ _), (bool_decide _); done.
Qed.

Lemma chainedNames_named elements names :
  Forall2 (fun e n => getIdentifierName env e = Some n /\ n <> "") elements names ->
  chainedNames env elements = names.
Proof.
  unfold chainedNames. induction 1 as [|e n es ns [He Hn] _ IH]; [done|].
  cbn. rewrite He. cbn. rewrite bool_decide_eq_false_2 by done. cbn.
  f_equal. exact IH.
Qed.

Lemma sameName_app nb st x fd :
  Forall (fun r => r < length st)%nat fd ->
  sameName nb (st ++ [x]) fd = sameName nb st fd.
Proof.
  induction 1 as [|r fd Hr _ IH]; [done|].
  cbn. rewrite lookup_app_l by done. rewrite IH. done.
Qed.

Lemma sameName_fresh nb st fd :
  (forall r b, r ∈ fd -> st !! r = Some b -> className b <> className nb) ->
  sameName nb st fd = None.
Proof.
  induction fd as [|r fd IH]; [done|]. intros H. cbn.
  destruct (st !! r) as [b|] eqn:Hb.
  - rewrite bool_decide_eq_false_2.
    + apply IH. intros r' b' Hr'. apply H. by right.
    + intros Heq. eapply H; [left|exact Hb|done].
  - apply IH. intros r' b' Hr'. apply H. by right.
Qed.

Lemma sameName_Some nb st fd r :
  sameName nb st fd = Some r ->
  r ∈ fd /\ exists b, st !! r = Some b /\ className nb = className b.
Proof.
  induction fd as [|r' fd IH]; [done|]. cbn.
  destruct (st !! r') as [b|] eqn:Hb.
  - case_bool_decide as Hc.
    + intros [= <-]. split; [left|eauto].
    + intros H. destruct (IH H) as [? ?]. split; [by right|done].
  - intros H. destruct (IH H) as [? ?]. split; [by right|done].
Qed.

Lemma before_merge node symbol v elements names :
  behaviorExpression node = Some (ArrayExpression elements) ->
  chainedNames env elements = names ->
  _parseChainedBehaviors env node
    (mutate (length (store v))
       (with_className (Js.or_else (getTag env (jsdoc (candidate env node))
                                           "polymerBehavior" "name") symbol))
       (promoted env node v))
  = mkVisitor (store v ++ [chained env node symbol names]) (found v)
              (Some (length (store v))) (Some (length (store v)))
              (failedAssertions (promoted env node v)).
Proof.
  intros He Hn. unfold _parseChainedBehaviors, chained. rewrite He, Hn.
  unfold mutate, promoted.
  cbn [store found currentBehavior propertyHandlers failedAssertions].
  rewrite alter_last.
  destruct (0 <? length names)%nat;
    cbn [store found currentBehavior propertyHandlers failedAssertions];
    by rewrite ?alter_last.
Qed.

End BehaviorScannerFacts.

Import BehaviorNotions.

(** C8. A candidate whose attached comment does not contain the tag and
    whose name is not [Polymer.Templatizer] leaves the visitor as it was, so
    that whenever [_initBehavior] changes anything (or throws) the comment
    contains the tag or the name is the sentinel.  A candidate that passed
    this filter but whose parsed doc comment has no [polymerBehavior] tag,
    and whose name is not the sentinel, is abandoned: [currentBehavior] and
    [propertyHandlers] are reset to [null], the set of found behaviors and
    the records in it are as before. *)
Theorem initBehavior_needs_tag_or_sentinel
    (env : BehaviorScanner.Env) (node : BehaviorScanner.Node)
    (symbol : option string) (v : BehaviorScanner.BehaviorVisitor) :
  (mentionsTag env node = false -> isSentinel symbol = false ->
   BehaviorScanner._initBehavior env node symbol v = inr v)
  /\ (BehaviorScanner._initBehavior env node symbol v <> inr v ->
      mentionsTag env node = true \/ isSentinel symbol = true)
  /\ (mentionsTag env node = true -> isSentinel symbol = false ->
      BehaviorScanner.hasTag env (BehaviorScanner.jsdoc (candidate env node))
                             "polymerBehavior" = false ->
      exists v',
        BehaviorScanner._initBehavior env node symbol v = inr v'
        /\ BehaviorScanner.currentBehavior v' = None
        /\ BehaviorScanner.propertyHandlers v' = None
        /\ BehaviorScanner.found v' = BehaviorScanner.found v
        /\ (forall r b, BehaviorScanner.deref r v = Some b ->
                        BehaviorScanner.deref r v' = Some b)).
Proof.
  split; [|split].
  - intros Hm Hs. apply initBehavior_ignored. by rewrite Hm, Hs.
  - intros Hne.
    destruct (mentionsTag env node) eqn:Hm; [by left|].
    destruct (isSentinel symbol) eqn:Hs; [by right|].
    exfalso. apply Hne. apply initBehavior_ignored. by rewrite Hm, Hs.
  - intros Hm Hs Ht. rewrite initBehavior_promoted by (by rewrite Hm).
    cbn zeta. rewrite Ht, Hs. cbn.
    eexists; split; [reflexivity|]. repeat split.
    intros r b. unfold BehaviorScanner.deref; cbn. intros H.
    rewrite lookup_app_l; [done|]. by eapply lookup_lt_Some.
Qed.

(** The comment of [mention] names the tag in running text only: the
    candidate is promoted, then abandoned. *)
Lemma initBehavior_needs_tag_or_sentinel_witness :
  exists v',
    BehaviorScanner._initBehavior BehaviorSamples.mention
      BehaviorSamples.helperStatement (Some "Helper") BehaviorScanner.create = inr v'
    /\ BehaviorScanner.currentBehavior v' = None
    /\ BehaviorScanner.propertyHandlers v' = None
    /\ BehaviorScanner.found v' = BehaviorScanner.found BehaviorScanner.create
    /\ (forall r b, BehaviorScanner.deref r BehaviorScanner.create = Some b ->
                    BehaviorScanner.deref r v' = Some b).
Proof.
  apply (initBehavior_needs_tag_or_sentinel BehaviorSamples.mention
           BehaviorSamples.helperStatement (Some "Helper") BehaviorScanner.create);
    reflexivity.
Defined.

(** The visitor keeps its references valid. *)
Lemma wf_create : wf BehaviorScanner.create.
Proof. split; [constructor|done]. Qed.

Section WellFormed.
Import BehaviorScanner.
Variable env : Env.

Lemma wf_mutate r f v : wf v -> wf (mutate r f v).
Proof.
  intros [Hf Hc]. unfold wf, mutate.
  cbn [store found currentBehavior]. by rewrite length_alter.
Qed.

Lemma wf_parseChained node v : wf v -> wf (_parseChainedBehaviors env node v).
Proof.
  intros H. unfold _parseChainedBehaviors.
  destruct (behaviorExpression node) as [[]|]; try done.
  destruct (currentBehavior v); try done.
  destruct (0 <? _)%nat; [by apply wf_mutate|done].
Qed.

Lemma current_parseChained node v :
  currentBehavior (_parseChainedBehaviors env node v) = currentBehavior v.
Proof.
  unfold _parseChainedBehaviors.
  destruct (behaviorExpression node) as [[]|]; try done.
  destruct (currentBehavior v) eqn:E; try done.
  by destruct (0 <? _)%nat.
Qed.

Lemma wf_finish v : wf v -> wf (_finishBehavior v).
Proof.
  intros [Hf Hc]. unfold _finishBehavior, console_assert.
  destruct v as [st fd [r|] h fa]; cbn in *.
  - split; cbn; [|done]. unfold Set_add. case_bool_decide; [done|].
    apply Forall_app; split; [done|]. constructor; [auto|constructor].
  - split; cbn; done.
Qed.

Lemma wf_merge cur v :
  wf v -> (cur < length (store v))%nat ->
  let m := mergeBehavior cur v in
  wf (set_handlers (Some m.1) (set_current (Some m.1) m.2)).
Proof.
  intros [Hf Hc] Hcur. unfold mergeBehavior.
  destruct (deref cur v) as [nb|]; cbn zeta.
  - destruct (sameName nb (store v) (found v)) as [r|] eqn:Hs; cbn [fst snd].
    + destruct (sameName_Some _ _ _ _ Hs) as [Hin _].
      split; cbn [store found currentBehavior set_handlers set_current mutate].
      * by rewrite length_alter.
      * intros r' [= <-]. rewrite length_alter.
        rewrite Forall_forall in Hf. by apply Hf.
    + split; cbn [store found currentBehavior set_handlers set_current]; [done|].
      by intros r' [= <-].
  - split; cbn [fst snd store found currentBehavior set_handlers set_current];
      [done|]. by intros r' [= <-].
Qed.

Lemma wf_promoted node v : wf v -> wf (promoted env node v).
Proof.
  intros [Hf Hc]. unfold promoted. split; cbn [store found currentBehavior].
  - rewrite length_app. cbn. eapply Forall_impl; [exact Hf|].
    cbn. intros. lia.
  - intros r [= <-]. rewrite length_app. cbn. lia.
Qed.

Lemma initBehavior_wf node symbol v v' :
  wf v -> _initBehavior env node symbol v = inr v' -> wf v'.
Proof.
  intros Hwf. destruct (mentionsTag env node || isSentinel symbol)%bool eqn:Hp.
  - rewrite initBehavior_promoted by done. cbn zeta.
    pose proof (wf_promoted node v Hwf) as Hpw.
    destruct (negb _ && negb _)%bool.
    { intros [= <-]. destruct Hpw as [Hf Hc].
      split; cbn [store found currentBehavior _abandonBehavior set_handlers
                  set_current]; done. }
    destruct (negb (Js.truthy _)); [done|].
    set (v3 := _parseChainedBehaviors env node _).
    assert (Hv3 : wf v3) by (apply wf_parseChained, wf_mutate, Hpw).
    assert (Hcur : (length (store v) < length (store v3))%nat).
    { destruct Hv3 as [_ Hc]. apply Hc. unfold v3.
      by rewrite current_parseChained. }
    pose proof (wf_merge (length (store v)) v3 Hv3 Hcur) as Hm.
    destruct (isSimpleBehaviorArray _); intros [= <-];
      [by apply wf_finish|done].
  - rewrite initBehavior_ignored by done. by intros [= <-].
Qed.

Lemma objectProperties_wf props v v' :
  wf v -> objectProperties env props v = inr v' ->
  wf v' /\ currentBehavior v' = currentBehavior v.
Proof.
  revert v. induction props as [|prop props IH]; intros v Hwf; cbn.
  - by intros [= <-].
  - destruct (negb (Js.truthy _)); [done|].
    intros H. apply IH in H.
    + destruct H as [H1 H2]. split; [done|]. rewrite H2.
      destruct (declarationPropertyHandlers env _).
      * destruct (propertyHandlers v); reflexivity.
      * destruct (currentBehavior v) eqn:E; cbn [mutate currentBehavior];
          congruence.
    + destruct (declarationPropertyHandlers env _).
      * destruct (propertyHandlers v); [by apply wf_mutate|done].
      * destruct (currentBehavior v); [by apply wf_mutate|done].
Qed.

Lemma visit1_wf e v v' : wf v -> visit1 env e v = inr v' -> wf v'.
Proof.
  intros Hwf. destruct e as [node|node parent|node]; cbn.
  - unfold enterVariableDeclaration.
    destruct node as [[|d [|]] ?| |]; try (by intros [= <-]).
    by apply initBehavior_wf.
  - unfold enterAssignmentExpression.
    destruct node; try (by intros [= <-]). by apply initBehavior_wf.
  - unfold enterObjectExpression.
    destruct node as [| |props| | |]; try (by intros [= <-]).
    destruct (currentBehavior v); try (by intros [= <-]).
    destruct (objectProperties env props v) as [|v''] eqn:Ho; [done|].
    intros [= <-]. apply wf_finish. by eapply objectProperties_wf.
Qed.

Lemma visit_wf es v v' : wf v -> visit env es v = inr v' -> wf v'.
Proof.
  revert v. induction es as [|e es IH]; intros v Hwf; cbn.
  - by intros [= <-].
  - destruct (visit1 env e v) as [|v''] eqn:He; [done|].
    apply IH. by eapply visit1_wf.
Qed.

End WellFormed.

(** C7, as the code has it.  Take a candidate that is promoted, accepted and
    named, whose initializer is an array literal of identifiers and member
    expressions with the names [names], and whose doc comment contributes no
    property and no behavior name.  If no record found so far has its class
    name, its record is added to the found behaviors at once, with
    [behaviors = names] and no properties, and [currentBehavior] is [null]
    again, so that [enterObjectExpression] does nothing for it.  If a record
    found so far has its class name, no record is added: the names are
    merged into that record by [mergeBehavior] (appended to its [behaviors],
    then filtered), and that record keeps its properties. *)
Theorem simple_array_emitted_at_once
    (env : BehaviorScanner.Env) (node : BehaviorScanner.Node)
    (symbol : option string) (v : BehaviorScanner.BehaviorVisitor)
    (elements : list BehaviorScanner.Expr) (names : list string)
    (Hwf : wf v)
    (Hinit : BehaviorScanner.behaviorExpression node
             = Some (BehaviorScanner.ArrayExpression elements))
    (Hsimple : forallb BehaviorScanner.isSimpleElement elements = true)
    (Hnames : Forall2 (fun e n => BehaviorScanner.getIdentifierName env e = Some n
                                  /\ n <> "") elements names)
    (Hpromoted : (mentionsTag env node || isSentinel symbol)%bool = true)
    (Haccepted : (BehaviorScanner.hasTag env
                    (BehaviorScanner.jsdoc (candidate env node)) "polymerBehavior"
                  || isSentinel symbol)%bool = true)
    (Hnamed : Js.truthy (BehaviorScanner.className (chained env node symbol names))
              = true)
    (Hdoc : BehaviorScanner.properties (candidate env node) = []
            /\ BehaviorScanner.behaviors (candidate env node) = []) :
  let name := BehaviorScanner.className (chained env node symbol names) in
  let new := length (BehaviorScanner.store v) in
  ((forall r b, r ∈ BehaviorScanner.found v ->
                BehaviorScanner.deref r v = Some b ->
                BehaviorScanner.className b <> name) ->
   exists v' b,
     BehaviorScanner._initBehavior env node symbol v = inr v'
     /\ BehaviorScanner.found v' = BehaviorScanner.found v ++ [new]
     /\ BehaviorScanner.currentBehavior v' = None
     /\ BehaviorScanner.deref new v' = Some b
     /\ BehaviorScanner.className b = name
     /\ BehaviorScanner.behaviors b = names
     /\ BehaviorScanner.properties b = []
     /\ (forall obj, BehaviorScanner.enterObjectExpression env obj v' = inr v'))
  /\
  (forall r old,
     BehaviorScanner.sameName (chained env node symbol names)
       (BehaviorScanner.store v) (BehaviorScanner.found v) = Some r ->
     BehaviorScanner.deref r v = Some old ->
     exists v',
       BehaviorScanner._initBehavior env node symbol v = inr v'
       /\ BehaviorScanner.found v' = BehaviorScanner.found v
       /\ BehaviorScanner.currentBehavior v' = None
       /\ BehaviorScanner.deref r v'
          = Some (BehaviorScanner.mergeInto (chained env node symbol names) old)
       /\ BehaviorScanner.properties
            (BehaviorScanner.mergeInto (chained env node symbol names) old)
          = BehaviorScanner.properties old).
Proof.
  intros name new.
  pose proof (chainedNames_named env elements names Hnames) as Hch.
  assert (Hname : BehaviorScanner.className (chained env node symbol names)
                  = Js.or_else (BehaviorScanner.getTag env
                                  (BehaviorScanner.jsdoc (candidate env node))
                                  "polymerBehavior" "name") symbol).
  { unfold chained. by destruct (0 <? length names)%nat. }
  assert (Hstart :
    BehaviorScanner._initBehavior env node symbol v =
    let m := BehaviorScanner.mergeBehavior new
               (BehaviorScanner.mkVisitor
                  (BehaviorScanner.store v ++ [chained env node symbol names])
                  (BehaviorScanner.found v) (Some new) (Some new)
                  (BehaviorScanner.failedAssertions (promoted env node v))) in
    inr (BehaviorScanner._finishBehavior
           (BehaviorScanner.set_handlers (Some m.1)
              (BehaviorScanner.set_current (Some m.1) m.2)))).
  { rewrite initBehavior_promoted by done. cbn zeta.
    assert ((negb (BehaviorScanner.hasTag env
                     (BehaviorScanner.jsdoc (candidate env node)) "polymerBehavior")
             && negb (isSentinel symbol))%bool = false) as ->.
    { destruct (BehaviorScanner.hasTag _ _ _), (isSentinel symbol); done. }
    rewrite <- Hname, Hnamed. cbn [negb].
    rewrite Hname, (before_merge env node symbol v elements names Hinit Hch).
    unfold BehaviorScanner.isSimpleBehaviorArray. by rewrite Hinit, Hsimple. }
  assert (Hderef : forall fd c h fa,
    BehaviorScanner.deref new
      (BehaviorScanner.mkVisitor
         (BehaviorScanner.store v ++ [chained env node symbol names]) fd c h fa)
    = Some (chained env node symbol names)).
  { intros. unfold BehaviorScanner.deref. cbn [BehaviorScanner.store].
    rewrite lookup_app_r by (subst new; lia). subst new.
    by rewrite Nat.sub_diag. }
  split.
  - intros Hfresh. rewrite Hstart. unfold BehaviorScanner.mergeBehavior.
    rewrite Hderef. cbn [BehaviorScanner.store BehaviorScanner.found].
    rewrite sameName_app by apply Hwf.
    rewrite sameName_fresh by (intros r b Hr Hb; eapply Hfresh; eauto).
    cbn zeta. cbn [fst snd].
    assert (Hnew : new ∉ BehaviorScanner.found v).
    { intros Hin. destruct Hwf as [Hwf _]. rewrite Forall_forall in Hwf.
      specialize (Hwf _ Hin). subst new. lia. }
    eexists _, (chained env node symbol names).
    split; [reflexivity|].
    unfold BehaviorScanner._finishBehavior, BehaviorScanner.set_handlers,
      BehaviorScanner.set_current, BehaviorScanner.console_assert.
    cbn [BehaviorScanner.currentBehavior BehaviorScanner.store
         BehaviorScanner.found BehaviorScanner.propertyHandlers
         BehaviorScanner.failedAssertions bool_decide negb].
    rewrite bool_decide_eq_false_2 by done. cbn [negb].
    cbn [BehaviorScanner.currentBehavior BehaviorScanner.store
         BehaviorScanner.found BehaviorScanner.propertyHandlers
         BehaviorScanner.failedAssertions].
    unfold BehaviorScanner.Set_add. rewrite bool_decide_eq_false_2 by done.
    repeat split.
    + apply Hderef.
    + unfold chained. destruct names as [|n ns]; cbn.
      * apply Hdoc.
      * done.
    + unfold chained. destruct (0 <? length names)%nat; cbn; apply Hdoc.
    + intros obj. unfold BehaviorScanner.enterObjectExpression.
      by destruct obj.
  - intros r old Hsame Hold. rewrite Hstart.
    unfold BehaviorScanner.mergeBehavior.
    rewrite Hderef. cbn [BehaviorScanner.store BehaviorScanner.found].
    rewrite sameName_app by apply Hwf. rewrite Hsame.
    cbn zeta. cbn [fst snd].
    destruct (sameName_Some _ _ _ _ Hsame) as [Hin _].
    eexists. split; [reflexivity|].
    unfold BehaviorScanner._finishBehavior, BehaviorScanner.set_handlers,
      BehaviorScanner.set_current, BehaviorScanner.console_assert,
      BehaviorScanner.mutate.
    cbn [BehaviorScanner.currentBehavior BehaviorScanner.store
         BehaviorScanner.found BehaviorScanner.propertyHandlers
         BehaviorScanner.failedAssertions].
    rewrite bool_decide_eq_false_2 by done. cbn [negb].
    cbn [BehaviorScanner.currentBehavior BehaviorScanner.store
         BehaviorScanner.found BehaviorScanner.propertyHandlers
         BehaviorScanner.failedAssertions].
    unfold BehaviorScanner.Set_add. rewrite bool_decide_eq_true_2 by done.
    repeat split.
    + unfold BehaviorScanner.deref. cbn [BehaviorScanner.store].
      rewrite list_lookup_alter_eq.
      unfold BehaviorScanner.deref in Hold.
      rewrite lookup_app_l by (by eapply lookup_lt_Some).
      by rewrite Hold.
    + unfold BehaviorScanner.mergeInto.
      cbn [BehaviorScanner.properties BehaviorScanner.with_behaviors
           BehaviorScanner.with_observers].
      assert (BehaviorScanner.properties (chained env node symbol names) = []) as ->.
      { unfold chained. destruct (0 <? length names)%nat; cbn; apply Hdoc. }
      cbn [foldl]. by repeat (destruct (Js.truthy _) || destruct (_ <? _)%nat).
Qed.

(** The chain of [implConvention] at the start of a script: no record has
    its name yet, and it is emitted as written. *)
Lemma simple_array_emitted_at_once_witness :
  exists v' b,
    BehaviorScanner._initBehavior BehaviorSamples.implConvention
      BehaviorSamples.chainStatement (Some "Polymer.Foo") BehaviorScanner.create
    = inr v'
    /\ BehaviorScanner.found v' = [0%nat]
    /\ BehaviorScanner.currentBehavior v' = None
    /\ BehaviorScanner.deref 0%nat v' = Some b
    /\ BehaviorScanner.className b = Some "Polymer.Foo"
    /\ BehaviorScanner.behaviors b = ["Polymer.Bar"; "Polymer.FooImpl"]
    /\ BehaviorScanner.properties b = []
    /\ (forall obj,
          BehaviorScanner.enterObjectExpression BehaviorSamples.implConvention obj v'
          = inr v').
Proof.
  destruct (simple_array_emitted_at_once BehaviorSamples.implConvention
              BehaviorSamples.chainStatement (Some "Polymer.Foo")
              BehaviorScanner.create BehaviorSamples.chainElements
              ["Polymer.Bar"; "Polymer.FooImpl"]) as [fresh _].
  - exact wf_create.
  - reflexivity.
  - reflexivity.
  - repeat constructor; discriminate.
  - reflexivity.
  - reflexivity.
  - reflexivity.
  - split; reflexivity.
  - apply fresh. intros r b Hr. cbn in Hr. by apply elem_of_nil in Hr.
Defined.

(** C7 as written fails where the convention of the Polymer elements is
    followed: after [Polymer.FooImpl = {a: one}] documented as
    [@polymerBehavior Polymer.Foo], the declaration
    [Polymer.Foo = [Polymer.Bar, Polymer.FooImpl]] is promoted and its
    initializer is an array of two member expressions, yet the one record
    found has [behaviors = [Polymer.Bar]] and the property [a]. *)
Lemma simple_array_merged_counterexample :
  exists v v' b,
    BehaviorScanner.visit BehaviorSamples.implConvention
      BehaviorSamples.implDeclaration BehaviorScanner.create = inr v
    /\ (mentionsTag BehaviorSamples.implConvention BehaviorSamples.chainStatement
        = true)
    /\ BehaviorScanner.behaviorExpression BehaviorSamples.chainStatement
       = Some (BehaviorScanner.ArrayExpression BehaviorSamples.chainElements)
    /\ forallb BehaviorScanner.isSimpleElement BehaviorSamples.chainElements = true
    /\ BehaviorScanner.chainedNames BehaviorSamples.implConvention
         BehaviorSamples.chainElements = ["Polymer.Bar"; "Polymer.FooImpl"]
    /\ BehaviorScanner._initBehavior BehaviorSamples.implConvention
         BehaviorSamples.chainStatement (Some "Polymer.Foo") v = inr v'
    /\ BehaviorScanner.found v' = [0%nat]
    /\ BehaviorScanner.deref 0%nat v' = Some b
    /\ BehaviorScanner.className b = Some "Polymer.Foo"
    /\ BehaviorScanner.behaviors b = ["Polymer.Bar"]
    /\ BehaviorScanner.behaviors b <> ["Polymer.Bar"; "Polymer.FooImpl"]
    /\ BehaviorScanner.properties b = [BehaviorScanner.mkProperty "a" "one"]
    /\ BehaviorScanner.properties b <> [].
Proof.
  eexists _, _, _. split; [vm_compute; reflexivity|].
  do 4 (split; [vm_compute; reflexivity|]).
  split; [vm_compute; reflexivity|].
  split; [reflexivity|]. split; [vm_compute; reflexivity|].
  cbn. repeat split; discriminate.
Qed.

(** ** Merging two declarations of one behavior *)

(** What [mergeBehavior] does to the record found, member by member. *)
Lemma mergeInto_members (newBehavior behavior : BehaviorScanner.ScannedBehavior) :
  let merged := BehaviorScanner.mergeInto newBehavior behavior in
  BehaviorScanner.className merged = BehaviorScanner.className behavior
  /\ BehaviorScanner.demos merged
     = BehaviorScanner.demos behavior ++ BehaviorScanner.demos newBehavior
  /\ BehaviorScanner.events merged
     = BehaviorScanner.dedupe
         (BehaviorScanner.events behavior ++ BehaviorScanner.events newBehavior)
         BehaviorScanner.ev_name
  /\ BehaviorScanner.observers merged
     = BehaviorScanner.observers behavior ++ BehaviorScanner.observers newBehavior
  /\ BehaviorScanner.behaviors merged
     = List.filter
         (fun b => negb (Js.includes b
                           (default "undefined"
                              (BehaviorScanner.className newBehavior))))
         (BehaviorScanner.behaviors behavior
          ++ BehaviorScanner.behaviors newBehavior)
  /\ BehaviorScanner.properties merged
     = foldl (fun ps p => BehaviorScanner.addProperty_list p ps)
             (BehaviorScanner.properties behavior)
             (BehaviorScanner.properties newBehavior).
Proof.
  cbn zeta. unfold BehaviorScanner.mergeInto.
  set (b0 := if Js.truthy (BehaviorScanner.description newBehavior) then _ else _).
  assert (Hb0 : BehaviorScanner.className b0 = BehaviorScanner.className behavior
                /\ BehaviorScanner.demos b0 = BehaviorScanner.demos behavior
                /\ BehaviorScanner.events b0 = BehaviorScanner.events behavior
                /\ BehaviorScanner.observers b0 = BehaviorScanner.observers behavior
                /\ BehaviorScanner.behaviors b0 = BehaviorScanner.behaviors behavior
                /\ BehaviorScanner.properties b0 = BehaviorScanner.properties behavior).
  { unfold b0. by repeat (destruct (Js.truthy _) || destruct (_ <? _)%nat). }
  destruct Hb0 as (H1 & H2 & H3 & H4 & H5 & H6).
  set (b3 := BehaviorScanner.with_events _ (BehaviorScanner.with_events _ _)).
  assert (Hfold : forall ps b,
    let r := foldl (fun b p => BehaviorScanner.addProperty p b) b ps in
    BehaviorScanner.className r = BehaviorScanner.className b
    /\ BehaviorScanner.demos r = BehaviorScanner.demos b
    /\ BehaviorScanner.events r = BehaviorScanner.events b
    /\ BehaviorScanner.observers r = BehaviorScanner.observers b
    /\ BehaviorScanner.behaviors r = BehaviorScanner.behaviors b
    /\ BehaviorScanner.properties r
       = foldl (fun ps p => BehaviorScanner.addProperty_list p ps)
               (BehaviorScanner.properties b) ps).
  { induction ps as [|p ps IH]; intros b; [done|]. cbn.
    specialize (IH (BehaviorScanner.addProperty p b)). cbn in IH.
    destruct IH as (?&?&?&?&?&?). repeat split; congruence. }
  destruct (Hfold (BehaviorScanner.properties newBehavior) b3)
    as (F1 & F2 & F3 & F4 & F5 & F6).
  cbn [BehaviorScanner.className BehaviorScanner.demos BehaviorScanner.events
       BehaviorScanner.observers BehaviorScanner.behaviors
       BehaviorScanner.properties BehaviorScanner.with_behaviors
       BehaviorScanner.with_observers].
  rewrite F1, F2, F3, F4, F5, F6. unfold b3. cbn. rewrite H1, H2, H3, H4, H5, H6.
  repeat split.
  apply filter_ext. intros b. unfold Js.includes.
  by destruct (Js.indexOf b _).
Qed.

(** The description of the merged record: the longer of two non-empty
    descriptions (the older on a tie), else whichever is not empty. *)
Lemma mergeInto_description (newBehavior behavior : BehaviorScanner.ScannedBehavior) :
  let merged := BehaviorScanner.mergeInto newBehavior behavior in
  let old := BehaviorScanner.description behavior in
  let new := BehaviorScanner.description newBehavior in
  (Js.truthy new = false -> BehaviorScanner.description merged = old)
  /\ (Js.truthy new = true -> Js.truthy old = false ->
      BehaviorScanner.description merged = new)
  /\ (Js.truthy new = true -> Js.truthy old = true ->
      BehaviorScanner.description merged
      = if (Js.length (default "" old) <? Js.length (default "" new))%nat
        then new else old).
Proof.
  cbn zeta.
  assert (Hfold : forall ps b,
    BehaviorScanner.description
      (foldl (fun b p => BehaviorScanner.addProperty p b) b ps)
    = BehaviorScanner.description b).
  { induction ps as [|p ps IH]; intros b; [done|]. cbn. by rewrite IH. }
  unfold BehaviorScanner.mergeInto.
  cbn [BehaviorScanner.description BehaviorScanner.with_behaviors
       BehaviorScanner.with_observers].
  rewrite Hfold. cbn [BehaviorScanner.description BehaviorScanner.with_events
                      BehaviorScanner.with_demos].
  repeat split.
  - by intros ->.
  - by intros -> ->.
  - intros -> ->. by destruct (_ <? _)%nat.
Qed.

(** *** [dedupe] on ordinary names *)
Section Dedupe.
Context {T : Type} (key : T -> string).

Let entry (el : T) : string * T := (key el, el).

Let step (bucket : JsObject.t T) (el : T) : JsObject.t T :=
  if JsObject.has_in (key el) bucket then bucket
  else JsObject.set (key el) el bucket.

Lemma set_fresh (k : string) (v : T) (o : JsObject.t T) :
  k ∉ o.*1 -> JsObject.set k v o = o ++ [(k, v)].
Proof.
  induction o as [|[k' v'] o IH]; cbn; [done|].
  intros Hk. rewrite bool_decide_eq_false_2.
  - rewrite IH; [done|]. intros ?. apply Hk. by right.
  - intros ->. apply Hk. by left.
Qed.

Lemma bucket_firsts (array : list T) (bucket : JsObject.t T) :
  Forall (fun el => ordinaryName (key el)) array ->
  foldl step bucket array
  = bucket ++ map entry (firstOfEachKey key bucket.*1 array).
Proof.
  intros Hord. revert bucket.
  induction Hord as [|el array [Hinh _] _ IH]; intros bucket; cbn.
  - by rewrite app_nil_r.
  - unfold step at 2. unfold JsObject.has_in, JsObject.hasOwn.
    rewrite (bool_decide_eq_false_2 (key el ∈ JsObject.inherited)) by done.
    cbn [orb]. case_bool_decide as Hseen.
    + apply IH.
    + rewrite set_fresh by done. rewrite IH.
      rewrite fmap_app. cbn. by rewrite <- app_assoc.
Qed.

Lemma firsts_fresh (array : list T) (seen : list string) :
  NoDup seen -> NoDup (seen ++ map key (firstOfEachKey key seen array)).
Proof.
  revert seen. induction array as [|el array IH]; intros seen Hnd; cbn.
  - by rewrite app_nil_r.
  - case_bool_decide as Hseen; [by apply IH|].
    cbn. rewrite cons_middle, (assoc_L (++)). apply IH.
    apply NoDup_app. split; [done|]. split; [|apply NoDup_singleton].
    intros k Hk ->%list_elem_of_singleton. done.
Qed.

Lemma firsts_ordinary (array : list T) (seen : list string) :
  Forall (fun el => ordinaryName (key el)) array ->
  Forall (fun el => ordinaryName (key el)) (firstOfEachKey key seen array).
Proof.
  intros H. revert seen. induction H as [|el array Hel _ IH]; intros seen; cbn;
    [constructor|].
  case_bool_decide; [apply IH|]. constructor; [done|apply IH].
Qed.

Lemma keys_ordinary (l : list T) :
  Forall (fun el => ordinaryName (key el)) l ->
  JsObject.keys (map entry l) = map key l.
Proof.
  intros H. unfold JsObject.keys.
  assert (JsObject.indexKeys (map entry l) = []
          /\ JsObject.nameKeys (map entry l) = map key l) as [-> ->]; [|done].
  unfold JsObject.indexKeys, JsObject.nameKeys.
  induction H as [|el l [_ Hidx] _ [IH1 IH2]]; [done|].
  cbn. rewrite Hidx. split; [exact IH1|]. f_equal. exact IH2.
Qed.

Lemma get_skip (k : string) (pre l : JsObject.t T) :
  k ∉ pre.*1 -> JsObject.get k (pre ++ l) = JsObject.get k l.
Proof.
  induction pre as [|[k' v'] pre IH]; cbn; [done|]. intros Hk.
  rewrite bool_decide_eq_false_2.
  - apply IH. intros ?. apply Hk. by right.
  - intros ->. apply Hk. by left.
Qed.

Lemma get_all (pre l : list T) :
  NoDup (map key (pre ++ l)) ->
  omap (fun k => JsObject.get k (map entry (pre ++ l))) (map key l) = l.
Proof.
  revert pre. induction l as [|el l IH]; intros pre Hnd; [done|].
  assert (Hhead : JsObject.get (key el) (map entry (pre ++ el :: l)) = Some el).
  { rewrite map_app, get_skip.
    - cbn. by rewrite bool_decide_eq_true_2.
    - rewrite map_app in Hnd. apply NoDup_app in Hnd as (_ & Hdis & _).
      intros Hin. rewrite <- list_fmap_compose in Hin.
      apply (Hdis (key el)); [exact Hin|by left]. }
  change (map key (el :: l)) with (key el :: map key l).
  change (omap ?f (key el :: map key l))
    with (match f (key el) with
          | Some y => y :: omap f (map key l)
          | None => omap f (map key l)
          end).
  cbv beta. rewrite Hhead. f_equal.
  specialize (IH (pre ++ [el])). rewrite <- app_assoc in IH. apply IH, Hnd.
Qed.

(** When no key is inherited from [Object.prototype] or an array index,
    [dedupe] keeps the first element of each key, in the order of the
    array. *)
Lemma dedupe_ordinary (array : list T) :
  Forall (fun el => ordinaryName (key el)) array ->
  BehaviorScanner.dedupe array key = firstOfEachKey key [] array.
Proof.
  intros Hord. unfold BehaviorScanner.dedupe.
  change (foldl _ JsObject.empty array) with (foldl step [] array).
  rewrite (bucket_firsts array [] Hord). cbn [app fmap list_fmap].
  rewrite keys_ordinary by (by apply firsts_ordinary).
  apply (get_all []). cbn [app].
  apply (firsts_fresh array []). constructor.
Qed.

End Dedupe.

(** For ordinary event names the events of the merged record are the first
    event of each name, those of the older record first. *)
Lemma mergeInto_events_ordinary
    (newBehavior behavior : BehaviorScanner.ScannedBehavior) :
  Forall (fun e => ordinaryName (BehaviorScanner.ev_name e))
         (BehaviorScanner.events behavior ++ BehaviorScanner.events newBehavior) ->
  BehaviorScanner.events (BehaviorScanner.mergeInto newBehavior behavior)
  = firstOfEachKey BehaviorScanner.ev_name []
      (BehaviorScanner.events behavior ++ BehaviorScanner.events newBehavior).
Proof.
  intros H. destruct (mergeInto_members newBehavior behavior) as (_ & _ & -> & _).
  by apply dedupe_ordinary.
Qed.

Example dedupe_keeps_first :
  BehaviorScanner.dedupe
    [BehaviorScanner.mkEvent "select" "first"; BehaviorScanner.mkEvent "change" "";
     BehaviorScanner.mkEvent "select" "second"]
    BehaviorScanner.ev_name
  = [BehaviorScanner.mkEvent "select" "first"; BehaviorScanner.mkEvent "change" ""].
Proof. reflexivity. Qed.

(** [Object.keys] lists array indices first: events named by numbers move
    to the front. *)
Example dedupe_reorders_indices :
  BehaviorScanner.dedupe
    [BehaviorScanner.mkEvent "select" ""; BehaviorScanner.mkEvent "10" "";
     BehaviorScanner.mkEvent "2" ""]
    BehaviorScanner.ev_name
  = [BehaviorScanner.mkEvent "2" ""; BehaviorScanner.mkEvent "10" "";
     BehaviorScanner.mkEvent "select" ""].
Proof. reflexivity. Qed.

(** *** One record for each class name *)
Section UniqueNames.
Import BehaviorScanner.
Variable env : Env.
Hypothesis Hhandlers : handlersKeepName env.

Lemma nameAt_mutate_keep r f v r' :
  (forall b, className (f b) = className b) ->
  nameAt (mutate r f v) r' = nameAt v r'.
Proof.
  intros Hf. unfold nameAt, deref, mutate. cbn [store].
  destruct (decide (r = r')) as [->|Hne].
  - rewrite list_lookup_alter_eq. destruct (store v !! r'); cbn; [|done].
    by rewrite Hf.
  - by rewrite list_lookup_alter_ne.
Qed.

Lemma nameAt_mutate_ne r f v r' :
  r <> r' -> nameAt (mutate r f v) r' = nameAt v r'.
Proof. intros H. unfold nameAt. by rewrite deref_mutate_ne. Qed.

Lemma sameName_None nb st fd :
  sameName nb st fd = None ->
  forall r b, r ∈ fd -> st !! r = Some b -> className nb <> className b.
Proof.
  induction fd as [|r' fd IH]; cbn; intros H r b Hr Hb.
  - by apply elem_of_nil in Hr.
  - apply elem_of_cons in Hr as [->|Hr].
    + rewrite Hb in H. by case_bool_decide.
    + destruct (st !! r'); [case_bool_decide; [done|]|]; by eapply IH.
Qed.

Lemma mergeInto_className nb b : className (mergeInto nb b) = className b.
Proof. by destruct (mergeInto_members nb b) as [-> _]. Qed.

Lemma sameFound_refl v : sameFound v v.
Proof. by repeat split. Qed.

Lemma sameFound_trans v1 v2 v3 :
  sameFound v1 v2 -> sameFound v2 v3 -> sameFound v1 v3.
Proof.
  intros (F1 & L1 & N1) (F2 & L2 & N2). split; [congruence|]. split; [lia|].
  intros r Hr. rewrite N2 by (by rewrite F1). by apply N1.
Qed.

Lemma sameFound_mutate_keep r f v :
  (forall b, className (f b) = className b) -> sameFound v (mutate r f v).
Proof.
  intros Hf. split; [done|]. split.
  - unfold mutate. cbn [store]. by rewrite length_alter.
  - intros r' _. by apply nameAt_mutate_keep.
Qed.

Lemma sameFound_mutate_new r f v :
  r ∉ found v -> sameFound v (mutate r f v).
Proof.
  intros Hr. split; [done|]. split.
  - unfold mutate. cbn [store]. by rewrite length_alter.
  - intros r' Hr'. apply nameAt_mutate_ne. by intros ->.
Qed.

Lemma sameFound_promoted node v : wf v -> sameFound v (promoted env node v).
Proof.
  intros [Hf _]. split; [done|]. split.
  - unfold promoted. cbn [store]. rewrite length_app. lia.
  - intros r Hr. unfold nameAt, deref, promoted. cbn [store].
    rewrite lookup_app_l; [done|]. rewrite Forall_forall in Hf. by apply Hf.
Qed.

Lemma sameFound_parseChained node v : sameFound v (_parseChainedBehaviors env node v).
Proof.
  unfold _parseChainedBehaviors.
  destruct (behaviorExpression node) as [[]|]; try apply sameFound_refl.
  destruct (currentBehavior v); try apply sameFound_refl.
  destruct (0 <? _)%nat; [|apply sameFound_refl].
  by apply sameFound_mutate_keep.
Qed.

Lemma sameFound_unique v v' : sameFound v v' -> foundUnique v -> foundUnique v'.
Proof.
  intros (F & L & N) (Hv & Hnd & Hu). split; [|split].
  - rewrite F. eapply Forall_impl; [exact Hv|]. cbn. intros. lia.
  - by rewrite F.
  - rewrite F. intros r1 r2 H1 H2. rewrite !N by done. by apply Hu.
Qed.

Lemma finish_unique v : uniqueNames v -> uniqueNames (_finishBehavior v).
Proof.
  intros (Hwf & Hnd & Hu & Hc).
  split; [by apply wf_finish|].
  unfold _finishBehavior, console_assert.
  destruct v as [st fd [c|] h fa]; cbn in *.
  - unfold Set_add. case_bool_decide as Hin; cbn.
    + split; [done|]. split; [exact Hu|done].
    + split.
      { apply NoDup_app. split; [done|]. split; [|apply NoDup_singleton].
        intros r Hr ->%list_elem_of_singleton. done. }
      split; [|done].
      intros r1 r2 H1 H2 Hn.
      apply elem_of_app in H1 as [H1|H1]; apply elem_of_app in H2 as [H2|H2].
      * by apply Hu.
      * apply list_elem_of_singleton in H2. rewrite H2 in Hn |- *.
        exfalso. exact (Hc c eq_refl Hin r1 H1 Hn).
      * apply list_elem_of_singleton in H1. rewrite H1 in Hn |- *.
        exfalso. exact (Hc c eq_refl Hin r2 H2 (eq_sym Hn)).
      * apply list_elem_of_singleton in H1, H2. congruence.
  - split; [done|]. split; [exact Hu|done].
Qed.

Lemma initBehavior_unique node symbol v v' :
  uniqueNames v -> _initBehavior env node symbol v = inr v' -> uniqueNames v'.
Proof.
  intros (Hwf & Hnd & Hu & Hc) Hinit.
  pose proof (initBehavior_wf env node symbol v v' Hwf Hinit) as Hwf'.
  destruct (mentionsTag env node || isSentinel symbol)%bool eqn:Hp.
  2:{ rewrite initBehavior_ignored in Hinit by done. by injection Hinit as <-. }
  rewrite initBehavior_promoted in Hinit by done. cbn zeta in Hinit.
  assert (Hfu : foundUnique v) by (split; [apply Hwf|done]).
  assert (Hnew : length (store v) ∉ found v).
  { intros Hin. destruct Hwf as [Hf _]. rewrite Forall_forall in Hf.
    specialize (Hf _ Hin). lia. }
  pose proof (sameFound_promoted node v Hwf) as S1.
  destruct (negb _ && negb _)%bool.
  { injection Hinit as <-.
    destruct (sameFound_unique _ _ S1 Hfu) as (_ & ? & ?).
    split; [done|]. split; [done|]. split; [done|]. done. }
  destruct (negb (Js.truthy _)); [done|].
  set (name := Js.or_else _ symbol) in *.
  set (v2 := mutate (length (store v)) (with_className name) (promoted env node v)) in *.
  set (v3 := _parseChainedBehaviors env node v2) in *.
  assert (S3 : sameFound v v3).
  { eapply sameFound_trans; [exact S1|].
    eapply sameFound_trans; [|apply sameFound_parseChained].
    by apply sameFound_mutate_new. }
  assert (Hmerge : uniqueNames
            (set_handlers (Some (mergeBehavior (length (store v)) v3).1)
               (set_current (Some (mergeBehavior (length (store v)) v3).1)
                            (mergeBehavior (length (store v)) v3).2))).
  { assert (Hwf3 : wf v3) by (apply wf_parseChained, wf_mutate, wf_promoted, Hwf).
    assert (Hcur3 : (length (store v) < length (store v3))%nat).
    { destruct Hwf3 as [_ Hc3]. apply Hc3. unfold v3.
      by rewrite current_parseChained. }
    split; [by apply wf_merge|].
    pose proof (sameFound_unique _ _ S3 Hfu) as Hfu3.
    destruct S3 as (F3 & L3 & N3).
    unfold mergeBehavior.
    destruct (deref (length (store v)) v3) as [nb|] eqn:Hnb.
    2:{ unfold deref in Hnb. apply lookup_ge_None in Hnb. lia. }
    destruct (sameName nb (store v3) (found v3)) as [r|] eqn:Hs; cbn [fst snd].
    - destruct (sameName_Some _ _ _ _ Hs) as [Hin _].
      pose proof (sameFound_unique _ _
                    (sameFound_mutate_keep r (mergeInto nb) v3
                       (mergeInto_className nb)) Hfu3) as (_ & Hnd' & Hu').
      split; [exact Hnd'|]. split; [exact Hu'|].
      intros c [= <-] Hc'. done.
    - destruct Hfu3 as (_ & Hnd3 & Hu3).
      split; [exact Hnd3|]. split; [exact Hu3|].
      intros c [= <-] _ r Hr Heq.
      change (nameAt v3 r = nameAt v3 (length (store v))) in Heq.
      unfold nameAt in Heq. rewrite Hnb in Heq.
      destruct (deref r v3) as [b|] eqn:Hb; [|done].
      cbn in Heq. injection Heq as Heq.
      exact (sameName_None _ _ _ Hs r b Hr Hb (eq_sym Heq)). }
  destruct (isSimpleBehaviorArray _); injection Hinit as <-;
    [by apply finish_unique|done].
Qed.

Lemma objectProperties_unique props v v' :
  uniqueNames v -> objectProperties env props v = inr v' -> uniqueNames v'.
Proof.
  revert v. induction props as [|prop props IH]; intros v Hv; cbn.
  - by intros [= <-].
  - destruct (negb (Js.truthy _)); [done|]. apply IH.
    assert (Hkeep : forall r f, (forall b, className (f b) = className b) ->
                                uniqueNames (mutate r f v)).
    { intros r f Hf. destruct Hv as (Hwf & Hnd & Hu & Hc).
      split; [by apply wf_mutate|]. split; [done|]. split.
      - intros r1 r2 H1 H2. rewrite !nameAt_mutate_keep by done. by apply Hu.
      - intros c Hcur Hnot r' Hr'. rewrite !nameAt_mutate_keep by done.
        by apply (Hc c). }
    destruct (declarationPropertyHandlers env _) as [handler|] eqn:Hh.
    + destruct (propertyHandlers v); [|done].
      apply Hkeep. intros b. by eapply Hhandlers.
    + destruct (currentBehavior v); [|done]. by apply Hkeep.
Qed.

Lemma visit_unique es v v' :
  uniqueNames v -> visit env es v = inr v' -> uniqueNames v'.
Proof.
  revert v. induction es as [|e es IH]; intros v Hv; cbn.
  - by intros [= <-].
  - destruct (visit1 env e v) as [|v1] eqn:He; [done|]. apply IH.
    destruct e as [node|node parent|node]; cbn in He.
    + unfold enterVariableDeclaration in He.
      destruct node as [[|d [|]] ?| |]; try (by injection He as <-).
      by eapply initBehavior_unique.
    + unfold enterAssignmentExpression in He.
      destruct node; try (by injection He as <-).
      by eapply initBehavior_unique.
    + unfold enterObjectExpression in He.
      destruct node as [| |props| | |]; try (by injection He as <-).
      destruct (currentBehavior v); try (by injection He as <-).
      destruct (objectProperties env props v) as [|v2] eqn:Ho; [done|].
      injection He as <-. apply finish_unique. by eapply objectProperties_unique.
Qed.

(** However many declarations of a script share a class name, the scan
    yields at most one record of that name. *)
Lemma scan_one_record_per_name es bs :
  scan env es = inr bs -> NoDup (className <$> bs).
Proof.
  unfold scan. destruct (visit env es create) as [|v] eqn:Hv; [done|].
  intros [= <-].
  assert (Hu : uniqueNames create).
  { split; [apply wf_create|]. split; [constructor|].
    split; [intros r1 r2 H; by apply elem_of_nil in H|done]. }
  destruct (visit_unique es create v Hu Hv) as ([Hf _] & Hnd & Huniq & _).
  clear Hu Hv. revert Hf Hnd Huniq. generalize (found v) as fd.
  induction fd as [|r fd IH]; intros Hf Hnd Huniq; cbn; [constructor|].
  apply Forall_cons in Hf as [Hr Hf]. apply NoDup_cons in Hnd as [Hnot Hnd].
  destruct (deref r v) as [b|] eqn:Hb.
  2:{ unfold deref in Hb. apply lookup_ge_None in Hb. lia. }
  cbn. apply NoDup_cons. split.
  - intros Hin. apply list_elem_of_fmap in Hin as (b' & Hname & Hin).
    apply list_elem_of_omap in Hin as (r' & Hr' & Hb').
    apply Hnot. rewrite (Huniq r r'); [done|by left|by right|].
    unfold nameAt. rewrite Hb, Hb'. cbn. by rewrite Hname.
  - apply IH; [done|done|].
    intros r1 r2 H1 H2. apply Huniq; by right.
Qed.

End UniqueNames.

(** C6. The merge keeps the first event of each name only for names that
    are not members of [Object.prototype]: [dedupe] asks [key in bucket] of
    an object literal, which holds for those names before anything is
    stored.  In the script [twice] the second declaration of [MyBehavior]
    documents the event [constructor]; the one record found has the
    property of both declarations and the longer description, but no event
    at all. *)
Theorem dedupe_loses_inherited_names :
  BehaviorScanner.dedupe
    [BehaviorScanner.mkEvent "constructor" "fired when built"]
    BehaviorScanner.ev_name = []
  /\ exists b,
       BehaviorScanner.scan BehaviorSamples.twice BehaviorSamples.twiceVisits
       = inr [b]
       /\ BehaviorScanner.className b = Some "MyBehavior"
       /\ BehaviorScanner.properties b = [BehaviorScanner.mkProperty "a" "one"]
       /\ BehaviorScanner.events b = []
       /\ BehaviorScanner.getEventComments BehaviorSamples.twice
            (BehaviorScanner.VariableDeclaration
               [BehaviorScanner.mkDeclarator (BehaviorScanner.Identifier "second")
                                             (Some BehaviorSamples.object_a)]
               (BehaviorSamples.at_line 2))
          = [BehaviorScanner.mkEvent "constructor" "fired when built"].
Proof.
  split; [reflexivity|].
  eexists. split; [vm_compute; reflexivity|]. cbn. repeat split.
Qed.

(** ** The analyzer: what the primitive operations leave alone *)
Section AnalyzerFrames.
Import Analyzer.

Lemma settle_frame p s a :
  activations (settle p s a) = activations a
  /\ documents (settle p s a) = documents a
  /\ calls (settle p s a) = calls a
  /\ _parsedDocuments (settle p s a) = _parsedDocuments a
  /\ _scannedDocuments (settle p s a) = _scannedDocuments a
  /\ _telemetryTracker (settle p s a) = _telemetryTracker a.
Proof. unfold settle. by destruct (promises a !! p) as [[]|]. Qed.

Lemma settle_promises p s a :
  promises (settle p s a)
  = match promises a !! p with
    | Some Pending => <[p := Done s]> (promises a)
    | _ => promises a
    end.
Proof. unfold settle. by destruct (promises a !! p) as [[]|]. Qed.

(** A settled promise keeps its value. *)
Lemma settle_once p s a q r :
  promises a !! q = Some (Done r) -> promises (settle p s a) !! q = Some (Done r).
Proof.
  intros H. rewrite settle_promises.
  destruct (promises a !! p) as [[]|] eqn:E; try done.
  destruct (decide (p = q)) as [->|Hne]; [congruence|].
  by rewrite list_lookup_insert_ne.
Qed.

Lemma settle_pending p s a :
  promises a !! p = Some Pending -> promises (settle p s a) !! p = Some (Done s).
Proof.
  intros H. rewrite settle_promises, H.
  apply list_lookup_insert_eq. by eapply lookup_lt_Some.
Qed.

Lemma update_act_lookup act f a x :
  activations a !! act = Some x ->
  activations (update_act act f a) !! act = Some (f x).
Proof.
  intros H. unfold update_act. cbn [activations with_activations].
  by rewrite list_lookup_alter_eq, H.
Qed.

Lemma update_act_frame act f a :
  promises (update_act act f a) = promises a
  /\ documents (update_act act f a) = documents a
  /\ jobs (update_act act f a) = jobs a
  /\ reactions (update_act act f a) = reactions a
  /\ calls (update_act act f a) = calls a.
Proof. done. Qed.

(** The end of [_scanDocument], spelled out. *)
Lemma complete_spec act a x :
  activations a !! act = Some x ->
  activations (complete act a) = activations a
  /\ match promises a !! act_promise x, mapM id (act_slots x) with
     | Some Pending, Some results =>
         documents (complete act a)
         = documents a ++
           [mkScanned (act_document x) (omap id results) (act_features x)
                      (act_locationOffset x) (act_warnings x) false]
         /\ promises (complete act a) !! act_promise x
            = Some (Done (Fulfilled (VScanned (length (documents a)))))
     | _, _ => complete act a = a
     end.
Proof.
  intros H. unfold complete. rewrite H.
  destruct (promises a !! act_promise x) as [[|s]|] eqn:Hp; try done.
  destruct (mapM id (act_slots x)) as [results|]; [|done].
  split.
  - by destruct (settle_frame (act_promise x)
                   (Fulfilled (VScanned (length (documents a))))
                   (with_documents
                      (documents a ++
                       [mkScanned (act_document x) (omap id results)
                          (act_features x) (act_locationOffset x)
                          (act_warnings x) false]) a)) as (-> & _).
  - split.
    + by destruct (settle_frame (act_promise x)
                     (Fulfilled (VScanned (length (documents a))))
                     (with_documents
                        (documents a ++
                         [mkScanned (act_document x) (omap id results)
                            (act_features x) (act_locationOffset x)
                            (act_warnings x) false]) a)) as (_ & -> & _).
    + by apply settle_pending.
Qed.


End AnalyzerFrames.

Import AnalyzerNotions.



(** All three imports of a.html in [broken]: one warning, one dependency. *)
Example broken_imports :
  let '(root, a) := Analyzer.analyzeRoot MoreSamples.broken "a.html" None
                                         Analyzer.create in
  let a := Analyzer.run MoreSamples.broken 30 a in
  Analyzer.jobs a = []
  /\ Analyzer.promises a !! root
     = Some (Analyzer.Done (Analyzer.Fulfilled (Analyzer.VDocument 1)))
  /\ (Analyzer.dependencies <$> Analyzer.documents a !! 1%nat) = Some [0%nat]
  /\ (Analyzer.url <$> (Analyzer.document <$> Analyzer.documents a !! 0%nat))
     = Some "b.html"
  /\ (Analyzer.warnings <$> Analyzer.documents a !! 1%nat)
     = Some [Analyzer.couldNotLoad (Error "Can't load URL: missing.html" "")
               (Analyzer.mkImport "html-import" "missing.html"
                  (Samples.range0 "a.html") (Samples.range0 "a.html") None)].
Proof. vm_compute. repeat split. Qed.



(** The two inline scripts of c.html in [inlined], and the script of d.html
    in [fatal], whose exception carries no warning. *)
Example inline_failures :
  (let '(root, a) := Analyzer.analyzeRoot InlineSamples.inlined "c.html" None
                                          Analyzer.create in
   let a := Analyzer.run InlineSamples.inlined 30 a in
   Analyzer.jobs a = []
   /\ Analyzer.promises a !! root
      = Some (Analyzer.Done (Analyzer.Fulfilled (Analyzer.VDocument 1)))
   /\ (Analyzer.dependencies <$> Analyzer.documents a !! 1%nat) = Some [0%nat]
   /\ (Analyzer.isInline <$> Analyzer.documents a !! 0%nat) = Some true
   /\ (length <$> (Analyzer.warnings <$> Analyzer.documents a !! 1%nat))
      = Some 1%nat)
  /\
  (let '(root, a) := Analyzer.analyzeRoot InlineSamples.fatal "d.html" None
                                          Analyzer.create in
   let a := Analyzer.run InlineSamples.fatal 30 a in
   Analyzer.jobs a = []
   /\ Analyzer.documents a = []
   /\ exists text,
        Analyzer.promises a !! root
        = Some (Analyzer.Done (Analyzer.Rejected (Error text "")))).
Proof. vm_compute. repeat split. eexists. reflexivity. Qed.
(** ** The caches *)
Section AnalyzerCaches.
Import Analyzer.

Lemma await_frame p k a :
  _parsedDocuments (await p k a) = _parsedDocuments a
  /\ _scannedDocuments (await p k a) = _scannedDocuments a
  /\ promises (await p k a) = promises a
  /\ calls (await p k a) = calls a
  /\ activations (await p k a) = activations a
  /\ documents (await p k a) = documents a.
Proof. unfold await. by destruct (promises a !! p) as [[]|]. Qed.

Lemma await_pending p k a :
  promises a !! p = Some Pending ->
  await p k a = with_reactions (reactions a ++ [(p, k)]) a.
Proof. unfold await. by intros ->. Qed.

Lemma await_settled p k a s :
  promises a !! p = Some (Done s) ->
  await p k a = enqueue (JResume k s) a.
Proof. unfold await. by intros ->. Qed.

(** A cached URL is served from the cache: the call gets a promise of its
    own, which follows the cached promise, and nothing else happens. *)
Lemma scanResolved_hit resolvedUrl contents a p :
  _scannedDocuments a !! resolvedUrl = Some p ->
  _scanResolved resolvedUrl contents a
  = (length (promises a), return_ p (length (promises a)) (newPromise a).2).
Proof. unfold _scanResolved. cbn. by intros ->. Qed.

(** A URL that is not cached gets a new pending promise, stored in the
    cache at once, with its function queued and not yet run; the promise
    of the call follows it. *)
Lemma scanResolved_miss resolvedUrl contents a :
  _scannedDocuments a !! resolvedUrl = None ->
  _scanResolved resolvedUrl contents a
  = (length (promises a),
     mkAnalyzer (_parsedDocuments a)
                (<[resolvedUrl := S (length (promises a))]> (_scannedDocuments a))
                (_telemetryTracker a) (promises a ++ [Pending; Pending])
                (reactions a ++ [(S (length (promises a)),
                                  KReturn (length (promises a)))])
                (jobs a ++ [JScanResolved resolvedUrl contents
                                          (S (length (promises a)))])
                (activations a) (documents a) (calls a)).
Proof.
  unfold _scanResolved. cbn. intros ->. f_equal.
  unfold return_, await. cbn.
  rewrite length_app, Nat.add_1_r.
  rewrite lookup_app_r by (rewrite length_app; cbn; lia).
  rewrite length_app. cbn. rewrite Nat.add_1_r, Nat.sub_diag. cbn.
  by rewrite <- app_assoc.
Qed.

Lemma loadResolved_hit env resolvedUrl providedContents a p :
  _parsedDocuments a !! resolvedUrl = Some p ->
  _loadResolved env resolvedUrl providedContents a
  = (length (promises a), return_ p (length (promises a)) (newPromise a).2).
Proof. unfold _loadResolved. cbn. by intros ->. Qed.

Lemma loadResolved_miss env resolvedUrl providedContents a :
  _parsedDocuments a !! resolvedUrl = None ->
  canLoad (_loader env) resolvedUrl = true ->
  _loadResolved env resolvedUrl providedContents a
  = (length (promises a),
     mkAnalyzer (<[resolvedUrl := S (length (promises a))]> (_parsedDocuments a))
                (_scannedDocuments a)
                (_telemetryTracker a) (promises a ++ [Pending; Pending])
                (reactions a ++ [(S (length (promises a)),
                                  KReturn (length (promises a)))])
                (jobs a ++ [JLoadResolved resolvedUrl providedContents
                                          (S (length (promises a)))])
                (activations a) (documents a) (calls a)).
Proof.
  unfold _loadResolved. cbn. intros -> ->. cbn. f_equal.
  unfold return_, await. cbn.
  rewrite length_app, Nat.add_1_r.
  rewrite lookup_app_r by (rewrite length_app; cbn; lia).
  rewrite length_app. cbn. rewrite Nat.add_1_r, Nat.sub_diag. cbn.
  by rewrite <- app_assoc.
Qed.

(** A URL the loader cannot load: the promise of the call is rejected and
    nothing is cached. *)
Lemma loadResolved_throws env resolvedUrl providedContents a :
  _parsedDocuments a !! resolvedUrl = None ->
  canLoad (_loader env) resolvedUrl = false ->
  _loadResolved env resolvedUrl providedContents a
  = (length (promises a),
     settle (length (promises a))
            (Rejected (Error ("Can't load URL: " +:+ resolvedUrl) ""))
            (newPromise a).2).
Proof. unfold _loadResolved. cbn. by intros -> ->. Qed.

End AnalyzerCaches.

Section Eviction.
Import Analyzer.

Lemma scanResolved_caches u c a :
  _parsedDocuments (_scanResolved u c a).2 = _parsedDocuments a
  /\ (forall v, v <> u ->
        _scannedDocuments (_scanResolved u c a).2 !! v = _scannedDocuments a !! v)
  /\ (forall q, _scannedDocuments a !! u = Some q ->
        _scannedDocuments (_scanResolved u c a).2 = _scannedDocuments a).
Proof.
  destruct (_scannedDocuments a !! u) as [p|] eqn:Hu.
  - rewrite (scanResolved_hit u c a p Hu). cbn [snd].
    destruct (await_frame p (KReturn (length (promises a))) (newPromise a).2)
      as (Hpa & Hs & _).
    unfold return_. rewrite Hpa, Hs. by repeat split.
  - rewrite (scanResolved_miss u c a Hu). cbn [snd _parsedDocuments _scannedDocuments].
    split; [done|]. split; [|done]. intros v Hv. by rewrite lookup_insert_ne.
Qed.

(** [analyzeRoot] leaves the cache entries of every URL other than the
    resolved root URL as they are.  With contents, the entries of the
    resolved root URL in both caches are dropped: its entry in the cache of
    parsed documents is gone and its entry in the cache of scanned
    documents is a new pending promise, whose scan is queued with the new
    contents.  Without contents, no entry of either cache is dropped. *)
Lemma analyzeRoot_evicts_only_its_url
    (env : Env) (url : string) (contents : option string) (a : t) :
  let u := _resolveUrl env url in
  let a' := (analyzeRoot env url contents a).2 in
  (forall v, v <> u ->
     _scannedDocuments a' !! v = _scannedDocuments a !! v
     /\ _parsedDocuments a' !! v = _parsedDocuments a !! v)
  /\ (forall c, contents = Some c ->
        _parsedDocuments a' !! u = None
        /\ _scannedDocuments a' !! u = Some (S (length (promises a)))
        /\ promises a' !! S (length (promises a)) = Some Pending
        /\ pendingScans a'
           = pendingScans a ++ [(u, Some c, S (length (promises a)))])
  /\ (contents = None ->
        _parsedDocuments a' = _parsedDocuments a
        /\ (forall v q, _scannedDocuments a !! v = Some q ->
                        _scannedDocuments a' !! v = Some q)).
Proof.
  intros u a'.
  set (a0 := match contents with
             | Some _ =>
                 with_parsed
                   (delete u (_parsedDocuments
                                (with_scanned (delete u (_scannedDocuments a)) a)))
                   (with_scanned (delete u (_scannedDocuments a)) a)
             | None => a
             end).
  assert (Ha' : a' = await (_scanResolved u contents a0).1
                       (KAnalyzeRoot url
                          (length (promises (_scanResolved u contents a0).2)))
                       (newPromise (_scanResolved u contents a0).2).2).
  { unfold a', analyzeRoot. fold u. fold a0.
    by destruct (_scanResolved u contents a0) as [q a1]. }
  destruct (await_frame (_scanResolved u contents a0).1
              (KAnalyzeRoot url (length (promises (_scanResolved u contents a0).2)))
              (newPromise (_scanResolved u contents a0).2).2)
    as (Hp & Hs & Hpr & _).
  rewrite <- Ha' in Hp, Hs, Hpr.
  assert (Hp2 : _parsedDocuments a' = _parsedDocuments (_scanResolved u contents a0).2)
    by (by rewrite Hp).
  assert (Hs2 : _scannedDocuments a' = _scannedDocuments (_scanResolved u contents a0).2)
    by (by rewrite Hs).
  destruct (scanResolved_caches u contents a0) as (K1 & K2 & K3).
  split; [|split].
  - intros v Hv. rewrite Hp2, Hs2, K1, (K2 v Hv). subst a0.
    destruct contents; cbn; [|done]. by rewrite !lookup_delete_ne.
  - intros c ->.
    assert (Hmiss : _scannedDocuments a0 !! u = None).
    { subst a0. cbn. apply lookup_delete_eq. }
    rewrite Hp2, Hs2, K1.
    split; [subst a0; cbn; apply lookup_delete_eq|].
    rewrite (scanResolved_miss u (Some c) a0 Hmiss) in *. cbn [fst snd] in *.
    assert (Hprom : promises a0 = promises a) by (by subst a0).
    assert (Hjobs : jobs a0 = jobs a) by (by subst a0).
    rewrite Hprom in *. cbn [_scannedDocuments promises] in *.
    split; [apply lookup_insert_eq|]. split.
    + rewrite Hpr. cbn. rewrite lookup_app_l by (rewrite length_app; cbn; lia).
      rewrite lookup_app_r by lia.
      by replace (S (length (promises a)) - length (promises a))%nat
        with 1%nat by lia.
    + rewrite Ha'. rewrite await_pending.
      * unfold pendingScans. cbn. rewrite ?Hjobs. by rewrite omap_app.
      * cbn. rewrite lookup_app_l by (rewrite length_app; cbn; lia).
        rewrite lookup_app_r by lia. by rewrite Nat.sub_diag.
  - intros ->. subst a0. rewrite Hp2, Hs2, K1. split; [done|].
    intros v q Hv. destruct (decide (v = u)) as [->|Hne].
    + by rewrite (K3 q Hv).
    + by rewrite (K2 v Hne).
Qed.

End Eviction.

(** C3.  Two calls of [analyzeRoot] for b.html with fresh contents, ["x"]
    and then ["y"], before any job has run.  The second call does evict
    both entries of b.html and queues a scan of its own with ["y"].  But
    the scan queued by the first call runs first and fills the cache of
    parsed documents again, with the document parsed from ["x"], and
    [_loadResolved] looks into that cache before it looks at the contents
    it was given: the scan of the second call is served the document of
    ["x"].  ["y"] is never parsed, and the Document the second caller gets
    is that of ["x"]. *)
Theorem fresh_contents_lost_to_scan_in_flight :
  let '(first, a1) :=
    Analyzer.analyzeRoot Samples.chain "b.html" (Some "x") Analyzer.create in
  let '(second, a2) := Analyzer.analyzeRoot Samples.chain "b.html" (Some "y") a1 in
  let a3 := Analyzer.run Samples.chain 40 a2 in
  (Analyzer._scannedDocuments a1 !! "b.html" = Some 1%nat
   /\ Analyzer._scannedDocuments a2 !! "b.html" = Some 4%nat
   /\ Analyzer._parsedDocuments a2 !! "b.html" = None
   /\ pendingScans a2 = [("b.html", Some "x", 1%nat); ("b.html", Some "y", 4%nat)])
  /\ Analyzer.jobs a3 = []
  /\ parsedTexts a3 = [("b.html", "x")]
  /\ Analyzer.promises a3 !! second
     = Some (Analyzer.Done (Analyzer.Fulfilled (Analyzer.VDocument 1)))
  /\ (Analyzer.contents ∘ Analyzer.document <$> Analyzer.documents a3 !! 1%nat)
     = Some "x".
Proof. vm_compute. repeat split. Qed.

(** a.html is analyzed, then analyzed again with new contents when
    nothing is in flight: b.html is loaded, parsed and scanned once, a.html
    is loaded once and parsed and scanned twice, the second time from the
    new contents. *)
Example reanalyze_with_contents :
  let '(_, a) := Analyzer.analyzeRoot Samples.chain "a.html" None Analyzer.create in
  let a := Analyzer.run Samples.chain 40 a in
  let '(root, a) :=
    Analyzer.analyzeRoot Samples.chain "a.html"
      (Some "<link rel=import href=b.html><p>") a in
  let a := Analyzer.run Samples.chain 40 a in
  Analyzer.jobs a = []
  /\ Analyzer.promises a !! root
     = Some (Analyzer.Done (Analyzer.Fulfilled (Analyzer.VDocument 2)))
  /\ loadedUrls a = ["a.html"; "b.html"]
  /\ parsedTexts a
     = [("a.html", "<link rel=import href=b.html>"); ("b.html", "");
        ("a.html", "<link rel=import href=b.html><p>")]
  /\ scannedUrls a = ["a.html"; "b.html"; "a.html"]
  /\ (Analyzer.dependencies <$> Analyzer.documents a !! 2%nat) = Some [0%nat].
Proof. vm_compute. repeat split. Qed.

(** ** Runs of the analyzer *)
Section AnalyzerRuns.
Import Analyzer.

Lemma settledStay_refl a : settledStay a a.
Proof. by intros q r. Qed.

Lemma settledStay_same a a' : promises a' = promises a -> settledStay a a'.
Proof. intros H q r. by rewrite H. Qed.

Lemma settledStay_trans a b c : settledStay a b -> settledStay b c -> settledStay a c.
Proof. intros H1 H2 q r H. by apply H2, H1. Qed.

Lemma quiet_refl a : quiet a a.
Proof. repeat split. apply settledStay_refl. Qed.

Lemma quiet_trans a b c : quiet a b -> quiet b c -> quiet a c.
Proof.
  intros (A1 & A2 & A3 & A4) (B1 & B2 & B3 & B4).
  repeat split; try congruence. by eapply settledStay_trans.
Qed.

Lemma quiet_settledStay a a' : quiet a a' -> settledStay a a'.
Proof. by intros (_ & _ & _ & H). Qed.


Lemma settledStay_settle p s a : settledStay a (settle p s a).
Proof. intros q r H. by apply settle_once. Qed.

Lemma settledStay_newPromise a : settledStay a (newPromise a).2.
Proof.
  intros q r H. cbn. rewrite lookup_app_l; [done|]. by eapply lookup_lt_Some.
Qed.

Lemma pendingLoads_resumes (js : list Job) (rs : list (PromiseRef * Cont)) s :
  omap (fun j => match j with JLoadResolved u _ _ => Some u | _ => None end)
       (js ++ map (fun r : PromiseRef * Cont => JResume r.2 s) rs)
  = omap (fun j => match j with JLoadResolved u _ _ => Some u | _ => None end) js.
Proof.
  rewrite omap_app. induction rs as [|r rs IH]; cbn; [by rewrite app_nil_r|].
  exact IH.
Qed.

Lemma quiet_settle p s a : quiet a (settle p s a).
Proof.
  split; [|split; [|split]]; try apply settledStay_settle.
  - by destruct (settle_frame p s a) as (_ & _ & _ & -> & _).
  - unfold loadedUrls. by destruct (settle_frame p s a) as (_ & _ & -> & _).
  - unfold pendingLoads, settle. destruct (promises a !! p) as [[]|]; try done.
    cbn [jobs with_jobs]. apply pendingLoads_resumes.
Qed.

Lemma quiet_enqueue_resume k s a : quiet a (enqueue (JResume k s) a).
Proof.
  repeat split; [|by apply settledStay_same].
  unfold pendingLoads, enqueue. cbn [jobs with_jobs].
  rewrite omap_app. cbn. by rewrite app_nil_r.
Qed.

Lemma quiet_await p k a : quiet a (await p k a).
Proof.
  unfold await. destruct (promises a !! p) as [[|s]|].
  - repeat split. by apply settledStay_same.
  - apply quiet_enqueue_resume.
  - repeat split. by apply settledStay_same.
Qed.

Lemma quiet_newPromise a : quiet a (newPromise a).2.
Proof. repeat split. apply settledStay_newPromise. Qed.

Lemma quiet_update_act act f a : quiet a (update_act act f a).
Proof. repeat split. by apply settledStay_same. Qed.

Lemma quiet_complete act a : quiet a (complete act a).
Proof.
  unfold complete. destruct (activations a !! act) as [x|]; [|apply quiet_refl].
  destruct (promises a !! act_promise x) as [[|]|]; try apply quiet_refl.
  destruct (mapM id (act_slots x)); [|apply quiet_refl].
  eapply quiet_trans; [|apply quiet_settle].
  repeat split. by apply settledStay_same.
Qed.

Lemma quiet_abort act e a : quiet a (abort act e a).
Proof.
  unfold abort. destruct (activations a !! act); [apply quiet_settle|apply quiet_refl].
Qed.

Lemma quiet_parse env type contents url a :
  quiet a (_parse env type contents url a).2.
Proof.
  unfold _parse. destruct (_parsers env !! type) as [parser|]; [|apply quiet_refl].
  assert (quiet a (record (CallParse type contents url) a)).
  { repeat split; [|by apply settledStay_same].
    unfold loadedUrls, record. cbn [calls with_calls].
    rewrite omap_app. cbn. by rewrite app_nil_r. }
  by destruct (parse parser contents url) as [[]|].
Qed.

Lemma quiet_return p own a : quiet a (return_ p own a).
Proof. apply quiet_await. Qed.

Lemma quiet_scanResolved resolvedUrl contents a :
  quiet a (_scanResolved resolvedUrl contents a).2.
Proof.
  destruct (_scannedDocuments a !! resolvedUrl) as [p|] eqn:Hc.
  - rewrite (scanResolved_hit _ _ _ _ Hc). cbn [snd].
    eapply quiet_trans; [apply quiet_newPromise|apply quiet_return].
  - rewrite (scanResolved_miss _ _ _ Hc). cbn [snd]. repeat split.
    + unfold pendingLoads. cbn. rewrite omap_app. cbn. by rewrite app_nil_r.
    + intros q r H. cbn. rewrite lookup_app_l; [done|]. by eapply lookup_lt_Some.
Qed.

Lemma quiet_getScannedFeatures env document a :
  quiet a (_getScannedFeatures env document a).2.
Proof.
  unfold _getScannedFeatures.
  destruct (scanners env !! type document); [|apply quiet_refl].
  repeat split; [|by apply settledStay_same].
  unfold loadedUrls. cbn. rewrite omap_app. cbn. by rewrite app_nil_r.
Qed.

Lemma quiet_scanDocument env document off comment promise a :
  quiet a (_scanDocument env document off comment promise a).
Proof.
  unfold _scanDocument.
  match goal with
  | |- context [_getScannedFeatures env document ?b] =>
      pose proof (quiet_getScannedFeatures env document b) as H;
      destruct (_getScannedFeatures env document b) as [fs b']
  end.
  cbn [snd] in H.
  eapply quiet_trans; [|apply quiet_enqueue_resume].
  eapply quiet_trans; [|exact H].
  repeat split. by apply settledStay_same.
Qed.

Lemma quiet_scanImport env act slot feature imp a :
  quiet a (_scanImport env act slot feature imp a).
Proof.
  unfold _scanImport.
  pose proof (quiet_scanResolved (_resolveUrl env (imp_url imp)) None a) as H.
  destruct (_scanResolved _ None a) as [p a1].
  eapply quiet_trans; [exact H|apply quiet_await].
Qed.

Lemma quiet_scanSource env type contents url off comment a :
  quiet a (_scanSource env type contents url off comment a).2.
Proof.
  unfold _scanSource.
  pose proof (quiet_parse env type contents (_resolveUrl env url) a) as H.
  destruct (_parse env _ _ _ a) as [[e|document] a1]; cbn [snd] in H; [done|].
  cbn [newPromise]. cbn [snd].
  eapply quiet_trans; [exact H|].
  eapply quiet_trans; [apply (quiet_newPromise a1)|apply quiet_scanDocument].
Qed.

Lemma quiet_scanInlineDocument env act slot feature inl doc a :
  quiet a (_scanInlineDocument env act slot feature inl doc a).
Proof.
  unfold _scanInlineDocument.
  pose proof (quiet_scanSource env (inl_type inl) (inl_contents inl) (url doc)
                (Some (mkOffset (off_line (locationOffset inl))
                                (off_col (locationOffset inl)) (Some (url doc))))
                (attachedComment inl) a) as H.
  destruct (_scanSource env _ _ _ _ _ a) as [[e|promise] a1]; cbn [snd] in H.
  - eapply quiet_trans; [exact H|apply quiet_enqueue_resume].
  - eapply quiet_trans; [exact H|apply quiet_await].
Qed.

Lemma quiet_startDependencies env act doc fs deps slot a :
  quiet a (startDependencies env act doc fs deps slot a).
Proof.
  revert slot a. induction deps as [|d deps IH]; intros slot a; cbn;
    [apply quiet_refl|].
  eapply quiet_trans; [|apply IH].
  destruct (fs !! d) as [[imp|inl| |]|]; try apply quiet_refl.
  - apply quiet_scanImport.
  - apply quiet_scanInlineDocument.
Qed.

Lemma quiet_resume_scanDocument env act s a :
  quiet a (resume_scanDocument env act s a).
Proof.
  unfold resume_scanDocument.
  destruct s as [[]|]; destruct (activations a !! act) as [x|];
    try apply quiet_refl; [|apply quiet_abort].
  eapply quiet_trans; [|apply quiet_complete].
  eapply quiet_trans; [|apply quiet_startDependencies].
  apply quiet_update_act.
Qed.

Lemma quiet_resume_scanImport act slot feature s a :
  quiet a (resume_scanImport act slot feature s a).
Proof.
  unfold resume_scanImport. destruct s as [[]|error]; try apply quiet_refl.
  - eapply quiet_trans; [|apply quiet_complete].
    eapply quiet_trans; apply quiet_update_act.
  - destruct (isNoKnownParserError error).
    + eapply quiet_trans; [|apply quiet_complete]. apply quiet_update_act.
    + destruct (activations a !! act) as [x|]; [|apply quiet_refl].
      destruct (act_features x !! feature) as [[]|]; try apply quiet_refl.
      eapply quiet_trans; [|apply quiet_complete].
      eapply quiet_trans; apply quiet_update_act.
Qed.

Lemma quiet_resume_scanInlineDocument env act slot feature off s a :
  quiet a (resume_scanInlineDocument env act slot feature off s a).
Proof.
  unfold resume_scanInlineDocument.
  destruct s as [[|d| | |]|err]; try apply quiet_refl.
  - eapply quiet_trans; [|apply quiet_complete].
    eapply quiet_trans; [|apply quiet_update_act].
    apply (quiet_trans _ (update_act act (link feature d) a));
      [apply quiet_update_act|].
    repeat split. by apply settledStay_same.
  - destruct err; cbn iota; try apply quiet_abort.
    eapply quiet_trans; [|apply quiet_complete].
    eapply quiet_trans; apply quiet_update_act.
Qed.

Lemma quiet_loadResolved_parse env resolvedUrl content promise a :
  quiet a (loadResolved_parse env resolvedUrl content promise a).
Proof.
  unfold loadResolved_parse.
  pose proof (quiet_parse env (Js.substring1 (extname env resolvedUrl)) content
                resolvedUrl (telemetry_start "parse" "resolvedUrl" a)) as H.
  destruct (_parse env _ _ _ _) as [[e|doc] a1]; cbn [snd] in H;
    (eapply quiet_trans; [|apply quiet_settle]);
    (eapply quiet_trans; [|exact H]);
    repeat split; by apply settledStay_same.
Qed.

Lemma quiet_resume env k s a : quiet a (resume env k s a).
Proof.
  destruct k; cbn.
  - destruct s as [[]|]; try apply quiet_refl;
      [apply quiet_loadResolved_parse|apply quiet_settle].
  - destruct s as [[]|]; try apply quiet_refl;
      [apply quiet_scanDocument|apply quiet_settle].
  - apply quiet_resume_scanDocument.
  - apply quiet_resume_scanImport.
  - apply quiet_resume_scanInlineDocument.
  - destruct s as [[]|]; try apply quiet_refl; [|apply quiet_settle].
    eapply quiet_trans; [|apply quiet_settle].
    repeat split. by apply settledStay_same.
  - apply quiet_settle.
Qed.





Lemma loadResolved_settledStay env resolvedUrl providedContents a :
  settledStay a (_loadResolved env resolvedUrl providedContents a).2.
Proof.
  destruct (_parsedDocuments a !! resolvedUrl) as [cached|] eqn:Hc.
  { rewrite (loadResolved_hit env _ _ a cached Hc). cbn [snd].
    apply quiet_settledStay.
    eapply quiet_trans; [apply quiet_newPromise|apply quiet_return]. }
  destruct (canLoad (_loader env) resolvedUrl) eqn:Hcl.
  - rewrite (loadResolved_miss env _ _ a Hc Hcl). cbn [snd].
    intros q r H. cbn. rewrite lookup_app_l; [done|]. by eapply lookup_lt_Some.
  - rewrite (loadResolved_throws env _ _ a Hc Hcl). cbn [snd].
    apply quiet_settledStay.
    eapply quiet_trans; [apply quiet_newPromise|apply quiet_settle].
Qed.



Lemma step_settledStay env i a a' :
  step_at env i a = Some a' -> settledStay a a'.
Proof.
  unfold step_at. destruct (jobs a !! i) as [j|]; [|done]. intros [= <-].
  set (a0 := with_jobs (delete i (jobs a)) a).
  apply (settledStay_trans a a0); [by apply settledStay_same|].
  destruct j as [u c p|u c p|k s]; cbn [run_job].
  - pose proof (loadResolved_settledStay env u c a0) as H1.
    destruct (_loadResolved env u c a0) as [loading a1]; cbn [snd] in H1.
    eapply settledStay_trans; [exact H1|]. apply quiet_settledStay, quiet_await.
  - unfold run_loadResolved. destruct c as [content|].
    + apply quiet_settledStay, quiet_loadResolved_parse.
    + by apply settledStay_same.
  - apply quiet_settledStay, quiet_resume.
Qed.


Lemma run_schedule_settledStay env schedule a a' :
  run_schedule env schedule a = Some a' -> settledStay a a'.
Proof.
  revert a. induction schedule as [|i schedule IH]; intros a; cbn.
  - intros [= <-]. apply settledStay_refl.
  - destruct (step_at env i a) as [a1|] eqn:Hstep; [|done].
    intros H. eapply settledStay_trans; [by eapply step_settledStay|by apply IH].
Qed.

End AnalyzerRuns.
(** ** Promises that follow promises *)
Section Following.
Import Analyzer.

#[local] Abbreviation made a := (length (promises a)).

Lemma ext_refl ts a : ext ts a a.
Proof. split; [done|]. split; [by intros|by intros]. Qed.

Lemma ext_trans ts ts' a b c :
  ext ts a b -> ext ts' b c ->
  (forall t, t ∈ ts' -> t ∈ ts \/ (made a <= t < made b)%nat) ->
  ext ts a c.
Proof.
  intros (L1 & C1 & T1) (L2 & C2 & T2) Hts. split; [lia|]. split.
  - intros Hlt Hc. apply C2; [|by apply C1].
    intros t Ht. destruct (Hts t Ht) as [Hin|?]; [|lia].
    specialize (Hlt t Hin). lia.
  - intros q p Hq Hn Ht. apply T2; [lia| |by apply T1].
    intros Hin. destruct (Hts q Hin) as [?|?]; [done|lia].
Qed.

Lemma ext_weaken ts ts' a b : ext ts a b -> ts ⊆ ts' -> ext ts' a b.
Proof.
  intros (L & C & T) Hsub. split; [done|]. split.
  - intros Hlt. apply C. intros t Ht. by apply Hlt, Hsub.
  - intros q p Hq Hn. apply T; [done|]. intros Hin. by apply Hn, Hsub.
Qed.

(** Steps that aim at nothing compose freely. *)
Lemma ext_then ts a b c : ext ts a b -> ext [] b c -> ext ts a c.
Proof.
  intros H1 H2. eapply ext_trans; [exact H1|exact H2|].
  by intros t Ht%elem_of_nil.
Qed.

Lemma ext_nil ts a b : ext [] a b -> ext ts a b.
Proof. intros H. eapply ext_weaken; [exact H|]. by intros t Ht%elem_of_nil. Qed.

Lemma ext_newPromise a : ext [] a (newPromise a).2.
Proof.
  assert (Hp : promises (newPromise a).2 = promises a ++ [Pending]) by done.
  assert (Hl : made (newPromise a).2 = S (made a)).
  { rewrite Hp, length_app. cbn. lia. }
  split; [lia|]. split.
  - intros _ (C1 & C2 & C3 & C4 & C5 & C6). unfold closed. rewrite Hl.
    split; [|split; [|split; [|split; [|split]]]].
    + intros x Hx. specialize (C1 x Hx). lia.
    + intros r t Hr Ha. specialize (C2 r t Hr Ha). lia.
    + intros j t Hj Ha. specialize (C3 j t Hj Ha). lia.
    + intros u p Hu. specialize (C4 u p Hu). lia.
    + intros u p Hu. specialize (C5 u p Hu). lia.
    + intros r Hr. specialize (C6 r Hr). cbn in *. lia.
  - intros q p Hq _ (T1 & T2 & T3 & T4 & T5). unfold tracks. rewrite Hp.
    split; [exact T1|]. split; [|split; [|split]].
    + intros r Hr Ha. destruct (T2 r Hr Ha) as [-> Hpp]. split; [done|].
      rewrite lookup_app_l; [done|]. by eapply lookup_lt_Some.
    + intros j Hj Ha. destruct (T3 j Hj Ha) as (s & -> & Hpp). exists s.
      split; [done|]. rewrite lookup_app_l; [done|]. by eapply lookup_lt_Some.
    + intros s. rewrite lookup_app_l by done. intros Hs.
      rewrite lookup_app_l; [by apply T4|]. eapply lookup_lt_Some. by apply T4.
    + rewrite lookup_app_l by done. exact T5.
Qed.

Lemma ext_enqueue j a : ext (option_list (jobAim j)) a (enqueue j a).
Proof.
  split; [done|]. split.
  - intros Hlt (C1 & C2 & C3 & C4 & C5 & C6).
    split; [exact C1|]. split; [exact C2|]. split; [|by repeat split].
    intros j' t Hj Ha. cbn in Hj.
    apply elem_of_app in Hj as [Hj|Hj]; [by eapply C3|].
    apply list_elem_of_singleton in Hj as ->.
    apply Hlt. rewrite Ha. cbn. by left.
  - intros q p Hq Hn (T1 & T2 & T3 & T4 & T5).
    split; [exact T1|]. split; [exact T2|]. split; [|split; [exact T4|]].
    + intros j' Hj Ha. cbn in Hj.
      apply elem_of_app in Hj as [Hj|Hj]; [by apply T3|].
      apply list_elem_of_singleton in Hj as ->.
      exfalso. apply Hn. rewrite Ha. cbn. by left.
    + intros Hp. destruct (T5 Hp) as [?|[s Hs]]; [by left|right].
      exists s. cbn. apply elem_of_app. by left.
Qed.

Lemma ext_react p' k a :
  (closed a -> (p' < made a)%nat) ->
  ext (option_list (aim k)) a (with_reactions (reactions a ++ [(p', k)]) a).
Proof.
  intros Hsrc. split; [done|]. split.
  - intros Hlt Hc. specialize (Hsrc Hc).
    destruct Hc as (C1 & C2 & C3 & C4 & C5 & C6).
    split; [exact C1|]. split; [|split; [exact C3|split; [exact C4|split; [exact C5|]]]].
    + intros r t Hr Ha. cbn in Hr.
      apply elem_of_app in Hr as [Hr|Hr]; [by eapply C2|].
      apply list_elem_of_singleton in Hr as ->.
      apply Hlt. cbn in Ha. rewrite Ha. cbn. by left.
    + intros r Hr. cbn in Hr.
      apply elem_of_app in Hr as [Hr|Hr]; [by apply C6|].
      by apply list_elem_of_singleton in Hr as ->.
  - intros q p Hq Hn (T1 & T2 & T3 & T4 & T5).
    split; [exact T1|]. split; [|split; [exact T3|split; [exact T4|]]].
    + intros r Hr Ha. cbn in Hr.
      apply elem_of_app in Hr as [Hr|Hr]; [by apply T2|].
      apply list_elem_of_singleton in Hr as ->.
      exfalso. apply Hn. cbn in Ha. rewrite Ha. cbn. by left.
    + intros Hp. destruct (T5 Hp) as [?|?]; [left|by right].
      cbn. apply elem_of_app. by left.
Qed.

Lemma ext_await p' k a :
  (closed a -> (p' < made a)%nat) ->
  ext (option_list (aim k)) a (await p' k a).
Proof.
  intros Hsrc. unfold await. destruct (promises a !! p') as [[|s]|].
  - by apply ext_react.
  - apply (ext_enqueue (JResume k s)).
  - by apply ext_react.
Qed.

(** What [settle] does to a pending promise. *)
Lemma settle_reactions t s a r :
  promises a !! t = Some Pending ->
  r ∈ reactions (settle t s a) <-> r ∈ reactions a /\ r.1 <> t.
Proof.
  intros Ht. unfold settle. rewrite Ht. cbn [reactions with_jobs with_reactions].
  rewrite !list_elem_of_In, filter_In. unfold waitingOn.
  case_bool_decide; cbn; split; intros [? ?]; split; congruence.
Qed.

Lemma settle_jobs t s a j :
  promises a !! t = Some Pending ->
  j ∈ jobs (settle t s a)
  <-> j ∈ jobs a \/ exists r, r ∈ reactions a /\ r.1 = t /\ j = JResume r.2 s.
Proof.
  intros Ht. unfold settle. rewrite Ht. cbn [jobs with_jobs].
  rewrite elem_of_app. rewrite (list_elem_of_In (map _ _) j), in_map_iff.
  split; intros [?|(r & Hr1 & Hr2)]; [by left| |by left|].
  - right. exists r. apply filter_In in Hr2 as [Hr2 Hw].
    unfold waitingOn in Hw. apply bool_decide_eq_true_1 in Hw.
    by rewrite list_elem_of_In.
  - right. destruct Hr2 as [Hr2 ->]. exists r. split; [done|].
    apply filter_In. rewrite <- list_elem_of_In. split; [done|].
    unfold waitingOn. by apply bool_decide_eq_true_2.
Qed.

Lemma ext_settle t s a : ext [t] a (settle t s a).
Proof.
  destruct (promises a !! t) as [[|s0]|] eqn:Ht;
    [|unfold settle; rewrite Ht; apply ext_refl..].
  assert (Hlen : (t < made a)%nat) by (by eapply lookup_lt_Some).
  assert (Hpr : promises (settle t s a) = <[t := Done s]> (promises a))
    by (by rewrite settle_promises, Ht).
  destruct (settle_frame t s a) as (Hact & _ & _ & Hpa & Hsc & _).
  split; [rewrite Hpr, length_insert; lia|]. split.
  - intros _ (C1 & C2 & C3 & C4 & C5 & C6). unfold closed.
    rewrite Hact, Hpa, Hsc, Hpr, length_insert.
    split; [exact C1|]. split; [|split; [|split; [exact C4|split; [exact C5|]]]].
    + intros r u [Hr _]%(settle_reactions t s a r Ht). by apply C2.
    + intros j u [Hj|(r & Hr & _ & ->)]%(settle_jobs t s a j Ht) Ha;
        [by eapply C3|]. by eapply C2.
    + intros r [Hr _]%(settle_reactions t s a r Ht). by apply C6.
  - intros q p Hq Hn (T1 & T2 & T3 & T4 & T5).
    assert (Hqt : q <> t) by (intros ->; apply Hn; by left).
    unfold tracks. rewrite Hact, Hpr.
    split; [exact T1|]. split; [|split; [|split]].
    + intros r [Hr Hrt]%(settle_reactions t s a r Ht) Ha.
      destruct (T2 r Hr Ha) as [-> Hp]. split; [done|].
      rewrite list_lookup_insert_ne; [done|]. by intros ->.
    + intros j [Hj|(r & Hr & Hrt & ->)]%(settle_jobs t s a j Ht) Ha.
      * destruct (T3 j Hj Ha) as (s1 & -> & Hp). exists s1. split; [done|].
        rewrite list_lookup_insert_ne; [done|]. intros ->. congruence.
      * destruct (T2 r Hr Ha) as [-> Hp]. cbn in Hrt. subst t. exists s.
        split; [done|]. by apply list_lookup_insert_eq.
    + intros s1. rewrite list_lookup_insert_ne by done. intros Hs1.
      specialize (T4 s1 Hs1).
      rewrite list_lookup_insert_ne; [done|]. intros ->. congruence.
    + rewrite list_lookup_insert_ne by done. intros Hp.
      destruct (T5 Hp) as [Hr|[s1 Hj]].
      * destruct (decide (p = t)) as [->|Hne].
        -- right. exists s. apply (settle_jobs t s a _ Ht). right.
           by exists (t, KReturn q).
        -- left. by apply (settle_reactions t s a _ Ht).
      * right. exists s1. apply (settle_jobs t s a _ Ht). by left.
Qed.

(** Work that touches neither promises nor reactions nor jobs. *)
Lemma ext_same a a' :
  promises a' = promises a -> reactions a' = reactions a -> jobs a' = jobs a ->
  (forall x', x' ∈ activations a' ->
              exists x, x ∈ activations a /\ act_promise x = act_promise x') ->
  (forall u p, _scannedDocuments a' !! u = Some p ->
               _scannedDocuments a !! u = Some p) ->
  (forall u p, _parsedDocuments a' !! u = Some p ->
               _parsedDocuments a !! u = Some p) ->
  ext [] a a'.
Proof.
  intros Hp Hr Hj Hx Hs Hpa. split; [by rewrite Hp|]. split.
  - intros _ (C1 & C2 & C3 & C4 & C5 & C6). unfold closed. rewrite Hp, Hr, Hj.
    split; [|split; [exact C2|split; [exact C3|split; [|split; [|exact C6]]]]].
    + intros x' (x & Hin & <-)%Hx. by apply C1.
    + intros u p' Hu. by eapply C4, Hs.
    + intros u p' Hu. by eapply C5, Hpa.
  - intros q p Hq _ (T1 & T2 & T3 & T4 & T5). unfold tracks.
    rewrite Hp, Hr, Hj. split; [|done].
    intros x' (x & Hin & <-)%Hx. by apply T1.
Qed.

Lemma ext_still a a' :
  promises a' = promises a -> reactions a' = reactions a -> jobs a' = jobs a ->
  activations a' = activations a ->
  _scannedDocuments a' = _scannedDocuments a ->
  _parsedDocuments a' = _parsedDocuments a ->
  ext [] a a'.
Proof.
  intros Hp Hr Hj Hx Hs Hpa. apply ext_same; try done.
  - rewrite Hx. intros x' Hx'. by exists x'.
  - by rewrite Hs.
  - by rewrite Hpa.
Qed.

Lemma ext_update_act act f a :
  (forall x, act_promise (f x) = act_promise x) ->
  ext [] a (update_act act f a).
Proof.
  intros Hf. apply ext_same; try done.
  intros x' Hx'. unfold update_act in Hx'. cbn in Hx'.
  apply list_elem_of_lookup in Hx' as [i Hi].
  destruct (decide (i = act)) as [->|Hne].
  - rewrite list_lookup_alter_eq in Hi.
    destruct (activations a !! act) as [x|] eqn:E; [|done].
    injection Hi as <-. exists x. split; [by eapply list_elem_of_lookup_2|].
    by rewrite Hf.
  - rewrite list_lookup_alter_ne in Hi by done. exists x'.
    split; [by eapply list_elem_of_lookup_2|done].
Qed.

Lemma ext_activate x a :
  ext [act_promise x] a (with_activations (activations a ++ [x]) a).
Proof.
  split; [done|]. split.
  - intros Hlt (C1 & C2 & C3 & C4 & C5 & C6). split; [|done].
    intros x' Hx'. cbn in Hx'. apply elem_of_app in Hx' as [Hx'|Hx']; [by apply C1|].
    apply list_elem_of_singleton in Hx' as ->. apply Hlt. by left.
  - intros q p Hq Hn (T1 & T2 & T3 & T4 & T5). split; [|done].
    intros x' Hx'. cbn in Hx'. apply elem_of_app in Hx' as [Hx'|Hx']; [by apply T1|].
    apply list_elem_of_singleton in Hx' as ->. intros Heq. apply Hn.
    rewrite Heq. by left.
Qed.

Lemma ext_cache_scanned u p a :
  ext [p] a (with_scanned (<[u := p]> (_scannedDocuments a)) a).
Proof.
  split; [done|]. split; [|by intros].
  intros Hlt (C1 & C2 & C3 & C4 & C5 & C6).
  split; [exact C1|]. split; [exact C2|]. split; [exact C3|].
  split; [|by split].
  intros v p' Hv. cbn in Hv. destruct (decide (u = v)) as [->|Hne].
  - rewrite lookup_insert_eq in Hv. injection Hv as <-. apply Hlt. by left.
  - rewrite lookup_insert_ne in Hv by done. by eapply C4.
Qed.

Lemma ext_cache_parsed u p a :
  ext [p] a (with_parsed (<[u := p]> (_parsedDocuments a)) a).
Proof.
  split; [done|]. split; [|by intros].
  intros Hlt (C1 & C2 & C3 & C4 & C5 & C6).
  split; [exact C1|]. split; [exact C2|]. split; [exact C3|]. split; [exact C4|].
  split; [|exact C6].
  intros v p' Hv. cbn in Hv. destruct (decide (u = v)) as [->|Hne].
  - rewrite lookup_insert_eq in Hv. injection Hv as <-. apply Hlt. by left.
  - rewrite lookup_insert_ne in Hv by done. by eapply C5.
Qed.

(** The aims of a step lie among the promises made since [a]. *)
Ltac aims :=
  let t := fresh "t" in
  let Ht := fresh "Ht" in
  intros t Ht; cbn in Ht;
  repeat match type of Ht with
         | _ ∈ [] => by apply elem_of_nil in Ht
         | _ ∈ [_] => apply list_elem_of_singleton in Ht; subst t
         end;
  first [ left; by left
        | right; cbn; rewrite ?length_app; cbn; lia ].

(** The promise awaited is one of those made. *)
Ltac made_now := intros _; cbn; rewrite ?length_app; cbn; lia.

Lemma ext_return p own a :
  (closed a -> (p < made a)%nat) -> ext [own] a (return_ p own a).
Proof. apply (ext_await p (KReturn own)). Qed.

Lemma ext_record c a : ext [] a (record c a).
Proof. by apply ext_still. Qed.

Lemma ext_telemetry n d a : ext [] a (telemetry_start n d a).
Proof. by apply ext_still. Qed.

Lemma ext_parse env type contents url a :
  ext [] a (_parse env type contents url a).2.
Proof.
  unfold _parse. destruct (_parsers env !! type) as [parser|]; [|apply ext_refl].
  destruct (parse parser contents url) as [[]|]; apply ext_record.
Qed.

Lemma ext_scanResolved u c a : ext [] a (_scanResolved u c a).2.
Proof.
  unfold _scanResolved. cbv beta iota zeta delta [newPromise].
  cbn [_scannedDocuments with_promises promises snd fst].
  destruct (_scannedDocuments a !! u) as [p|] eqn:Hu; cbn [snd].
  - eapply ext_trans; [apply ext_newPromise|apply ext_return|aims].
    intros Hc. by eapply (proj1 (proj2 (proj2 (proj2 Hc)))).
  - eapply ext_trans; [|apply ext_return; made_now|aims].
    eapply ext_trans; [|apply ext_cache_scanned|aims].
    eapply ext_trans; [|apply ext_enqueue|aims].
    eapply ext_then; [apply ext_newPromise|].
    apply (ext_newPromise (newPromise a).2).
Qed.

Lemma ext_loadResolved env u c a : ext [] a (_loadResolved env u c a).2.
Proof.
  unfold _loadResolved. cbv beta iota zeta delta [newPromise].
  cbn [_parsedDocuments with_promises promises snd fst].
  destruct (_parsedDocuments a !! u) as [p|] eqn:Hu; cbn [snd].
  - eapply ext_trans; [apply ext_newPromise|apply ext_return|aims].
    intros Hc. by eapply (proj1 (proj2 (proj2 (proj2 (proj2 Hc))))).
  - destruct (canLoad (_loader env) u); cbn [negb snd].
    + eapply ext_trans; [|apply ext_return; made_now|aims].
      eapply ext_trans; [|apply ext_cache_parsed|aims].
      eapply ext_trans; [|apply ext_enqueue|aims].
      eapply ext_then; [apply ext_newPromise|].
      apply (ext_newPromise (newPromise a).2).
    + eapply ext_trans; [apply ext_newPromise|apply ext_settle|aims].
Qed.

(** The promise of a call is one of those made when the call returns. *)
Lemma scanResolved_made u c a :
  ((_scanResolved u c a).1 < made (_scanResolved u c a).2)%nat.
Proof.
  destruct (_scannedDocuments a !! u) as [p|] eqn:Hu.
  - rewrite (scanResolved_hit u c a p Hu). cbn [fst snd].
    destruct (await_frame p (KReturn (made a)) (newPromise a).2)
      as (_ & _ & Hpr & _).
    unfold return_. rewrite Hpr. cbn. rewrite length_app. cbn. lia.
  - rewrite (scanResolved_miss u c a Hu). cbn. rewrite length_app. cbn. lia.
Qed.

Lemma loadResolved_made env u c a :
  ((_loadResolved env u c a).1 < made (_loadResolved env u c a).2)%nat.
Proof.
  destruct (_parsedDocuments a !! u) as [p|] eqn:Hu.
  - rewrite (loadResolved_hit env u c a p Hu). cbn [fst snd].
    destruct (await_frame p (KReturn (made a)) (newPromise a).2)
      as (_ & _ & Hpr & _).
    unfold return_. rewrite Hpr. cbn. rewrite length_app. cbn. lia.
  - destruct (canLoad (_loader env) u) eqn:Hcan.
    + rewrite (loadResolved_miss env u c a Hu Hcan). cbn.
      rewrite length_app. cbn. lia.
    + rewrite (loadResolved_throws env u c a Hu Hcan). cbn [fst snd].
      rewrite settle_promises.
      destruct (promises (newPromise a).2 !! made a) as [[]|];
        rewrite ?length_insert; cbn; rewrite length_app; cbn; lia.
Qed.

Lemma ext_loadResolved_parse env u content p a :
  ext [p] a (loadResolved_parse env u content p a).
Proof.
  unfold loadResolved_parse.
  pose proof (ext_parse env (Js.substring1 (extname env u)) content u
                (telemetry_start "parse" "resolvedUrl" a)) as H.
  destruct (_parse env _ _ _ _) as [[e|doc] a1]; cbn [snd] in H;
    (eapply ext_trans; [apply ext_nil|apply ext_settle|aims]);
    (eapply ext_then; [apply ext_telemetry|exact H]).
Qed.

Lemma ext_run_loadResolved env u c p a :
  ext [p] a (run_loadResolved env u c p a).
Proof.
  unfold run_loadResolved. destruct c as [content|].
  - apply ext_loadResolved_parse.
  - eapply ext_trans; [apply ext_nil, ext_record|apply ext_enqueue|aims].
Qed.

Lemma ext_getScannedFeatures env document a :
  ext [] a (_getScannedFeatures env document a).2.
Proof.
  unfold _getScannedFeatures.
  destruct (scanners env !! type document); [apply ext_record|apply ext_refl].
Qed.

Lemma ext_scanDocument env document off comment promise a :
  ext [promise] a (_scanDocument env document off comment promise a).
Proof.
  unfold _scanDocument.
  match goal with
  | |- context [_getScannedFeatures env document ?b] =>
      pose proof (ext_getScannedFeatures env document b) as H;
      destruct (_getScannedFeatures env document b) as [fs b']
  end.
  cbn [snd] in H.
  eapply ext_trans; [|apply ext_enqueue|aims].
  eapply ext_then; [|exact H].
  apply (ext_activate (mkAct document _ comment [] [] [] promise)).
Qed.

(** The promise of an activation is settled by the activation alone. *)
Lemma ext_settle_act x s a :
  x ∈ activations a -> ext [] a (settle (act_promise x) s a).
Proof.
  intros Hx. destruct (ext_settle (act_promise x) s a) as (L & C & T).
  split; [done|]. split.
  - intros _ Hc. apply C; [|done].
    intros t ->%list_elem_of_singleton. by apply Hc.
  - intros q p Hq _ Ht. apply T; [done| |done].
    intros ->%list_elem_of_singleton. by apply (proj1 Ht x).
Qed.

Lemma ext_complete act a : ext [] a (complete act a).
Proof.
  unfold complete. destruct (activations a !! act) as [x|] eqn:Hx;
    [|apply ext_refl].
  destruct (promises a !! act_promise x) as [[|]|]; try apply ext_refl.
  destruct (mapM id (act_slots x)); [|apply ext_refl].
  eapply ext_then; [|apply ext_settle_act].
  - by apply ext_still.
  - cbn. by eapply list_elem_of_lookup_2.
Qed.

Lemma ext_abort act e a : ext [] a (abort act e a).
Proof.
  unfold abort. destruct (activations a !! act) as [x|] eqn:Hx;
    [|apply ext_refl].
  apply ext_settle_act. by eapply list_elem_of_lookup_2.
Qed.

Lemma ext_scanImport env act slot feature imp a :
  ext [] a (_scanImport env act slot feature imp a).
Proof.
  unfold _scanImport.
  pose proof (ext_scanResolved (_resolveUrl env (imp_url imp)) None a) as H.
  pose proof (scanResolved_made (_resolveUrl env (imp_url imp)) None a) as Hm.
  destruct (_scanResolved _ None a) as [p a1]. cbn [fst snd] in H, Hm.
  eapply ext_then; [exact H|].
  by apply (ext_await p (KScanImport act slot feature)).
Qed.

Lemma ext_resume_scanImport act slot feature s a :
  ext [] a (resume_scanImport act slot feature s a).
Proof.
  unfold resume_scanImport. destruct s as [[]|error]; try apply ext_refl.
  - eapply ext_then; [|apply ext_complete].
    eapply ext_then; by apply ext_update_act.
  - destruct (isNoKnownParserError error).
    + eapply ext_then; [|apply ext_complete]. by apply ext_update_act.
    + destruct (activations a !! act) as [x|]; [|apply ext_refl].
      destruct (act_features x !! feature) as [[]|]; try apply ext_refl.
      eapply ext_then; [|apply ext_complete].
      eapply ext_then; by apply ext_update_act.
Qed.

Lemma ext_scanSource env type contents url off comment a :
  ext [] a (_scanSource env type contents url off comment a).2.
Proof.
  unfold _scanSource.
  pose proof (ext_parse env type contents (_resolveUrl env url) a) as H.
  destruct (_parse env _ _ _ a) as [[e|document] a1]; cbn [snd] in H; [done|].
  cbv beta iota zeta delta [newPromise]. cbn [snd].
  eapply ext_then; [exact H|].
  eapply ext_trans; [apply (ext_newPromise a1)|apply ext_scanDocument|aims].
Qed.

Lemma scanSource_made env type contents url off comment a promise a1 :
  _scanSource env type contents url off comment a = (inr promise, a1) ->
  (promise < made a1)%nat.
Proof.
  unfold _scanSource.
  destruct (_parse env _ _ _ a) as [[e|document] a0]; [done|].
  cbv beta iota zeta delta [newPromise]. intros [= <- <-].
  match goal with
  | |- (_ < made (_scanDocument env ?d ?o ?c ?p ?b))%nat =>
      destruct (ext_scanDocument env d o c p b) as [Hl _]
  end.
  cbn in Hl. rewrite length_app in Hl. cbn in Hl. lia.
Qed.

Lemma ext_scanInlineDocument env act slot feature inl doc a :
  ext [] a (_scanInlineDocument env act slot feature inl doc a).
Proof.
  unfold _scanInlineDocument.
  pose proof (ext_scanSource env (inl_type inl) (inl_contents inl) (url doc)
                (Some (mkOffset (off_line (locationOffset inl))
                                (off_col (locationOffset inl)) (Some (url doc))))
                (attachedComment inl) a) as H.
  destruct (_scanSource env _ _ _ _ _ a) as [[e|promise] a1] eqn:E;
    cbn [snd] in H; (eapply ext_then; [exact H|]).
  - apply (ext_enqueue (JResume (KScanInlineDocument act slot feature _) _)).
  - apply (ext_await promise (KScanInlineDocument act slot feature _)).
    intros _. by eapply scanSource_made.
Qed.

Lemma ext_resume_scanInlineDocument env act slot feature off s a :
  ext [] a (resume_scanInlineDocument env act slot feature off s a).
Proof.
  unfold resume_scanInlineDocument.
  destruct s as [[|d| | |]|err]; try apply ext_refl.
  - eapply ext_then; [|apply ext_complete].
    eapply ext_then; [|by apply ext_update_act].
    apply (ext_then _ _ (update_act act (link feature d) a));
      [by apply ext_update_act|by apply ext_still].
  - destruct err; cbn iota; try apply ext_abort.
    eapply ext_then; [|apply ext_complete].
    eapply ext_then; by apply ext_update_act.
Qed.

Lemma ext_startDependencies env act doc fs deps slot a :
  ext [] a (startDependencies env act doc fs deps slot a).
Proof.
  revert slot a. induction deps as [|d deps IH]; intros slot a; cbn;
    [apply ext_refl|].
  eapply ext_then; [|apply IH].
  destruct (fs !! d) as [[imp|inl| |]|]; try apply ext_refl.
  - apply ext_scanImport.
  - apply ext_scanInlineDocument.
Qed.

Lemma ext_resume_scanDocument env act s a :
  ext [] a (resume_scanDocument env act s a).
Proof.
  unfold resume_scanDocument.
  destruct s as [[]|]; destruct (activations a !! act) as [x|];
    try apply ext_refl; [|apply ext_abort].
  eapply ext_then; [|apply ext_complete].
  eapply ext_then; [|apply ext_startDependencies].
  by apply ext_update_act.
Qed.

Lemma ext_analyzeRoot env url contents a :
  ext [] a (analyzeRoot env url contents a).2.
Proof.
  unfold analyzeRoot.
  match goal with
  | |- context [_scanResolved (_resolveUrl env url) contents ?b] =>
      assert (H0 : ext [] a b);
      [|pose proof (ext_scanResolved (_resolveUrl env url) contents b) as H;
        pose proof (scanResolved_made (_resolveUrl env url) contents b) as Hm;
        destruct (_scanResolved (_resolveUrl env url) contents b) as [scanned a1]]
  end.
  { destruct contents; [|apply ext_refl]. apply ext_same; try done.
    - intros x' Hx'. by exists x'.
    - intros u p. cbn. intros Hu. apply lookup_delete_Some in Hu. tauto.
    - intros u p. cbn. intros Hu. apply lookup_delete_Some in Hu. tauto. }
  cbn [fst snd] in H, Hm. cbv beta iota zeta delta [newPromise]. cbn [snd].
  eapply ext_then; [exact H0|]. eapply ext_then; [exact H|].
  eapply ext_trans;
    [apply (ext_newPromise a1)
    |apply (ext_await scanned (KAnalyzeRoot url (length (promises a1))))
    |aims].
  intros _. cbn. rewrite length_app. cbn. lia.
Qed.

Lemma ext_resume env k s a : ext (option_list (aim k)) a (resume env k s a).
Proof.
  destruct k; cbn [resume aim option_list].
  - destruct s as [[]|]; try apply ext_refl;
      [apply ext_loadResolved_parse|apply ext_settle].
  - destruct s as [[]|]; try apply ext_refl;
      [apply ext_scanDocument|apply ext_settle].
  - apply ext_resume_scanDocument.
  - apply ext_resume_scanImport.
  - apply ext_resume_scanInlineDocument.
  - destruct s as [[]|]; try apply ext_refl; [|apply ext_settle].
    eapply ext_trans; [apply ext_nil, ext_telemetry|apply ext_settle|aims].
  - apply ext_settle.
Qed.

Lemma ext_run_job env j a : ext (option_list (jobAim j)) a (run_job env j a).
Proof.
  destruct j as [u c p|u c p|k s]; cbn [run_job jobAim option_list].
  - pose proof (ext_loadResolved env u c a) as H.
    pose proof (loadResolved_made env u c a) as Hm.
    destruct (_loadResolved env u c a) as [loading a1]. cbn [fst snd] in H, Hm.
    eapply ext_trans;
      [apply ext_nil; exact H|by apply (ext_await loading (KScanResolved p))|aims].
  - apply ext_run_loadResolved.
  - apply ext_resume.
Qed.

(** *** Turns and requests *)

Lemma closed_create : closed create.
Proof.
  split; [|split; [|split; [|split; [|split]]]]; cbn.
  - by intros x ?%elem_of_nil.
  - by intros r t ?%elem_of_nil.
  - by intros j t ?%elem_of_nil.
  - intros u p. by rewrite lookup_empty.
  - intros u p. by rewrite lookup_empty.
  - by intros r ?%elem_of_nil.
Qed.

Lemma taken_closed i a : closed a -> closed (with_jobs (delete i (jobs a)) a).
Proof.
  intros (C1 & C2 & C3 & C4 & C5 & C6).
  split; [exact C1|]. split; [exact C2|]. split; [|by repeat split].
  intros j t Hj Ha. cbn [jobs with_jobs] in Hj. eapply C3; [|done].
  by eapply list_elem_of_delete_inv.
Qed.


Lemma step_closed env i a a' : step_at env i a = Some a' -> closed a -> closed a'.
Proof.
  unfold step_at. destruct (jobs a !! i) as [j|] eqn:Hj; [|done].
  intros [= <-] Hc.
  destruct (ext_run_job env j (with_jobs (delete i (jobs a)) a)) as (_ & C & _).
  apply C; [|by apply taken_closed].
  intros t Ht. destruct (jobAim j) as [t'|] eqn:Ha; cbn in Ht;
    [|by apply elem_of_nil in Ht].
  apply list_elem_of_singleton in Ht as ->.
  destruct Hc as (_ & _ & C3 & _). cbn. eapply C3; [|done].
  by eapply list_elem_of_lookup_2.
Qed.



Lemma later_closed env a a' : later env a a' -> closed a -> closed a'.
Proof.
  induction 1 as [|b url contents _ IH|b i b' _ IH Hstep]; [done| |]; intros Hc.
  - destruct (ext_analyzeRoot env url contents b) as (_ & C & _).
    apply C; [by intros t ?%elem_of_nil|by apply IH].
  - eapply step_closed; [done|by apply IH].
Qed.


Lemma run_schedule_later env schedule a a' :
  run_schedule env schedule a = Some a' -> later env a a'.
Proof.
  intros H. assert (G : forall b, later env a b ->
                                  run_schedule env schedule b = Some a' ->
                                  later env a a').
  { clear H. induction schedule as [|i schedule IH]; intros b Hb; cbn.
    - by intros [= <-].
    - destruct (step_at env i b) as [b'|] eqn:Hstep; [|done].
      apply IH. by eapply later_step. }
  by apply (G a); [constructor|].
Qed.

Lemma run_later env fuel a : later env a (run env fuel a).
Proof.
  assert (G : forall b, later env a b -> later env a (run env fuel b)).
  { induction fuel as [|fuel IH]; intros b Hb; cbn; [done|].
    destruct (step_at env 0 b) as [b'|] eqn:Hstep; [|done].
    apply IH. by eapply later_step. }
  apply G. constructor.
Qed.

Lemma later_trans env a b c : later env a b -> later env b c -> later env a c.
Proof.
  intros Hab. induction 1 as [|d url contents _ IH|d i d' _ IH Hstep]; [done| |].
  - by apply later_request.
  - by eapply later_step.
Qed.

(** *** A request: the promise of the call follows the promise in the slot *)





(** *** Requests for one URL in a row *)




End Following.
(** ** One computation for the requests of a URL *)
Section AnalyzerRequests.
Import Analyzer.




End AnalyzerRequests.



(** ** Cyclic imports *)

Lemma holdsOnAllRuns_sound env P fuel a :
  holdsOnAllRuns env P fuel a = true ->
  forall schedule a',
    Analyzer.run_schedule env schedule a = Some a' ->
    P a' = true /\ (length schedule <= fuel)%nat.
Proof.
  revert a. induction fuel as [|fuel IH]; intros a; cbn [holdsOnAllRuns];
    intros [HP Hrest]%andb_prop schedule a'.
  - destruct schedule as [|i schedule]; cbn.
    + intros [= <-]. split; [done|lia].
    + unfold Analyzer.step_at. destruct (Analyzer.jobs a); [|done].
      by rewrite lookup_nil.
  - destruct schedule as [|i schedule]; cbn.
    + intros [= <-]. split; [done|lia].
    + destruct (Analyzer.step_at env i a) as [a1|] eqn:Hstep; [|done].
      intros Hrun.
      assert (Hi : (i < length (Analyzer.jobs a))%nat).
      { unfold Analyzer.step_at in Hstep.
        destruct (Analyzer.jobs a !! i) eqn:Hj; [|done].
        by eapply lookup_lt_Some. }
      rewrite forallb_forall in Hrest.
      specialize (Hrest i). rewrite Hstep in Hrest.
      destruct (IH a1 (Hrest ltac:(apply in_seq; lia)) schedule a' Hrun).
      split; [done|lia].
Qed.

(** C1. For a.html and b.html importing each other, the promise of
    [analyzeRoot] on a.html never settles.  In whatever order the queued
    jobs run, after at most twelve turns no job is left, the promise is
    still pending and no ScannedDocument has been built: the scan of a.html
    waits for the scan of b.html, which waits for the cached, pending scan
    of a.html.  Each of the two URLs has been loaded, parsed and handed to
    the scan driver exactly once. *)
Theorem cyclic_imports_never_settle :
  (forall schedule a,
     Analyzer.run_schedule Samples.cyclic schedule Samples.cyclic_start.2 = Some a ->
     Analyzer.promises a !! Samples.cyclic_start.1 = Some Analyzer.Pending
     /\ Analyzer.documents a = []
     /\ (length schedule <= 12)%nat)
  /\ (let a := Analyzer.run Samples.cyclic 12 Samples.cyclic_start.2 in
      Analyzer.jobs a = []
      /\ Analyzer.reactions a
         = [(1%nat, Analyzer.KReturn 0);
            (0%nat, Analyzer.KAnalyzeRoot "a.html" 2);
            (6%nat, Analyzer.KReturn 5);
            (5%nat, Analyzer.KScanImport 0 0 0);
            (1%nat, Analyzer.KReturn 9);
            (9%nat, Analyzer.KScanImport 1 0 0)]
      /\ Analyzer._scannedDocuments a !! "a.html" = Some 1%nat
      /\ Analyzer._scannedDocuments a !! "b.html" = Some 6%nat
      /\ Analyzer.promises a !! 1%nat = Some Analyzer.Pending
      /\ Analyzer.promises a !! 6%nat = Some Analyzer.Pending
      /\ loadedUrls a = ["a.html"; "b.html"]
      /\ parsedTexts a = [("a.html", "<link rel=import href=b.html>");
                          ("b.html", "<link rel=import href=a.html>")]
      /\ scannedUrls a = ["a.html"; "b.html"]).
Proof.
  split.
  - intros schedule a Hrun.
    assert (Hall : holdsOnAllRuns Samples.cyclic (stuck Samples.cyclic_start.1) 12
                                  Samples.cyclic_start.2 = true)
      by (vm_compute; reflexivity).
    destruct (holdsOnAllRuns_sound _ _ _ _ Hall schedule a Hrun) as [Hs Hlen].
    unfold stuck, isPending in Hs. apply andb_prop in Hs as [Hp Hd].
    split; [|split; [|done]].
    + by destruct (Analyzer.promises a !! Samples.cyclic_start.1) as [[]|].
    + by destruct (Analyzer.documents a).
  - vm_compute. repeat split.
Qed.

(** Without the cycle the analysis of a.html ends, in every order of the
    jobs, with both documents built. *)
Example acyclic_imports_settle :
  let '(root, a0) := Analyzer.analyzeRoot Samples.chain "a.html" None
                                          Analyzer.create in
  let a := Analyzer.run Samples.chain 40 a0 in
  Analyzer.jobs a = []
  /\ Analyzer.promises a !! root
     = Some (Analyzer.Done (Analyzer.Fulfilled (Analyzer.VDocument 1)))
  /\ length (Analyzer.documents a) = 2%nat
  /\ loadedUrls a = ["a.html"; "b.html"].
Proof. vm_compute. repeat split. Qed.

(** ** Instances *)

(** A license header is not a doc comment; any other comment is, trimmed. *)
Lemma getAttachedCommentText_skips_license_witness :
  let walk (comments : list InlineDocument.ASTNode) :=
    fun (_ : InlineDocument.ASTNode) (_ : InlineDocument.ASTNode -> bool) => comments in
  let element := InlineDocument.mkNode "dom-module" None in
  InlineDocument.getAttachedCommentText
    (walk [InlineDocument.mkNode "#comment" (Some " @license BSD ")])
    (fun _ => true) (fun s => s) element = None
  /\ InlineDocument.getAttachedCommentText
       (walk [InlineDocument.mkNode "#comment" (Some "  Shows a card. ");
              InlineDocument.mkNode "#comment" (Some " @license BSD ")])
       (fun _ => true) (fun s => s) element = Some "Shows a card.".
Proof.
  cbn zeta. split.
  - destruct (getAttachedCommentText_skips_license
                (fun _ _ => [InlineDocument.mkNode "#comment" (Some " @license BSD ")])
                (fun _ => true) (fun s => s)
                (InlineDocument.mkNode "dom-module" None)) as [H _].
    apply H. right; right. eexists. split; reflexivity.
  - destruct (getAttachedCommentText_skips_license
                (fun _ _ => [InlineDocument.mkNode "#comment" (Some "  Shows a card. ");
                             InlineDocument.mkNode "#comment" (Some " @license BSD ")])
                (fun _ => true) (fun s => s)
                (InlineDocument.mkNode "dom-module" None)) as [_ H].
    apply (H "  Shows a card. "); [reflexivity|discriminate|reflexivity].
Defined.

(** A response for a request that was never made, after one request. *)
Lemma handleResponse_unmatched_ignored_witness :
  let ch := (Channel.request Channel.create).2 in
  EditorServerChannel._handleResponse
    (Channel.mkResponse 7 (Channel.Rejection "no such file")) ch = inr ch
  /\ SelfChannel._handleResponse
       (Channel.mkResponse 7 (Channel.Rejection "no such file")) ch = inr ch.
Proof.
  cbn zeta.
  destruct (handleResponse_unmatched_ignored
              (Channel.mkResponse 7 (Channel.Rejection "no such file"))
              (Channel.request Channel.create).2) as [[H1 _] [H2 _]].
  split; [apply H1|apply H2]; reflexivity.
Defined.


(* ===================================================================== *)
(** * Part IV. Further properties of the code                             *)
(* ===================================================================== *)

(** ** The channel of the remote editor service *)
Section ChannelFacts.
Import ChannelNotions.

Lemma numbered_create : numbered Channel.create.
Proof.
  repeat split. intros id. unfold Channel.create.
  cbn [Channel._outstandingRequests Channel.deferreds length].
  rewrite lookup_empty. case_bool_decide; [lia|done].
Qed.

Lemma numbered_request ch : numbered ch -> numbered (Channel.request ch).2.
Proof.
  intros (Hc & Hs & Hm). unfold numbered, Channel.request.
  cbn [snd Channel.deferreds Channel._idCounter Channel.sent
       Channel._outstandingRequests].
  rewrite length_app. cbn [length].
  replace (length (Channel.deferreds ch) + 1)%nat
    with (S (length (Channel.deferreds ch))) by lia.
  split; [lia|split].
  - rewrite seq_S, fmap_app, Hs, Hc. done.
  - intros id. destruct (decide (id = Channel._idCounter ch)) as [->|Hne].
    + rewrite lookup_insert_eq. rewrite Hc.
      rewrite bool_decide_true by lia. by rewrite Nat2Z.id.
    + rewrite lookup_insert_ne by done. rewrite Hm.
      repeat case_bool_decide; try done; lia.
Qed.

Lemma numbered_settle d s ch : numbered ch -> numbered (Channel.settle d s ch).
Proof.
  intros H. unfold Channel.settle.
  destruct (Channel.deferreds ch !! d) as [[| |]|]; try done.
  destruct H as (Hc & Hs & Hm). unfold numbered.
  cbn [Channel.deferreds Channel._idCounter Channel.sent
       Channel._outstandingRequests].
  by rewrite length_insert.
Qed.

Lemma numbered_handleResponse response ch ch' :
  numbered ch -> Channel._handleResponse response ch = inr ch' -> numbered ch'.
Proof.
  intros H. unfold Channel._handleResponse.
  destruct (Channel._outstandingRequests ch !! Channel.id response);
    [|by intros [= <-]].
  destruct (Channel.value response); intros [= <-]; by apply numbered_settle.
Qed.

Lemma run_numbered es ch ch' : numbered ch -> run es ch = inr ch' -> numbered ch'.
Proof.
  revert ch. induction es as [|[|response] es IH]; intros ch H; cbn.
  - by intros [= <-].
  - apply IH. by apply numbered_request.
  - destruct (Channel._handleResponse response ch) as [|ch1] eqn:E; [done|].
    apply IH. by eapply numbered_handleResponse.
Qed.

(** Under the numbering the promise of a request is found at its id. *)
Lemma promiseOf_numbered ch id :
  numbered ch ->
  promiseOf ch id
  = if bool_decide (0 <= id < Z.of_nat (length (Channel.deferreds ch)))%Z
    then Channel.deferreds ch !! Z.to_nat id else None.
Proof.
  intros (_ & _ & Hm). unfold promiseOf. rewrite Hm. by case_bool_decide.
Qed.

Lemma settle_other d s ch d' :
  d' <> d -> Channel.deferreds (Channel.settle d s ch) !! d'
             = Channel.deferreds ch !! d'.
Proof.
  intros Hne. unfold Channel.settle.
  destruct (Channel.deferreds ch !! d) as [[| |]|]; try done.
  cbn [Channel.deferreds]. by rewrite list_lookup_insert_ne.
Qed.

Lemma settle_pending_deferred d s ch :
  Channel.deferreds ch !! d = Some Channel.Pending ->
  Channel.deferreds (Channel.settle d s ch) !! d = Some s.
Proof.
  intros H. unfold Channel.settle. rewrite H. cbn [Channel.deferreds].
  apply list_lookup_insert_eq. by eapply lookup_lt_Some.
Qed.

Lemma settle_settled d s ch :
  Channel.deferreds ch !! d <> Some Channel.Pending -> Channel.settle d s ch = ch.
Proof.
  intros H. unfold Channel.settle.
  by destruct (Channel.deferreds ch !! d) as [[| |]|].
Qed.

End ChannelFacts.

(** X1. Every request goes out under an id that no earlier request of the
    channel had: ids count up from zero.  The request registers a pending
    promise under its id and leaves the promises of all other requests as
    they are. *)
Theorem request_ids_are_fresh (es : list ChannelNotions.Event) (ch : Channel.t)
    (Hrun : ChannelNotions.run es Channel.create = inr ch) :
  let id := (Channel.request ch).1.1 in
  let ch' := (Channel.request ch).2 in
  id = Z.of_nat (length (Channel.sent ch))
  /\ (id ∉ Channel.sent ch)
  /\ ChannelNotions.promiseOf ch id = None
  /\ ChannelNotions.promiseOf ch' id = Some Channel.Pending
  /\ Channel.sent ch' = Channel.sent ch ++ [id]
  /\ forall id', id' <> id ->
       ChannelNotions.promiseOf ch' id' = ChannelNotions.promiseOf ch id'.
Proof.
  intros id ch'.
  pose proof (run_numbered _ _ _ numbered_create Hrun) as Hn.
  pose proof (numbered_request _ Hn) as Hn'. fold ch' in Hn'.
  destruct Hn as (Hc & Hs & Hm).
  assert (Hid : id = Z.of_nat (length (Channel.deferreds ch))) by exact Hc.
  assert (Hlen : length (Channel.deferreds ch') = S (length (Channel.deferreds ch))).
  { unfold ch', Channel.request. cbn [snd Channel.deferreds].
    rewrite length_app. cbn. lia. }
  assert (Hdef : Channel.deferreds ch'
                 = Channel.deferreds ch ++ [Channel.Pending]) by done.
  split; [|split; [|split; [|split; [|split]]]].
  - rewrite Hs, length_fmap, length_seq. exact Hid.
  - rewrite Hs. intros (n & Heq & Hin)%list_elem_of_fmap.
    apply elem_of_seq in Hin. lia.
  - unfold ChannelNotions.promiseOf. rewrite Hm.
    rewrite bool_decide_false by lia. done.
  - rewrite (promiseOf_numbered _ _ Hn'), Hlen, Hdef.
    rewrite bool_decide_true by lia. rewrite Hid, Nat2Z.id.
    by rewrite lookup_app_r, Nat.sub_diag.
  - unfold ch', Channel.request. cbn [snd Channel.sent]. done.
  - intros id' Hne. rewrite (promiseOf_numbered _ _ Hn'), Hlen, Hdef.
    unfold ChannelNotions.promiseOf. rewrite Hm.
    repeat case_bool_decide; try done; try lia.
    rewrite lookup_app_l; [done|lia].
Qed.

(** X2. A response settles the promise of the request that went out under
    its id, if that promise is still pending, and nothing else: the
    promises of all other requests stay as they are, and a response for a
    request that is already settled changes nothing, so that the first
    response for a request decides its outcome. *)
Theorem response_settles_only_its_request
    (es : list ChannelNotions.Event) (ch ch' : Channel.t)
    (response : Channel.ResponseWrapper)
    (Hrun : ChannelNotions.run es Channel.create = inr ch)
    (Hresponse : Channel._handleResponse response ch = inr ch') :
  let id := Channel.id response in
  (forall id', id' <> id ->
     ChannelNotions.promiseOf ch' id' = ChannelNotions.promiseOf ch id')
  /\ (ChannelNotions.promiseOf ch id = Some Channel.Pending ->
      ChannelNotions.promiseOf ch' id
      = ChannelNotions.outcome (Channel.value response))
  /\ (ChannelNotions.promiseOf ch id <> Some Channel.Pending -> ch' = ch)
  /\ Channel._idCounter ch' = Channel._idCounter ch
  /\ Channel.sent ch' = Channel.sent ch.
Proof.
  intros id.
  pose proof (run_numbered _ _ _ numbered_create Hrun) as Hn.
  pose proof (numbered_handleResponse _ _ _ Hn Hresponse) as Hn'.
  assert (Hshape : ch' = ch
          \/ exists s, ChannelNotions.outcome (Channel.value response) = Some s
                       /\ Channel._outstandingRequests ch !! id
                          = Some (Z.to_nat id)
                       /\ ch' = Channel.settle (Z.to_nat id) s ch).
  { destruct Hn as (_ & _ & Hm). revert Hresponse.
    unfold Channel._handleResponse. fold id. rewrite Hm.
    case_bool_decide; [|intros [= <-]; by left].
    destruct (Channel.value response); intros [= <-]; right; eexists;
      (split; [reflexivity|done]). }
  destruct Hshape as [->|(s & Hs & Hid & ->)].
  { repeat split; try done. intros Hp.
    destruct Hn as (_ & _ & Hm). revert Hresponse Hp.
    unfold Channel._handleResponse, ChannelNotions.promiseOf. fold id.
    destruct (Channel._outstandingRequests ch !! id) as [d|]; [|done].
    cbn [mbind option_bind].
    destruct (Channel.value response); cbn [ChannelNotions.outcome];
      intros [= Heq] Hp; try done.
    - rewrite <- Heq at 1. by rewrite (settle_pending_deferred _ _ _ Hp).
    - rewrite <- Heq at 1. by rewrite (settle_pending_deferred _ _ _ Hp). }
  assert (Hlen : length (Channel.deferreds (Channel.settle (Z.to_nat id) s ch))
                 = length (Channel.deferreds ch)).
  { unfold Channel.settle.
    destruct (Channel.deferreds ch !! Z.to_nat id) as [[| |]|]; try done.
    cbn [Channel.deferreds]. by rewrite length_insert. }
  assert (Hrange : (0 <= id < Z.of_nat (length (Channel.deferreds ch)))%Z).
  { destruct Hn as (_ & _ & Hm). rewrite Hm in Hid.
    by case_bool_decide. }
  split; [|split; [|split; [|split]]].
  - intros id' Hne.
    rewrite (promiseOf_numbered _ _ Hn'), (promiseOf_numbered _ _ Hn), Hlen.
    case_bool_decide; [|done]. apply settle_other. lia.
  - intros Hp. rewrite (promiseOf_numbered _ _ Hn') , Hlen.
    rewrite (promiseOf_numbered _ _ Hn) in Hp.
    rewrite bool_decide_true in Hp |- * by done.
    rewrite Hs. by apply settle_pending_deferred.
  - intros Hp. apply settle_settled.
    rewrite (promiseOf_numbered _ _ Hn) in Hp.
    by rewrite bool_decide_true in Hp by done.
  - unfold Channel.settle.
    by destruct (Channel.deferreds ch !! Z.to_nat id) as [[| |]|].
  - unfold Channel.settle.
    by destruct (Channel.deferreds ch !! Z.to_nat id) as [[| |]|].
Qed.

(** ** The editor server in the child process *)
Section ServerFacts.
Import RemoteEditorService ServerNotions.
Context {State : Type}.
Variable service : EditorService State.
Variable stackTrace : string -> string.

Lemma run_deaf es (p : Process State) :
  listener p = Deaf -> waiting p = [] -> run service stackTrace es p = p.
Proof.
  intros Hl Hw. induction es as [|[m|i] es IH]; cbn; [done| |].
  - unfold onMessage. rewrite Hl. exact IH.
  - unfold finish. rewrite Hw. cbn. exact IH.
Qed.

Lemma run_serving es (p : Process State) s :
  listener p = Serving s ->
  let p' := run service stackTrace es p in
  (exists s', listener p' = Serving s')
  /\ sent p' ++ waiting p'
     ≡ₚ (sent p ++ waiting p) ++ answers service stackTrace s (messages es).
Proof.
  revert p s. induction es as [|[m|i] es IH]; intros p s Hl; cbn zeta.
  - cbn. split; [by eexists|]. by rewrite app_nil_r.
  - cbn [run foldl step messages omap answers].
    destruct (getSettledValue service stackTrace (value m) s) as [result s'] eqn:E.
    set (p1 := onMessage service stackTrace m p).
    assert (H1 : listener p1 = Serving s'
                 /\ sent p1 = sent p
                 /\ waiting p1 = waiting p ++ [Channel.mkResponse (id m) result]).
    { unfold p1, onMessage. rewrite Hl, E. done. }
    destruct H1 as (Hl1 & Hs1 & Hw1).
    destruct (IH p1 s' Hl1) as [Hserving Hperm]. split; [exact Hserving|].
    change (foldl (step service stackTrace) p1 es)
      with (run service stackTrace es p1).
    rewrite Hperm, Hs1, Hw1. cbn [option_bind mbind].
    change (omap _ es) with (messages es).
    change (messages (Message m :: es)) with (m :: messages es).
    cbn [answers]. rewrite E. rewrite <- !app_assoc. done.
  - cbn [run foldl step messages omap].
    set (p1 := default p (finish i p)).
    assert (H1 : listener p1 = Serving s
                 /\ sent p1 ++ waiting p1 ≡ₚ sent p ++ waiting p).
    { unfold p1, finish. destruct (waiting p !! i) as [r|] eqn:E; cbn; [|done].
      split; [done|]. rewrite <- app_assoc. apply Permutation_app_head.
      symmetry. exact (delete_Permutation _ _ _ E). }
    destruct H1 as (Hl1 & Hp1).
    destruct (IH p1 s Hl1) as [Hserving Hperm]. split; [exact Hserving|].
    change (foldl (step service stackTrace) p1 es)
      with (run service stackTrace es p1).
    change (messages (Finish i :: es)) with (messages es).
    by rewrite Hperm, Hp1.
Qed.

End ServerFacts.

Section ServerAnswers.
Import RemoteEditorService ServerNotions.
Context {State : Type}.
Variable service : EditorService State.
Variable stackTrace : string -> string.

Lemma answers_ids s ms :
  Channel.id <$> answers service stackTrace s ms = id <$> ms.
Proof.
  revert s. induction ms as [|m ms IH]; intros s; cbn; [done|].
  destruct (getSettledValue service stackTrace (value m) s) as [result s'].
  cbn. by rewrite IH.
Qed.

End ServerAnswers.

(** X3. Once the first message has been an [init], the child sends one
    response for each later message and none for the [init] itself: at any
    time the responses sent and those still being worked on are, in some
    order, the settled values of the later messages computed in the order
    of their arrival, each under the id of its message. *)
Theorem server_answers_each_request_once {State : Type}
    (service : RemoteEditorService.EditorService State)
    (stackTrace : string -> string) (first : Z) (basedir : string)
    (es : list ServerNotions.Event) :
  let init := RemoteEditorService.mkRequest first
                (RemoteEditorService.InitRequest basedir) in
  let p := ServerNotions.run service stackTrace es
             (RemoteEditorService.onMessage service stackTrace init
                RemoteEditorService.start) in
  let owed := ServerNotions.answers service stackTrace
                (RemoteEditorService.new_EditorService service basedir)
                (ServerNotions.messages es) in
  RemoteEditorService.sent p ++ RemoteEditorService.waiting p ≡ₚ owed
  /\ Channel.id <$> (RemoteEditorService.sent p ++ RemoteEditorService.waiting p)
     ≡ₚ RemoteEditorService.id <$> ServerNotions.messages es
  /\ (RemoteEditorService.waiting p = [] ->
      length (RemoteEditorService.sent p) = length (ServerNotions.messages es)).
Proof.
  intros init p owed.
  destruct (run_serving service stackTrace es
              (RemoteEditorService.onMessage service stackTrace init
                 RemoteEditorService.start)
              (RemoteEditorService.new_EditorService service basedir) eq_refl)
    as [_ Hperm].
  fold p in Hperm. cbn [RemoteEditorService.sent RemoteEditorService.waiting
                        RemoteEditorService.onMessage app] in Hperm.
  change (RemoteEditorService.sent p ++ RemoteEditorService.waiting p ≡ₚ owed)
    in Hperm.
  split; [exact Hperm|split].
  - rewrite Hperm. unfold owed. by rewrite answers_ids.
  - intros Hw. rewrite Hw, app_nil_r in Hperm.
    rewrite (Permutation_length Hperm). unfold owed.
    rewrite <- (length_fmap Channel.id), answers_ids. by rewrite length_fmap.
Qed.

(** X4. A first message that is not an [init] is answered with one
    rejection that names its kind, and the child answers nothing from then
    on, whatever arrives, a later [init] included. *)
Theorem wrong_first_message_silences_child {State : Type}
    (service : RemoteEditorService.EditorService State)
    (stackTrace : string -> string) (m : RemoteEditorService.RequestWrapper)
    (es : list ServerNotions.Event)
    (Hkind : RemoteEditorService.kind (RemoteEditorService.value m) <> "init") :
  ServerNotions.run service stackTrace es
    (RemoteEditorService.onMessage service stackTrace m RemoteEditorService.start)
  = RemoteEditorService.mkProcess RemoteEditorService.Deaf []
      [Channel.mkResponse (RemoteEditorService.id m)
         (Channel.Rejection
            ("Expected first message to be 'init', got "
             +:+ RemoteEditorService.kind (RemoteEditorService.value m)))].
Proof.
  unfold RemoteEditorService.onMessage.
  cbn [RemoteEditorService.listener RemoteEditorService.start].
  destruct (RemoteEditorService.value m) eqn:E; try done;
    by apply run_deaf.
Qed.

Lemma wrong_first_message_silences_child_witness :
  ServerNotions.run ServerSamples.memo ServerSamples.traces
    [ServerNotions.Message
       (RemoteEditorService.mkRequest 1 (RemoteEditorService.InitRequest "/srv"));
     ServerNotions.Message
       (RemoteEditorService.mkRequest 2 RemoteEditorService.ClearCachesRequest);
     ServerNotions.Finish 0]
    (RemoteEditorService.onMessage ServerSamples.memo ServerSamples.traces
       (RemoteEditorService.mkRequest 0
          (RemoteEditorService.GetWarningsRequest "a.html"))
       RemoteEditorService.start)
  = RemoteEditorService.mkProcess RemoteEditorService.Deaf []
      [Channel.mkResponse 0
         (Channel.Rejection
            "Expected first message to be 'init', got getWarningsFor")].
Proof.
  apply (wrong_first_message_silences_child ServerSamples.memo
           ServerSamples.traces
           (RemoteEditorService.mkRequest 0
              (RemoteEditorService.GetWarningsRequest "a.html"))).
  vm_compute. discriminate.
Defined.

(** ** Parent and child together *)
Section SystemFacts.
Import RemoteEditorService ServerNotions ChannelNotions.
Context {State : Type}.
Variable service : EditorService State.
Variable stackTrace : string -> string.

Lemma getSettledValue_answered m s :
  is_Some (outcome (getSettledValue service stackTrace m s).1).
Proof.
  unfold getSettledValue.
  by destruct (handleMessage service stackTrace m s) as [[e|v] s'].
Qed.

Lemma initPending_boot basedir : initPending (State := State) (boot basedir).
Proof.
  split; [|split].
  - apply (numbered_request Channel.create numbered_create).
  - done.
  - cbn. repeat split. exists basedir, []. by split.
Qed.

Lemma initPending_step sys e :
  initPending sys ->
  exists sys', systemStep service stackTrace sys e = inr sys' /\ initPending sys'.
Proof.
  intros Hinv. pose proof Hinv as (Hn & H0 & Hw).
  destruct e as [req| |i|]; cbn [systemStep].
  - eexists. split; [reflexivity|].
    assert (Hlen : (0 < length (Channel.deferreds (_channel (parent sys))))%nat)
      by (by eapply lookup_lt_Some).
    assert (Hid : Channel._idCounter (_channel (parent sys)) <> 0%Z)
      by (destruct Hn as (-> & _); lia).
    unfold request.
    destruct (Channel.request (_channel (parent sys))) as [[i d] ch'] eqn:E.
    assert (Hch : ch' = (Channel.request (_channel (parent sys))).2)
      by (by rewrite E).
    assert (Hi : i = Channel._idCounter (_channel (parent sys)))
      by (by injection E as <- _ _).
    split; [|split]; cbn [parent child _channel outbox snd].
    + rewrite Hch. by apply numbered_request.
    + rewrite Hch. unfold Channel.request. cbn [snd Channel.deferreds].
      by rewrite lookup_app_l.
    + destruct (listener (child sys)); [|destruct Hw as (Ho & Hw1 & Hw2)|done].
      * destruct Hw as (Hw1 & Hw2 & basedir & rest & -> & Hrest).
        repeat split; try done. exists basedir, (rest ++ [mkRequest i req]).
        split; [done|]. apply Forall_app. split; [done|].
        apply Forall_singleton. cbn. by rewrite Hi.
      * repeat split; try done. apply Forall_app. split; [done|].
        apply Forall_singleton. cbn. by rewrite Hi.
  - destruct (outbox (parent sys)) as [|m rest] eqn:Eo.
    { eexists. split; [reflexivity|]. exact Hinv. }
    eexists. split; [reflexivity|].
    split; [exact Hn|split; [exact H0|]]. cbn [parent child outbox].
    unfold onMessage.
    destruct (listener (child sys)) as [|s|]; [|destruct Hw as (Ho & Hw1 & Hw2)|done].
    + destruct Hw as (-> & -> & basedir & rest' & [= -> ->] & Hrest).
      cbn. by repeat split.
    + pose proof (getSettledValue_answered (value m) s) as Hs.
      destruct (getSettledValue service stackTrace (value m) s) as [result s'].
      cbn [listener waiting sent]. apply Forall_cons in Ho as [Hm Ho].
      repeat split; try done. apply Forall_app. split; [done|].
      apply Forall_singleton. by split.
  - eexists. split; [reflexivity|].
    split; [exact Hn|split; [exact H0|]]. cbn [parent child].
    unfold finish. destruct (waiting (child sys) !! i) as [r|] eqn:E;
      cbn [default]; [|exact Hw]. cbn [listener waiting sent].
    destruct (listener (child sys)); [|destruct Hw as (Ho & Hw1 & Hw2)|done].
    + destruct Hw as (Hw & _). by rewrite Hw in E.
    + repeat split; try done.
      * by apply Forall_delete.
      * apply Forall_app. split; [done|]. apply Forall_singleton.
        exact (Forall_lookup_1 _ _ _ _ Hw1 E).
  - destruct (sent (child sys)) as [|m rest] eqn:Es.
    { eexists. split; [reflexivity|]. exact Hinv. }
    assert (Hm : answered m /\ Forall answered rest
                 /\ exists s, listener (child sys) = Serving s).
    { destruct (listener (child sys)) as [|s|]; [|destruct Hw as (Ho & Hw1 & Hw2)|done].
      - by destruct Hw as (_ & [=] & _).
      - apply Forall_cons in Hw2 as [? ?].
        split; [done|split; [done|by eexists]]. }
    destruct Hm as ((Hid & Hv) & Hrest & s & Hl).
    unfold onResponse, SelfChannel._handleResponse.
    destruct (Channel._handleResponse m (_channel (parent sys))) as [err|ch'] eqn:E.
    { exfalso. revert E. unfold Channel._handleResponse.
      destruct (Channel._outstandingRequests _ !! Channel.id m); [|done].
      destruct (Channel.value m); try done. by destruct Hv. }
    eexists. split; [reflexivity|].
    split; [|split]; cbn [parent child _channel outbox listener waiting sent].
    + by eapply numbered_handleResponse.
    + revert E. unfold Channel._handleResponse.
      destruct Hn as (_ & _ & Hmap). rewrite Hmap.
      case_bool_decide; [|by intros [= <-]].
      destruct (Channel.value m); intros [= <-]; try done;
        (rewrite settle_other; [done|lia]).
    + rewrite Hl in Hw |- *. destruct Hw as (Ho & Hw1 & _). by repeat split.
Qed.

Lemma initPending_run es sys :
  initPending sys ->
  exists sys', systemRun service stackTrace es sys = inr sys' /\ initPending sys'.
Proof.
  revert sys. induction es as [|e es IH]; intros sys H; cbn.
  - by exists sys.
  - destruct (initPending_step sys e H) as (sys1 & -> & H1). by apply IH.
Qed.

End SystemFacts.

(** X5. The request [init] that the constructor of the remote editor
    service sends is never answered: whatever methods are called and in
    whatever order messages travel and the server finishes its work, the
    listener of the channel never throws and the promise of that first
    request stays pending. *)
Theorem init_request_never_settles {State : Type}
    (service : RemoteEditorService.EditorService State)
    (stackTrace : string -> string) (basedir : string)
    (es : list ServerNotions.SystemEvent) :
  exists sys,
    ServerNotions.systemRun service stackTrace es (ServerNotions.boot basedir)
    = inr sys
    /\ ChannelNotions.promiseOf
         (RemoteEditorService._channel (ServerNotions.parent sys)) 0
       = Some Channel.Pending.
Proof.
  destruct (initPending_run service stackTrace es _ (initPending_boot basedir))
    as (sys & Hrun & Hn & H0 & _).
  exists sys. split; [exact Hrun|].
  rewrite (promiseOf_numbered _ _ Hn). rewrite bool_decide_true; [done|].
  apply lookup_lt_Some in H0. lia.
Qed.

(** X6. A request makes the round trip: when a method of the remote editor
    service is called while nothing is on its way, the message reaches the
    serving child, the server handles it and the response comes back, then
    the promise of that call is resolved with the value the server got, or
    rejected with the text of what it threw, and the promises of all other
    calls are as before. *)
Theorem request_round_trip {State : Type}
    (service : RemoteEditorService.EditorService State)
    (stackTrace : string -> string) (req : RemoteEditorService.Request)
    (s : RemoteEditorService.t) (server : State)
    (Hidle : RemoteEditorService.outbox s = []) :
  let sys := ServerNotions.mkSystem s
               (RemoteEditorService.mkProcess
                  (RemoteEditorService.Serving server) [] []) in
  let deferred := (RemoteEditorService.request req s).1 in
  let handled := RemoteEditorService.handleMessage service stackTrace req server in
  exists sys',
    ServerNotions.systemRun service stackTrace
      [ServerNotions.Call req; ServerNotions.ChildReceives;
       ServerNotions.ChildFinishes 0; ServerNotions.ParentReceives] sys
    = inr sys'
    /\ Channel.deferreds (RemoteEditorService._channel (ServerNotions.parent sys'))
         !! deferred
       = Some (match handled.1 with
               | inr value => Channel.Resolved value
               | inl e => Channel.Rejected (RemoteEditorService.rejectionText e)
               end)
    /\ (forall d, d <> deferred ->
          Channel.deferreds (RemoteEditorService._channel (ServerNotions.parent sys'))
            !! d
          = Channel.deferreds (RemoteEditorService._channel s) !! d)
    /\ ServerNotions.child sys'
       = RemoteEditorService.mkProcess
           (RemoteEditorService.Serving handled.2) [] []
    /\ RemoteEditorService.outbox (ServerNotions.parent sys') = [].
Proof.
  intros sys deferred handled.
  set (ch := RemoteEditorService._channel s).
  set (n := length (Channel.deferreds ch)).
  set (result := match handled.1 with
                 | inr value => Channel.Resolved value
                 | inl e => Channel.Rejected (RemoteEditorService.rejectionText e)
                 end).
  set (ch1 := (Channel.request ch).2).
  assert (Hpending : Channel.deferreds ch1 !! n = Some Channel.Pending).
  { unfold ch1, Channel.request. cbn [snd Channel.deferreds].
    by rewrite lookup_app_r, Nat.sub_diag. }
  assert (Hlookup : Channel._outstandingRequests ch1 !! Channel._idCounter ch
                    = Some n).
  { unfold ch1, Channel.request. cbn [snd Channel._outstandingRequests].
    by rewrite lookup_insert_eq. }
  exists (ServerNotions.mkSystem
            (RemoteEditorService.mkRemote (Channel.settle n result ch1) [])
            (RemoteEditorService.mkProcess
               (RemoteEditorService.Serving handled.2) [] [])).
  assert (Hd : deferred = n) by done.
  split; [|split; [|split; [|split]]]; try done.
  - unfold sys. cbn [ServerNotions.systemRun ServerNotions.systemStep
                     ServerNotions.parent ServerNotions.child].
    unfold RemoteEditorService.request. fold ch.
    change (Channel.request ch) with (Channel._idCounter ch, n, ch1).
    rewrite Hidle.
    cbn [snd app RemoteEditorService.outbox RemoteEditorService._channel
         RemoteEditorService.onMessage RemoteEditorService.listener
         RemoteEditorService.value RemoteEditorService.id
         RemoteEditorService.waiting RemoteEditorService.sent].
    unfold RemoteEditorService.getSettledValue. fold handled.
    unfold result. destruct handled as [[e|v] server'];
      cbn [fst snd app RemoteEditorService.finish RemoteEditorService.waiting
           RemoteEditorService.sent RemoteEditorService.listener
           lookup list_lookup from_option id delete list_delete
           ServerNotions.child ServerNotions.parent];
      unfold RemoteEditorService.onResponse, SelfChannel._handleResponse,
             Channel._handleResponse;
      cbn [Channel.id Channel.value RemoteEditorService._channel];
      rewrite Hlookup; done.
  - cbn [ServerNotions.parent RemoteEditorService._channel]. rewrite Hd.
    by apply settle_pending_deferred.
  - intros d Hne. cbn [ServerNotions.parent RemoteEditorService._channel].
    rewrite settle_other by (by rewrite <- Hd).
    unfold ch1, Channel.request. cbn [snd Channel.deferreds].
    destruct (decide (d < n)%nat); [by rewrite lookup_app_l|].
    rewrite !lookup_ge_None_2; [done| |]; [unfold n in *; lia|].
    rewrite length_app. cbn. rewrite Hd in Hne. unfold n in *. lia.
Qed.

Lemma request_round_trip_witness :
  exists sys',
    ServerNotions.systemRun ServerSamples.memo ServerSamples.traces
      [ServerNotions.Call (RemoteEditorService.GetWarningsRequest "a.html");
       ServerNotions.ChildReceives; ServerNotions.ChildFinishes 0;
       ServerNotions.ParentReceives]
      (ServerNotions.mkSystem
         (RemoteEditorService.mkRemote
            (Channel.request Channel.create).2 [])
         (RemoteEditorService.mkProcess
            (RemoteEditorService.Serving [("a.html", "<p")]) [] []))
    = inr sys'
    /\ Channel.deferreds (RemoteEditorService._channel (ServerNotions.parent sys'))
       = [Channel.Pending; Channel.Resolved "[ 'stray <' ]"].
Proof.
  destruct (request_round_trip ServerSamples.memo ServerSamples.traces
              (RemoteEditorService.GetWarningsRequest "a.html")
              (RemoteEditorService.mkRemote (Channel.request Channel.create).2 [])
              [("a.html", "<p")] eq_refl) as (sys' & Hrun & _).
  exists sys'. split; [exact Hrun|].
  vm_compute in Hrun. by injection Hrun as <-.
Defined.
(** ** The analysis of a root document *)
Section RootFacts.
Import Analyzer RootNotions.
Variable env : Env.

Ltac fields :=
  cbv beta iota zeta delta
      [with_parsed with_scanned with_telemetry with_promises with_reactions
       with_jobs with_activations with_documents with_calls newPromise enqueue
       record telemetry_start];
  cbn [_parsedDocuments _scannedDocuments _telemetryTracker promises reactions
       jobs activations documents calls fst snd].

Ltac acts :=
  cbv beta iota zeta delta
      [act_set_slots act_set_features act_set_warnings push_warning fill_slot
       link];
  cbn [act_document act_locationOffset act_attachedComment act_features
       act_warnings act_slots act_promise].

(** The state of a new analyzer when [analyzeRoot] returns: the promise of
    the scan is cached, its function is queued, the promise of the call of
    [_scanResolved] follows it, and the caller waits for that one. *)
Lemma analyzeRoot_create url contents :
  analyzeRoot env url contents create
  = (2%nat,
     mkAnalyzer ∅ (<[_resolveUrl env url := 1%nat]> ∅) []
                [Pending; Pending; Pending]
                [(1%nat, KReturn 0); (0%nat, KAnalyzeRoot url 2)]
                [JScanResolved (_resolveUrl env url) contents 1] [] [] []).
Proof.
  unfold analyzeRoot. set (u := _resolveUrl env url).
  assert (Hevict :
    match contents with
    | Some _ => with_parsed (delete u (_parsedDocuments
                  (with_scanned (delete u (_scannedDocuments create)) create)))
                  (with_scanned (delete u (_scannedDocuments create)) create)
    | None => create
    end = create).
  { destruct contents; [|done]. unfold create. fields.
    by rewrite !delete_empty. }
  rewrite Hevict. rewrite scanResolved_miss by apply lookup_empty.
  done.
Qed.

Lemma settle_woken p s a :
  promises a !! p = Some Pending ->
  settle p s a
  = mkAnalyzer (_parsedDocuments a) (_scannedDocuments a) (_telemetryTracker a)
      (<[p := Done s]> (promises a))
      (List.filter (fun r => negb (waitingOn p r)) (reactions a))
      (jobs a ++ map (fun r : PromiseRef * Cont => JResume r.2 s)
                     (List.filter (waitingOn p) (reactions a)))
      (activations a) (documents a) (calls a).
Proof. unfold settle. by intros ->. Qed.

Lemma waitingOn_eq p k : waitingOn p (p, k) = true.
Proof. unfold waitingOn. by rewrite bool_decide_true. Qed.

Lemma waitingOn_ne p q k : q <> p -> waitingOn p (q, k) = false.
Proof. intros H. unfold waitingOn. by rewrite bool_decide_false. Qed.

Ltac wake :=
  rewrite settle_woken by done; fields; unfold List.filter; cbv beta iota;
  rewrite ?waitingOn_eq; rewrite ?waitingOn_ne by done;
  cbv beta iota delta [negb]; cbn [map app snd fst insert list_insert].

Ltac wait :=
  unfold return_, await; fields; cbn [app lookup list_lookup length]; fields.

Lemma step_head j js a :
  jobs a = j :: js -> step_at env 0 a = Some (run_job env j (with_jobs js a)).
Proof. unfold step_at. by intros ->. Qed.

Lemma step_none a : jobs a = [] -> step_at env 0 a = None.
Proof. unfold step_at. by intros ->. Qed.

Lemma run_S n a :
  run env (S n) a
  = match step_at env 0 a with Some a' => run env n a' | None => a end.
Proof. done. Qed.

Ltac turn :=
  fields; rewrite run_S;
  first [ erewrite step_head; [|reflexivity]
        | rewrite step_none by reflexivity ];
  cbv beta iota delta [run_job resume]; fields.

(** The turns of the job queue for a root that the loader cannot load. *)
Lemma cannot_load_run url contents :
  canLoad (_loader env) (_resolveUrl env url) = false ->
  let failure :=
    Done (Rejected (Error ("Can't load URL: " +:+ _resolveUrl env url) "")) in
  run env 4 (asked env url contents)
  = mkAnalyzer ∅ (<[_resolveUrl env url := 1%nat]> ∅) []
      [failure; failure; failure; failure] [] [] [] [] [].
Proof.
  intros Hcan failure. subst failure. unfold asked. rewrite analyzeRoot_create.
  set (u := _resolveUrl env url) in *.
  turn. rewrite loadResolved_throws by (try apply lookup_empty; done).
  fields. cbn [length]. wake. wait.
  turn. wake. turn. wake. turn. wake. done.
Qed.

Lemma run_idle n a : step_at env 0 a = None -> run env n a = a.
Proof. intros H. destruct n; cbn; [done|]. by rewrite H. Qed.

Lemma run_add n m a : run env (n + m) a = run env m (run env n a).
Proof.
  revert a. induction n as [|n IH]; intros a; cbn [run Nat.add]; [done|].
  destruct (step_at env 0 a) as [a'|] eqn:E; [apply IH|].
  by rewrite run_idle.
Qed.

(** The result of [_parse] does not depend on the state of the analyzer,
    which only keeps a record of the call. *)
Lemma parse_result type contents url a :
  (_parse env type contents url a).1 = (_parse env type contents url create).1.
Proof.
  unfold _parse. destruct (_parsers env !! type) as [parser|]; [|done].
  by destruct (parse parser contents url) as [[]|].
Qed.

Lemma parse_state type contents url a :
  (_parse env type contents url a).2
  = match _parsers env !! type with
    | Some _ => record (CallParse type contents url) a
    | None => a
    end.
Proof.
  unfold _parse. destruct (_parsers env !! type) as [parser|]; [|done].
  by destruct (parse parser contents url) as [[]|].
Qed.

(** Nor does the answer of the scan driver, of which the analyzer keeps a
    record when it is asked. *)
Lemma getScannedFeatures_featuresOf document a :
  _getScannedFeatures env document a
  = (match featuresOf env document with
     | inr fs => Fulfilled (VFeatures fs)
     | inl e => Rejected e
     end,
     with_calls (calls a ++ scanCalls env document) a).
Proof.
  unfold featuresOf, scanCalls, _getScannedFeatures.
  destruct (scanners env !! type document) as [ss|].
  - by destruct (scan env document ss).
  - cbn. rewrite app_nil_r. by destruct a.
Qed.

Lemma scanCalls_cases document :
  scanCalls env document
  = match scanners env !! type document with
    | Some _ => [CallScan document]
    | None => []
    end.
Proof.
  unfold scanCalls, _getScannedFeatures.
  by destruct (scanners env !! type document).
Qed.

Lemma offsetFeature_isDependency offset f :
  isDependency (offsetFeature env offset f) = isDependency f.
Proof. by destruct f. Qed.

Lemma dependencyIndices_none fs i :
  Forall (fun f => isDependency f = false) fs -> dependencyIndices fs i = [].
Proof.
  intros H. revert i. induction H as [|f fs Hf _ IH]; intros i; cbn; [done|].
  rewrite Hf. apply IH.
Qed.

Lemma scannedFeatures_none offset comment fs :
  Forall (fun f => isDependency f = false) fs ->
  Forall (fun f => isDependency f = false)
         (commentFirst env comment (map (offsetFeature env offset) fs)).
Proof.
  intros H.
  assert (H1 : Forall (fun f => isDependency f = false)
                      (map (offsetFeature env offset) fs)).
  { apply Forall_map. eapply Forall_impl; [exact H|].
    intros f Hf. cbn. by rewrite offsetFeature_isDependency. }
  destruct H1 as [|[] fs' Hf Hfs]; cbn; try done; by constructor.
Qed.

Ltac parsing Hparse :=
  unfold loadResolved_parse, loaded; cbv zeta;
  match goal with
  |- context [_parse env ?ext ?content ?u (telemetry_start ?x ?y ?z)] =>
    let A := fresh "A" in
    let Hr := fresh "Hr" in
    let Hs := fresh "Hs" in
    let E := fresh "E" in
    set (A := telemetry_start x y z);
    pose proof (parse_result ext content u A) as Hr;
    pose proof (parse_state ext content u A) as Hs;
    destruct (_parse env ext content u A) as [? ?] eqn:E;
    cbn [fst snd] in Hr, Hs; rewrite Hparse in Hr; subst; subst A; clear E
  end.


Lemma parser_known type contents url document :
  (_parse env type contents url create).1 = inr document ->
  is_Some (_parsers env !! type).
Proof. unfold _parse. by destruct (_parsers env !! type). Qed.


(** The same when both succeed and the features name no other document. *)
Lemma leaf_scanned url content cs document fs :
  let u := _resolveUrl env url in
  let ext := Js.substring1 (extname env u) in
  (_parse env ext content u create).1 = inr document ->
  featuresOf env document = inr fs ->
  Forall (fun f => isDependency f = false) fs ->
  run env 5 (loadResolved_parse env u content 4 (loaded env url cs))
  = mkAnalyzer (<[u := 4%nat]> ∅) (<[u := 1%nat]> ∅)
      [("parse", "resolvedUrl"); ("Document.makeRootDocument", url)]
      [Done (Fulfilled (VScanned 0)); Done (Fulfilled (VScanned 0));
       Done (Fulfilled (VDocument 0));
       Done (Fulfilled (VParsed document)); Done (Fulfilled (VParsed document))]
      [] []
      [mkAct document (mkOffset 0 0 (Some (Analyzer.url document))) None
             (features (leaf env document fs)) [] [] 1]
      [leaf env document fs]
      (cs ++ [CallParse ext content u] ++ scanCalls env document).
Proof.
  intros u ext Hparse Hscan Hleaf.
  destruct (parser_known _ _ _ _ Hparse) as [parser Hp].
  subst ext. parsing Hparse. rewrite Hp.
  fields. wake. turn. wake. turn. unfold _scanDocument. fields.
  rewrite getScannedFeatures_featuresOf, Hscan.
  turn. unfold resume_scanDocument. fields.
  cbn [app lookup list_lookup length from_option id act_attachedComment
       act_locationOffset act_document].
  rewrite (dependencyIndices_none _ 0
             (scannedFeatures_none _ None _ Hleaf)).
  cbn [length replicate startDependencies].
  unfold update_act. fields. cbn [alter list_alter]. acts.
  unfold complete. fields. cbn [lookup list_lookup]. acts.
  cbn [lookup list_lookup mapM mret option_ret omap list_omap app length].
  wake. turn. wake. turn. wake. by rewrite <- app_assoc.
Qed.

(** The turns up to the content of the root document. *)
Lemma content_given url content :
  canLoad (_loader env) (_resolveUrl env url) = true ->
  run env 2 (asked env url (Some content))
  = loadResolved_parse env (_resolveUrl env url) content 4 (loaded env url []).
Proof.
  intros Hcan. unfold asked. rewrite analyzeRoot_create.
  turn. rewrite loadResolved_miss by (try apply lookup_empty; done).
  fields. wait. turn. done.
Qed.

Lemma content_loaded url :
  canLoad (_loader env) (_resolveUrl env url) = true ->
  run env 3 (asked env url None)
  = match load (_loader env) (_resolveUrl env url) with
    | inr content =>
        loadResolved_parse env (_resolveUrl env url) content 4
          (loaded env url [CallLoad (_resolveUrl env url)])
    | inl e =>
        mkAnalyzer (<[_resolveUrl env url := 4%nat]> ∅)
          (<[_resolveUrl env url := 1%nat]> ∅) []
          [Pending; Pending; Pending; Pending; Done (Rejected e)]
          [(1%nat, KReturn 0); (0%nat, KAnalyzeRoot url 2);
           (3%nat, KScanResolved 1)]
          [JResume (KReturn 3) (Rejected e)] [] []
          [CallLoad (_resolveUrl env url)]
    end.
Proof.
  intros Hcan. unfold asked. rewrite analyzeRoot_create.
  turn. rewrite loadResolved_miss by (try apply lookup_empty; done).
  fields. wait. turn. unfold run_loadResolved. fields. cbn [app].
  destruct (load (_loader env) (_resolveUrl env url)) as [e|content].
  - turn. wake. done.
  - turn. done.
Qed.


Lemma scanned_dependencyIndices offset comment fs i :
  dependencyIndices (commentFirst env comment (map (offsetFeature env offset) fs)) i
  = dependencyIndices fs i.
Proof.
  assert (Hmap : forall l k, dependencyIndices (map (offsetFeature env offset) l) k
                             = dependencyIndices l k).
  { induction l as [|f l IH]; intros k; cbn; [done|].
    rewrite offsetFeature_isDependency. by rewrite IH. }
  rewrite <- (Hmap fs i).
  by destruct (map (offsetFeature env offset) fs) as [|[] l].
Qed.

Lemma scanned_import offset comment fs i scannedImport :
  fs !! i = Some (FImport scannedImport) ->
  commentFirst env comment (map (offsetFeature env offset) fs) !! i
  = Some (FImport scannedImport).
Proof.
  intros H.
  assert (Hmap : map (offsetFeature env offset) fs !! i
                 = Some (FImport scannedImport)).
  { change (map ?f fs) with (f <$> fs). by rewrite list_lookup_fmap, H. }
  destruct (map (offsetFeature env offset) fs) as [|[] l]; try done.
  destruct i; [done|exact Hmap].
Qed.

(** From the content of a document whose one dependency is an import of
    the document itself: the scan waits for its own promise. *)
Lemma self_import_waits url content cs document fs i scannedImport :
  let u := _resolveUrl env url in
  let ext := Js.substring1 (extname env u) in
  let offset := mkOffset 0 0 (Some (Analyzer.url document)) in
  let scannedFeatures := commentFirst env None (map (offsetFeature env offset) fs) in
  (_parse env ext content u create).1 = inr document ->
  featuresOf env document = inr fs ->
  dependencyIndices fs 0 = [i] ->
  fs !! i = Some (FImport scannedImport) ->
  _resolveUrl env (imp_url scannedImport) = u ->
  run env 3 (loadResolved_parse env u content 4 (loaded env url cs))
  = mkAnalyzer (<[u := 4%nat]> ∅) (<[u := 1%nat]> ∅) [("parse", "resolvedUrl")]
      [Pending; Pending; Pending;
       Done (Fulfilled (VParsed document)); Done (Fulfilled (VParsed document));
       Pending]
      [(1%nat, KReturn 0); (0%nat, KAnalyzeRoot url 2);
       (1%nat, KReturn 5); (5%nat, KScanImport 0 0 i)] []
      [mkAct document offset None scannedFeatures [] [None] 1]
      []
      (cs ++ [CallParse ext content u] ++ scanCalls env document).
Proof.
  intros u ext offset scannedFeatures Hparse Hscan Hdeps Hi Hself.
  destruct (parser_known _ _ _ _ Hparse) as [parser Hp].
  subst ext. parsing Hparse. rewrite Hp.
  fields. wake. turn. wake. turn. unfold _scanDocument. fields.
  rewrite getScannedFeatures_featuresOf, Hscan.
  turn. unfold resume_scanDocument. fields.
  cbn [app lookup list_lookup length from_option id act_attachedComment
       act_locationOffset act_document].
  rewrite scanned_dependencyIndices, Hdeps.
  cbn [length replicate startDependencies].
  rewrite (scanned_import _ _ _ _ _ Hi).
  unfold update_act. fields. cbn [alter list_alter]. acts.
  unfold _scanImport. rewrite Hself.
  erewrite scanResolved_hit; [|fields; apply lookup_insert_eq].
  fields. cbn [length]. wait. wait.
  unfold complete. fields. cbn [lookup list_lookup]. acts.
  cbn [lookup list_lookup mapM mbind option_bind id].
  by rewrite <- app_assoc.
Qed.

Lemma self_import_lone url content cs document fs i scannedImport k :
  let u := _resolveUrl env url in
  let ext := Js.substring1 (extname env u) in
  (_parse env ext content u create).1 = inr document ->
  featuresOf env document = inr fs ->
  dependencyIndices fs 0 = [i] ->
  fs !! i = Some (FImport scannedImport) ->
  _resolveUrl env (imp_url scannedImport) = u ->
  lone (run env k (loadResolved_parse env u content 4 (loaded env url cs))).
Proof.
  intros u ext Hparse Hscan Hdeps Hi Hself. subst u ext.
  destruct k as [|[|[|k]]].
  - destruct (parser_known _ _ _ _ Hparse) as [parser Hp].
    parsing Hparse. rewrite Hp. fields. wake. cbn [run].
    split; cbn; [lia|done].
  - destruct (parser_known _ _ _ _ Hparse) as [parser Hp].
    parsing Hparse. rewrite Hp.
    fields. wake. turn. wake.
    split; cbn; [lia|done].
  - destruct (parser_known _ _ _ _ Hparse) as [parser Hp].
    parsing Hparse. rewrite Hp.
    fields. wake. turn. wake. turn. unfold _scanDocument. fields.
    rewrite getScannedFeatures_featuresOf. fields.
    split; cbn; [lia|done].
  - change (S (S (S k))) with (3 + k)%nat.
    rewrite run_add,
      (self_import_waits url content cs document fs i scannedImport
         Hparse Hscan Hdeps Hi Hself).
    rewrite run_idle by done. split; cbn; [lia|done].
Qed.

(** While the queue never holds more than one job, every order of running
    the jobs is the order first in, first out. *)
Lemma lone_schedule a schedule a' :
  (forall k, (length (jobs (run env k a)) <= 1)%nat) ->
  run_schedule env schedule a = Some a' ->
  a' = run env (length schedule) a.
Proof.
  revert a. induction schedule as [|j schedule IH]; intros a Hlone; cbn.
  - by intros [= <-].
  - destruct (step_at env j a) as [a1|] eqn:Hstep; [|done].
    assert (Hj : j = 0%nat).
    { unfold step_at in Hstep. destruct (jobs a !! j) eqn:E; [|done].
      apply lookup_lt_Some in E. specialize (Hlone 0%nat). cbn in Hlone. lia. }
    subst j. rewrite Hstep. apply IH. intros k.
    specialize (Hlone (S k)). cbn in Hlone. by rewrite Hstep in Hlone.
Qed.

Lemma self_import_run url contents document fs i scannedImport k :
  canLoad (_loader env) (_resolveUrl env url) = true ->
  stages env (_resolveUrl env url) contents = inr (document, fs) ->
  dependencyIndices fs 0 = [i] ->
  fs !! i = Some (FImport scannedImport) ->
  _resolveUrl env (imp_url scannedImport) = _resolveUrl env url ->
  lone (run env k (asked env url contents)).
Proof.
  intros Hcan Hok Hdeps Hi Hself. unfold stages in Hok.
  assert (H01 : forall c, lone (asked env url c)
                          /\ lone (run env 1 (asked env url c))).
  { intros c. unfold asked. rewrite analyzeRoot_create. split.
    - split; cbn; [lia|done].
    - turn. rewrite loadResolved_miss by (try apply lookup_empty; done).
      fields. wait. split; cbn; [lia|done]. }
  destruct contents as [content|].
  - destruct (_parse env _ content _ create).1 as [|document'] eqn:Hparse;
      [done|].
    destruct (featuresOf env document') as [|fs'] eqn:Hscan; [done|].
    injection Hok as -> ->.
    destruct k as [|[|k]]; [apply H01|apply H01|].
    change (S (S k)) with (2 + k)%nat. rewrite run_add, content_given by done.
    by eapply self_import_lone.
  - destruct (load (_loader env) _) as [|content] eqn:Hload; [done|].
    destruct (_parse env _ content _ create).1 as [|document'] eqn:Hparse;
      [done|].
    destruct (featuresOf env document') as [|fs'] eqn:Hscan; [done|].
    injection Hok as -> ->.
    destruct k as [|[|[|k]]]; [apply H01|apply H01| |].
    + unfold asked. rewrite analyzeRoot_create.
      turn. rewrite loadResolved_miss by (try apply lookup_empty; done).
      fields. wait. turn. unfold run_loadResolved. fields.
      split; cbn; [lia|done].
    + change (S (S (S k))) with (3 + k)%nat.
      rewrite run_add, content_loaded, Hload by done.
      by eapply self_import_lone.
Qed.

(** From the content of a document whose one dependency is an import of
    another document, which has no dependency: the other document is
    loaded, parsed and scanned, and the import is resolved to it. *)
Lemma one_import_resolved url content cs document fs i scannedImport
    content' document' fs' :
  let u := _resolveUrl env url in
  let u' := _resolveUrl env (imp_url scannedImport) in
  let ext := Js.substring1 (extname env u) in
  let ext' := Js.substring1 (extname env u') in
  let offset := mkOffset 0 0 (Some (Analyzer.url document)) in
  let scannedFeatures := commentFirst env None (map (offsetFeature env offset) fs) in
  (_parse env ext content u create).1 = inr document ->
  featuresOf env document = inr fs ->
  dependencyIndices fs 0 = [i] ->
  fs !! i = Some (FImport scannedImport) ->
  u' <> u ->
  canLoad (_loader env) u' = true ->
  load (_loader env) u' = inr content' ->
  (_parse env ext' content' u' create).1 = inr document' ->
  featuresOf env document' = inr fs' ->
  Forall (fun f => isDependency f = false) fs' ->
  let a := run env 13 (loadResolved_parse env u content 4 (loaded env url cs)) in
  jobs a = [] /\ reactions a = []
  /\ promises a !! 2%nat = Some (Done (Fulfilled (VDocument 1)))
  /\ documents a
     = [leaf env document' fs';
        mkScanned document [0%nat]
                  (alter (link_feature 0) i scannedFeatures) offset [] false]
  /\ calls a = cs ++ [CallParse ext content u] ++ scanCalls env document
                  ++ [CallLoad u'; CallParse ext' content' u']
                  ++ scanCalls env document'.
Proof.
  intros u u' ext ext' offset scannedFeatures Hparse Hscan Hdeps Hi Hne
         Hcan' Hload' Hparse' Hscan' Hleaf' a.
  subst a u ext offset scannedFeatures.
  destruct (parser_known _ _ _ _ Hparse) as [parser Hp].
  destruct (parser_known _ _ _ _ Hparse') as [parser' Hp'].
  parsing Hparse. rewrite Hp.
  fields. wake. turn. wake. turn. unfold _scanDocument. fields.
  rewrite getScannedFeatures_featuresOf, Hscan.
  turn. unfold resume_scanDocument. fields.
  cbn [app lookup list_lookup length from_option id act_attachedComment
       act_locationOffset act_document].
  rewrite scanned_dependencyIndices, Hdeps.
  cbn [length replicate startDependencies].
  rewrite (scanned_import _ _ _ _ _ Hi).
  unfold update_act. fields. cbn [alter list_alter]. acts.
  unfold _scanImport. fold u'.
  rewrite scanResolved_miss
    by (fields; rewrite lookup_insert_ne by done; apply lookup_empty).
  fields. cbn [length app]. wait.
  unfold complete. fields. cbn [lookup list_lookup]. acts.
  cbn [lookup list_lookup mapM mbind option_bind id].
  turn.
  rewrite loadResolved_miss
    by (fields; try (rewrite lookup_insert_ne by done; apply lookup_empty); done).
  fields. cbn [length app]. wait.
  turn. unfold run_loadResolved. fields. rewrite Hload'.
  turn. subst ext'. parsing Hparse'. rewrite Hp'.
  fields. wake. turn. wake. turn. unfold _scanDocument. fields.
  rewrite getScannedFeatures_featuresOf, Hscan'.
  turn. unfold resume_scanDocument. fields.
  cbn [app lookup list_lookup length from_option id act_attachedComment
       act_locationOffset act_document].
  rewrite (dependencyIndices_none _ 0 (scannedFeatures_none _ None _ Hleaf')).
  cbn [length replicate startDependencies].
  unfold update_act. fields. cbn [alter list_alter]. acts.
  unfold complete. fields. cbn [lookup list_lookup]. acts.
  cbn [lookup list_lookup mapM mret option_ret omap list_omap app length].
  wake. turn. wake. turn. unfold resume_scanImport.
  unfold update_act. fields. cbn [alter list_alter]. acts.
  unfold complete. fields. cbn [lookup list_lookup]. acts.
  cbn [lookup list_lookup insert list_insert].
  change (mapM id [Some (Some 0%nat)]) with (Some [Some 0%nat]).
  cbv beta iota. fields. cbn [omap list_omap length app id].
  wake. turn. wake. turn. wake.
  fields. cbn [run].
  repeat split; try done. by rewrite <- !app_assoc.
Qed.

(** ** A root analyzed again with fresh contents *)

Lemma lookup_past {A} (l r : list A) m k :
  length l = m -> (l ++ r) !! (k + m)%nat = r !! k.
Proof.
  intros <-. rewrite lookup_app_r by lia. f_equal. lia.
Qed.

Lemma insert_past {A} (l r : list A) m k x :
  length l = m -> <[(k + m)%nat := x]> (l ++ r) = l ++ <[k := x]> r.
Proof.
  intros <-. rewrite insert_app_r_alt by lia. do 2 f_equal. lia.
Qed.

(** Nothing waits for a promise that has not been made. *)
Lemma none_waiting p (rs : list (PromiseRef * Cont)) :
  (forall r, r ∈ rs -> (r.1 < p)%nat) ->
  List.filter (waitingOn p) rs = []
  /\ List.filter (fun r => negb (waitingOn p r)) rs = rs.
Proof.
  induction rs as [|r rs IH]; intros H; [done|]. cbn.
  assert (Hr : waitingOn p r = false).
  { unfold waitingOn. apply bool_decide_eq_false.
    specialize (H r ltac:(left)). lia. }
  rewrite Hr. cbn.
  destruct IH as [-> ->]; [|done].
  intros r' Hr'. apply H. by right.
Qed.

(** Fresh contents given for a root when no job is queued: in four turns
    the contents are parsed and the document is handed to the scan driver,
    and the loader is not asked. *)
Lemma fresh_contents_reanalyzed url content a :
  let u := _resolveUrl env url in
  let ext := Js.substring1 (extname env u) in
  AnalyzerNotions.closed a ->
  jobs a = [] ->
  canLoad (_loader env) u = true ->
  let a2 := run env 2 (analyzeRoot env url (Some content) a).2 in
  let a4 := run env 4 (analyzeRoot env url (Some content) a).2 in
  calls a2
  = calls a ++ match _parsers env !! ext with
               | Some _ => [CallParse ext content u]
               | None => []
               end
  /\ forall document,
       (_parse env ext content u create).1 = inr document ->
       calls a4 = calls a ++ [CallParse ext content u] ++ scanCalls env document
       /\ activations a4
          = activations a
            ++ [mkAct document (mkOffset 0 0 (Some (Analyzer.url document)))
                      None [] [] [] (S (length (promises a)))].
Proof.
  intros u ext Hc Hidle Hcan a2 a4.
  destruct Hc as (_ & _ & _ & _ & _ & C6).
  remember (length (promises a)) as m eqn:Hm. symmetry in Hm.
  assert (W : forall k,
            List.filter (waitingOn (k + m)) (reactions a) = []
            /\ List.filter (fun r => negb (waitingOn (k + m) r)) (reactions a)
               = reactions a).
  { intros k. apply none_waiting. intros r Hr. specialize (C6 r Hr). lia. }
  assert (Hasked :
    (analyzeRoot env url (Some content) a).2
    = mkAnalyzer (delete u (_parsedDocuments a))
        (<[u := S m]> (delete u (_scannedDocuments a)))
        (_telemetryTracker a) (promises a ++ [Pending; Pending; Pending])
        (reactions a ++ [(S m, KReturn m); (m, KAnalyzeRoot url (S (S m)))])
        [JScanResolved u (Some content) (S m)]
        (activations a) (documents a) (calls a)).
  { unfold analyzeRoot. fold u.
    rewrite scanResolved_miss by (fields; apply lookup_delete_eq).
    fields. rewrite Hidle. unfold await. fields.
    rewrite <- !app_assoc, !length_app, Hm. cbn [app length].
    rewrite (lookup_past _ _ m 0 Hm). cbn [lookup list_lookup]. fields.
    by replace (m + 2)%nat with (S (S m)) by lia. }
  assert (H1 :
    run env 1 (analyzeRoot env url (Some content) a).2
    = mkAnalyzer (<[u := (4 + m)%nat]> (delete u (_parsedDocuments a)))
        (<[u := S m]> (delete u (_scannedDocuments a)))
        (_telemetryTracker a)
        (promises a ++ [Pending; Pending; Pending; Pending; Pending])
        (reactions a ++ [(S m, KReturn m); (m, KAnalyzeRoot url (S (S m)));
                         ((4 + m)%nat, KReturn (3 + m));
                         ((3 + m)%nat, KScanResolved (S m))])
        [JLoadResolved u (Some content) (4 + m)]
        (activations a) (documents a) (calls a)).
  { rewrite Hasked. turn.
    rewrite loadResolved_miss by (fields; first [apply lookup_delete_eq|exact Hcan]).
    fields. unfold await. fields.
    rewrite <- !app_assoc, !length_app, Hm. cbn [app length].
    replace (m + 3)%nat with (3 + m)%nat by lia.
    rewrite (lookup_past _ _ m 3 Hm). cbn [lookup list_lookup]. fields.
    cbn [run Nat.add]. done. }
  assert (Hparsed : exists ts,
    run env 2 (analyzeRoot env url (Some content) a).2
    = mkAnalyzer (<[u := (4 + m)%nat]> (delete u (_parsedDocuments a)))
        (<[u := S m]> (delete u (_scannedDocuments a))) ts
        (promises a
         ++ [Pending; Pending; Pending; Pending;
             Done (match (_parse env ext content u create).1 with
                   | inr document => Fulfilled (VParsed document)
                   | inl e => Rejected e
                   end)])
        (reactions a ++ [(S m, KReturn m); (m, KAnalyzeRoot url (S (S m)));
                         ((3 + m)%nat, KScanResolved (S m))])
        [JResume (KReturn (3 + m))
                 (match (_parse env ext content u create).1 with
                  | inr document => Fulfilled (VParsed document)
                  | inl e => Rejected e
                  end)]
        (activations a) (documents a)
        (calls a ++ match _parsers env !! ext with
                    | Some _ => [CallParse ext content u]
                    | None => []
                    end)).
  { change 2%nat with (1 + 1)%nat. rewrite run_add, H1. turn.
    unfold run_loadResolved, loadResolved_parse. cbv zeta. fold ext.
    match goal with
    |- context [_parse env ext content u ?A] =>
      pose proof (parse_result ext content u A) as Hr;
      pose proof (parse_state ext content u A) as Hs;
      destruct (_parse env ext content u A) as [res A'];
      cbn [fst snd] in Hr, Hs; subst res A'
    end.
    eexists.
    destruct (_parse env ext content u create).1 as [e|document];
      destruct (_parsers env !! ext);
      (rewrite settle_woken
         by (fields; rewrite (lookup_past _ _ m 4 Hm); reflexivity));
      fields;
      rewrite !List.filter_app, (proj1 (W 4%nat)), (proj2 (W 4%nat));
      cbn [List.filter]; rewrite ?waitingOn_eq;
      rewrite ?waitingOn_ne by (cbn [fst]; lia);
      cbn [negb app map fst snd];
      rewrite (insert_past _ _ m 4 _ Hm); cbn [insert list_insert];
      rewrite ?app_nil_r; cbn [run]; reflexivity. }
  destruct Hparsed as (ts & Hparsed). split.
  { subst a2. by rewrite Hparsed. }
  intros document Hparse. subst a4.
  change 4%nat with (2 + 2)%nat. rewrite run_add, Hparsed, Hparse.
  destruct (parser_known _ _ _ _ Hparse) as [parser ->].
  turn.
  rewrite settle_woken
    by (fields; rewrite (lookup_past _ _ m 3 Hm); reflexivity).
  fields.
  rewrite !List.filter_app, (proj1 (W 3%nat)), (proj2 (W 3%nat)).
  cbn [List.filter]. rewrite ?waitingOn_eq.
  rewrite ?waitingOn_ne by (cbn [fst]; lia).
  cbn [negb app map fst snd].
  turn. unfold _scanDocument. fields.
  rewrite getScannedFeatures_featuresOf. fields. cbn [run].
  fields. split; [by rewrite <- app_assoc|]. by rewrite <- Hm.
Qed.

End RootFacts.

(** X7. A root document that the loader cannot load is refused before
    anything is loaded, parsed or scanned, and contents provided by the
    caller do not help: the promise of [analyzeRoot] is rejected with
    [Can't load URL], no call is made to the loader, a parser or the scan
    driver, nothing enters the cache of parsed documents, and the cache of
    scanned documents keeps the rejected promise. *)
Theorem unloadable_root_is_rejected
    (env : Analyzer.Env) (url : string) (contents : option string)
    (Hcannot : Analyzer.canLoad (Analyzer._loader env)
                 (Analyzer._resolveUrl env url) = false) :
  let u := Analyzer._resolveUrl env url in
  let root := (Analyzer.analyzeRoot env url contents Analyzer.create).1 in
  let a := Analyzer.run env 4 (RootNotions.asked env url contents) in
  let failure := Analyzer.Rejected (Error ("Can't load URL: " +:+ u) "") in
  Analyzer.jobs a = [] /\ Analyzer.reactions a = []
  /\ Analyzer.promises a !! root = Some (Analyzer.Done failure)
  /\ Analyzer.calls a = []
  /\ Analyzer.documents a = []
  /\ Analyzer._parsedDocuments a = ∅
  /\ exists p, Analyzer._scannedDocuments a !! u = Some p
               /\ Analyzer.promises a !! p = Some (Analyzer.Done failure).
Proof.
  intros u root a failure. subst a root.
  rewrite cannot_load_run, analyzeRoot_create by done.
  repeat split; try done. exists 1%nat. split; [|done].
  cbn [Analyzer._scannedDocuments]. by rewrite lookup_insert_eq.
Qed.

(** ** Requests served from the cache of scanned documents *)

(** X8. An outcome in the cache of scanned documents answers every later
    request for that URL that comes without contents, in every state the
    analyzer has reached and whatever else is queued: the request queues
    one job, which settles the promise of its call of [_scanResolved] as
    the cached promise is settled and queues a second, which settles the
    new promise of [analyzeRoot], rejected with the cached failure or
    fulfilled with the cached document.  Neither job calls the loader, a
    parser or the scan driver, whatever they answered when the state was
    reached ([before]) and whatever they would answer now ([env]), and the
    caches, the documents, the other promises, jobs and waiting functions
    are as before. *)
Theorem cached_outcome_answers_later_requests
    (before env : Analyzer.Env) (url : string) (a : Analyzer.t) (p : nat)
    (outcome : Analyzer.Settled)
    (Hreach : AnalyzerNotions.later before Analyzer.create a)
    (Hcached : Analyzer._scannedDocuments a !! Analyzer._resolveUrl env url
               = Some p)
    (Hsettled : Analyzer.promises a !! p = Some (Analyzer.Done outcome)) :
  let again := (Analyzer.analyzeRoot env url None a).1 in
  let asked := (Analyzer.analyzeRoot env url None a).2 in
  let n := length (Analyzer.jobs a) in
  Analyzer.promises a !! again = None
  /\ Analyzer.promises asked !! again = Some Analyzer.Pending
  /\ length (Analyzer.jobs asked) = S n
  /\ exists b,
       Analyzer.run_schedule env [n; n] asked = Some b
       /\ Analyzer.jobs b = Analyzer.jobs a
       /\ Analyzer.reactions b = Analyzer.reactions a
       /\ Analyzer.calls b = Analyzer.calls a
       /\ Analyzer.documents b = Analyzer.documents a
       /\ Analyzer.activations b = Analyzer.activations a
       /\ Analyzer._scannedDocuments b = Analyzer._scannedDocuments a
       /\ Analyzer._parsedDocuments b = Analyzer._parsedDocuments a
       /\ (forall q, (q < length (Analyzer.promises a))%nat ->
             Analyzer.promises b !! q = Analyzer.promises a !! q)
       /\ match outcome with
          | Analyzer.Rejected e =>
              Analyzer.promises b !! again
              = Some (Analyzer.Done (Analyzer.Rejected e))
          | Analyzer.Fulfilled (Analyzer.VScanned d) =>
              Analyzer.promises b !! again
              = Some (Analyzer.Done (Analyzer.Fulfilled (Analyzer.VDocument d)))
          | Analyzer.Fulfilled _ => True
          end.
Proof.
  intros again asked n.
  assert (Hc : AnalyzerNotions.closed a)
    by (eapply later_closed; [exact Hreach|apply closed_create]).
  destruct Hc as (_ & _ & _ & _ & _ & C6).
  set (m := length (Analyzer.promises a)).
  assert (Hp : (p < m)%nat) by (by eapply lookup_lt_Some).
  assert (Hasked :
    Analyzer.analyzeRoot env url None a
    = (S m,
       Analyzer.mkAnalyzer (Analyzer._parsedDocuments a)
         (Analyzer._scannedDocuments a) (Analyzer._telemetryTracker a)
         (Analyzer.promises a ++ [Analyzer.Pending; Analyzer.Pending])
         (Analyzer.reactions a ++ [(m, Analyzer.KAnalyzeRoot url (S m))])
         (Analyzer.jobs a
          ++ [Analyzer.JResume (Analyzer.KReturn m) outcome])
         (Analyzer.activations a) (Analyzer.documents a) (Analyzer.calls a))).
  { unfold Analyzer.analyzeRoot.
    rewrite (scanResolved_hit _ _ _ _ Hcached). fold m.
    unfold Analyzer.return_.
    erewrite await_settled
      by (cbn; rewrite lookup_app_l by done; exact Hsettled).
    unfold Analyzer.newPromise, Analyzer.enqueue. cbn.
    rewrite length_app. cbn. fold m. rewrite Nat.add_1_r.
    erewrite await_pending.
    2:{ cbn. rewrite lookup_app_l by (rewrite length_app; cbn; fold m; lia).
        rewrite lookup_app_r by done. fold m. by rewrite Nat.sub_diag. }
    cbn. by rewrite <- app_assoc. }
  subst again asked. rewrite Hasked. cbn [fst snd].
  split; [apply lookup_ge_None_2; fold m; lia|].
  split.
  { cbn. rewrite lookup_app_r by (fold m; lia). fold m.
    by replace (S m - m)%nat with 1%nat by lia. }
  split; [cbn; rewrite length_app; cbn; lia|].
  destruct (none_waiting m (Analyzer.reactions a)) as [W1 W2].
  { intros r Hr. by apply C6. }
  destruct (none_waiting (S m) (Analyzer.reactions a)) as [W3 W4].
  { intros r Hr. specialize (C6 r Hr). fold m in C6. lia. }
  cbn [Analyzer.run_schedule]. unfold Analyzer.step_at at 1.
  cbn [Analyzer.jobs]. rewrite lookup_app_r by done. subst n.
  rewrite Nat.sub_diag. cbn [lookup list_lookup].
  rewrite delete_middle, app_nil_r.
  cbn [Analyzer.run_job Analyzer.resume].
  rewrite settle_woken
    by (cbn; rewrite lookup_app_r by done; fold m; by rewrite Nat.sub_diag).
  cbn [Analyzer.with_jobs Analyzer._parsedDocuments Analyzer._scannedDocuments
       Analyzer._telemetryTracker Analyzer.promises Analyzer.reactions
       Analyzer.jobs Analyzer.activations Analyzer.documents Analyzer.calls].
  rewrite !List.filter_app, W1, W2. cbn [List.filter].
  rewrite waitingOn_eq. cbn [negb app map snd].
  rewrite app_nil_r.
  assert (Hins : <[m := Analyzer.Done outcome]>
                   (Analyzer.promises a ++ [Analyzer.Pending; Analyzer.Pending])
                 = Analyzer.promises a
                   ++ [Analyzer.Done outcome; Analyzer.Pending]).
  { rewrite insert_app_r_alt by done. fold m. by rewrite Nat.sub_diag. }
  rewrite Hins.
  unfold Analyzer.step_at.
  cbn [Analyzer.jobs]. rewrite lookup_app_r by done.
  rewrite Nat.sub_diag. cbn [lookup list_lookup].
  rewrite delete_middle, app_nil_r.
  cbn [Analyzer.run_job Analyzer.resume Analyzer.with_jobs].
  assert (Hold : forall x y q, (q < m)%nat ->
            (Analyzer.promises a ++ [x; y]) !! q = Analyzer.promises a !! q).
  { intros x y q Hq. by rewrite lookup_app_l. }
  assert (Hnew : forall x,
            (Analyzer.promises a ++ [x; Analyzer.Pending]) !! S m
            = Some Analyzer.Pending).
  { intros x. rewrite lookup_app_r by (fold m; lia). fold m.
    by replace (S m - m)%nat with 1%nat by lia. }
  assert (Hset : forall x s,
            <[S m := s]> (Analyzer.promises a ++ [x; Analyzer.Pending])
            = Analyzer.promises a ++ [x; s]).
  { intros x s. rewrite insert_app_r_alt by (fold m; lia). fold m.
    by replace (S m - m)%nat with 1%nat by lia. }
  destruct outcome as [[| d | | |]|e].
  all: try (eexists; split; [reflexivity|]; cbn;
            repeat split; try done; apply Hold).
  - eexists. split; [reflexivity|].
    rewrite settle_woken by (cbn; apply Hnew).
    cbn. rewrite W3, W4, Hset, app_nil_r.
    repeat split; try done; [apply Hold|].
    rewrite lookup_app_r by (fold m; lia). fold m.
    by replace (S m - m)%nat with 1%nat by lia.
  - eexists. split; [reflexivity|].
    rewrite settle_woken by (cbn; apply Hnew).
    cbn. rewrite W3, W4, Hset, app_nil_r.
    repeat split; try done; [apply Hold|].
    rewrite lookup_app_r by (fold m; lia). fold m.
    by replace (S m - m)%nat with 1%nat by lia.
Qed.


(** X10. A root document that loads, parses and scans, and whose features
    name no other document, is analyzed in at most eight turns of the job
    queue: the promise of [analyzeRoot] is fulfilled with the one
    ScannedDocument built, which has the parsed document, its features in
    its own coordinates (offset zero, the URL of the parsed document as
    file name), no dependency and no warning.  The scan driver is called,
    once, exactly when scanners are registered for the type of the
    document; when none are, the document has no feature.  Contents that
    are provided are parsed in place of what the loader would give, and the
    loader is not asked to load. *)
Theorem leaf_document_is_scanned
    (env : Analyzer.Env) (url : string) (contents : option string)
    (document : Analyzer.ParsedDocument) (fs : list Analyzer.ScannedFeature)
    (Hcan : Analyzer.canLoad (Analyzer._loader env)
              (Analyzer._resolveUrl env url) = true)
    (Hok : RootNotions.stages env (Analyzer._resolveUrl env url) contents
           = inr (document, fs))
    (Hleaf : Forall (fun f => Analyzer.isDependency f = false) fs) :
  let u := Analyzer._resolveUrl env url in
  let root := (Analyzer.analyzeRoot env url contents Analyzer.create).1 in
  let a := Analyzer.run env 8 (RootNotions.asked env url contents) in
  let scans :=
    match Analyzer.scanners env !! Analyzer.type document with
    | Some _ => [Analyzer.CallScan document]
    | None => []
    end in
  Analyzer.jobs a = [] /\ Analyzer.reactions a = []
  /\ Analyzer.promises a !! root
     = Some (Analyzer.Done (Analyzer.Fulfilled (Analyzer.VDocument 0)))
  /\ Analyzer.documents a = [RootNotions.leaf env document fs]
  /\ AnalyzerNotions.loadedUrls a
     = match contents with Some _ => [] | None => [u] end
  /\ AnalyzerNotions.scannedUrls a
     = match Analyzer.scanners env !! Analyzer.type document with
       | Some _ => [Analyzer.url document]
       | None => []
       end
  /\ (Analyzer.scanners env !! Analyzer.type document = None -> fs = [])
  /\ (exists type content,
        Analyzer.calls a
        = match contents with
          | Some _ => []
          | None => [Analyzer.CallLoad u]
          end ++ Analyzer.CallParse type content u :: scans
        /\ (forall given, contents = Some given -> content = given)
        /\ (contents = None ->
            Analyzer.load (Analyzer._loader env) u = inr content)).
Proof.
  intros u root a scans. subst root u scans.
  rewrite analyzeRoot_create. cbn [fst].
  unfold RootNotions.stages in Hok.
  assert (Hnone : Analyzer.scanners env !! Analyzer.type document = None ->
                  RootNotions.featuresOf env document = inr fs -> fs = []).
  { intros Hn. unfold RootNotions.featuresOf, Analyzer._getScannedFeatures.
    rewrite Hn. cbn. by intros [= <-]. }
  destruct contents as [content|].
  - assert (Ha : a = Analyzer.run env 1
                       (Analyzer.run env 5
                          (Analyzer.loadResolved_parse env (Analyzer._resolveUrl env url) content 4
                             (RootNotions.loaded env url [])))).
    { subst a. change 8%nat with (2 + (5 + 1))%nat.
      by rewrite !run_add, content_given. }
    destruct (Analyzer._parse env _ content _ Analyzer.create).1
      as [e'|document'] eqn:Hparse; [done|].
    destruct (RootNotions.featuresOf env document') as [e'|fs'] eqn:Hscan;
      [done|]. injection Hok as -> ->.
    rewrite (leaf_scanned env url content [] document fs Hparse Hscan Hleaf) in Ha.
    rewrite run_idle in Ha by done. rewrite Ha.
    unfold AnalyzerNotions.loadedUrls, AnalyzerNotions.scannedUrls.
    cbn [Analyzer.calls Analyzer.jobs Analyzer.reactions Analyzer.promises
         Analyzer.documents]. rewrite scanCalls_cases.
    split; [done|]. split; [done|]. split; [done|]. split; [done|].
    split; [by destruct (Analyzer.scanners env !! Analyzer.type document)|].
    split; [by destruct (Analyzer.scanners env !! Analyzer.type document)|].
    split; [intros Hn; by apply Hnone|].
    eexists _, content. split; [reflexivity|]. split; [|done].
    by intros ? [= <-].
  - destruct (Analyzer.load (Analyzer._loader env) _) as [e'|content] eqn:Hload;
      [done|].
    assert (Ha : a = Analyzer.run env 5
                       (Analyzer.loadResolved_parse env (Analyzer._resolveUrl env url) content 4
                          (RootNotions.loaded env url [Analyzer.CallLoad (Analyzer._resolveUrl env url)]))).
    { subst a. change 8%nat with (3 + 5)%nat.
      rewrite run_add, content_loaded by done. by rewrite Hload. }
    destruct (Analyzer._parse env _ content _ Analyzer.create).1
      as [e'|document'] eqn:Hparse; [done|].
    destruct (RootNotions.featuresOf env document') as [e'|fs'] eqn:Hscan;
      [done|]. injection Hok as -> ->.
    rewrite (leaf_scanned env url content _ document fs Hparse Hscan Hleaf) in Ha.
    rewrite Ha.
    unfold AnalyzerNotions.loadedUrls, AnalyzerNotions.scannedUrls.
    cbn [Analyzer.calls Analyzer.jobs Analyzer.reactions Analyzer.promises
         Analyzer.documents]. rewrite scanCalls_cases.
    split; [done|]. split; [done|]. split; [done|]. split; [done|].
    split; [by destruct (Analyzer.scanners env !! Analyzer.type document)|].
    split; [by destruct (Analyzer.scanners env !! Analyzer.type document)|].
    split; [intros Hn; by apply Hnone|].
    eexists _, content. split; [reflexivity|]. split; [done|].
    by intros _.
Qed.

(** X16. A document whose only dependency is an import of the document
    itself is never analyzed: its scan finds its own pending promise in
    the cache and waits for it.  In whatever order the queued jobs run, the
    promise of [analyzeRoot] is pending; after six turns the job queue is
    empty, no ScannedDocument has been built, and the import still waits
    for the promise of the scan it is part of. *)
Theorem self_import_is_never_analyzed
    (env : Analyzer.Env) (url : string) (contents : option string)
    (document : Analyzer.ParsedDocument) (fs : list Analyzer.ScannedFeature)
    (i : nat) (scannedImport : Analyzer.ScannedImport)
    (Hcan : Analyzer.canLoad (Analyzer._loader env)
              (Analyzer._resolveUrl env url) = true)
    (Hok : RootNotions.stages env (Analyzer._resolveUrl env url) contents
           = inr (document, fs))
    (Hdeps : Analyzer.dependencyIndices fs 0 = [i])
    (Hi : fs !! i = Some (Analyzer.FImport scannedImport))
    (Hself : Analyzer._resolveUrl env (Analyzer.imp_url scannedImport)
             = Analyzer._resolveUrl env url) :
  let root := (Analyzer.analyzeRoot env url contents Analyzer.create).1 in
  (forall schedule a,
     Analyzer.run_schedule env schedule (RootNotions.asked env url contents)
     = Some a ->
     Analyzer.promises a !! root = Some Analyzer.Pending)
  /\ (forall n, (6 <= n)%nat ->
        let a := Analyzer.run env n (RootNotions.asked env url contents) in
        Analyzer.jobs a = [] /\ Analyzer.documents a = []
        /\ Analyzer._scannedDocuments a !! Analyzer._resolveUrl env url
           = Some 1%nat
        /\ Analyzer.promises a !! 1%nat = Some Analyzer.Pending
        /\ Analyzer.reactions a
           = [(1%nat, Analyzer.KReturn 0);
              (0%nat, Analyzer.KAnalyzeRoot url root);
              (1%nat, Analyzer.KReturn 5);
              (5%nat, Analyzer.KScanImport 0 0 i)]).
Proof.
  intros root. subst root. rewrite analyzeRoot_create. cbn [fst].
  pose proof (fun k => self_import_run env url contents document fs i
                         scannedImport k Hcan Hok Hdeps Hi Hself) as Hlone.
  split.
  - intros schedule a Hrun.
    rewrite (lone_schedule env _ _ _ (fun k => proj1 (Hlone k)) Hrun).
    apply Hlone.
  - intros n Hn.
    assert (Hend : exists cs ts acts,
              Analyzer.run env 6 (RootNotions.asked env url contents)
              = Analyzer.mkAnalyzer (<[Analyzer._resolveUrl env url := 4%nat]> ∅)
                  (<[Analyzer._resolveUrl env url := 1%nat]> ∅) ts
                  [Analyzer.Pending; Analyzer.Pending; Analyzer.Pending;
                   Analyzer.Done (Analyzer.Fulfilled (Analyzer.VParsed document));
                   Analyzer.Done (Analyzer.Fulfilled (Analyzer.VParsed document));
                   Analyzer.Pending]
                  [(1%nat, Analyzer.KReturn 0);
                   (0%nat, Analyzer.KAnalyzeRoot url 2);
                   (1%nat, Analyzer.KReturn 5);
                   (5%nat, Analyzer.KScanImport 0 0 i)] [] acts [] cs).
    { unfold RootNotions.stages in Hok. destruct contents as [content|].
      - destruct (Analyzer._parse env _ content _ Analyzer.create).1
          as [|document'] eqn:Hparse; [done|].
        destruct (RootNotions.featuresOf env document') as [|fs'] eqn:Hscan;
          [done|]. injection Hok as -> ->.
        change 6%nat with (2 + (3 + 1))%nat.
        rewrite !run_add, content_given by done.
        rewrite (self_import_waits env url content [] document fs i
                   scannedImport Hparse Hscan Hdeps Hi Hself).
        rewrite run_idle by done. by repeat eexists.
      - destruct (Analyzer.load (Analyzer._loader env) _) as [|content] eqn:Hload;
          [done|].
        destruct (Analyzer._parse env _ content _ Analyzer.create).1
          as [|document'] eqn:Hparse; [done|].
        destruct (RootNotions.featuresOf env document') as [|fs'] eqn:Hscan;
          [done|]. injection Hok as -> ->.
        change 6%nat with (3 + 3)%nat.
        rewrite run_add, content_loaded, Hload by done.
        rewrite (self_import_waits env url content _ document fs i
                   scannedImport Hparse Hscan Hdeps Hi Hself).
        by repeat eexists. }
    destruct Hend as (cs & ts & acts & Hend).
    replace n with (6 + (n - 6))%nat by lia.
    rewrite run_add, Hend, run_idle by done.
    repeat split; try done.
    cbn [Analyzer._scannedDocuments]. by rewrite lookup_insert_eq.
Qed.

(** X17. A root document whose only dependency is an import of another
    document, which itself has no dependency, is analyzed within sixteen
    turns of the job queue: the imported document is loaded, parsed and
    scanned once, its ScannedDocument is built first, the import feature of
    the root is linked to it, and the ScannedDocument of the root, with
    which the promise of [analyzeRoot] is fulfilled, lists it as its one
    dependency and has no warning. *)
Theorem import_of_leaf_is_resolved
    (env : Analyzer.Env) (url : string) (contents : option string)
    (document : Analyzer.ParsedDocument) (fs : list Analyzer.ScannedFeature)
    (i : nat) (scannedImport : Analyzer.ScannedImport)
    (document' : Analyzer.ParsedDocument) (fs' : list Analyzer.ScannedFeature)
    (Hcan : Analyzer.canLoad (Analyzer._loader env)
              (Analyzer._resolveUrl env url) = true)
    (Hok : RootNotions.stages env (Analyzer._resolveUrl env url) contents
           = inr (document, fs))
    (Hdeps : Analyzer.dependencyIndices fs 0 = [i])
    (Hi : fs !! i = Some (Analyzer.FImport scannedImport))
    (Hother : Analyzer._resolveUrl env (Analyzer.imp_url scannedImport)
              <> Analyzer._resolveUrl env url)
    (Hcan' : Analyzer.canLoad (Analyzer._loader env)
               (Analyzer._resolveUrl env (Analyzer.imp_url scannedImport))
             = true)
    (Hok' : RootNotions.stages env
              (Analyzer._resolveUrl env (Analyzer.imp_url scannedImport)) None
            = inr (document', fs'))
    (Hleaf' : Forall (fun f => Analyzer.isDependency f = false) fs') :
  let u := Analyzer._resolveUrl env url in
  let u' := Analyzer._resolveUrl env (Analyzer.imp_url scannedImport) in
  let root := (Analyzer.analyzeRoot env url contents Analyzer.create).1 in
  let a := Analyzer.run env 16 (RootNotions.asked env url contents) in
  let alone := RootNotions.leaf env document fs in
  Analyzer.jobs a = [] /\ Analyzer.reactions a = []
  /\ Analyzer.promises a !! root
     = Some (Analyzer.Done (Analyzer.Fulfilled (Analyzer.VDocument 1)))
  /\ Analyzer.documents a
     = [RootNotions.leaf env document' fs';
        Analyzer.mkScanned document [0%nat]
          (alter (Analyzer.link_feature 0) i (Analyzer.features alone))
          (Analyzer.sd_locationOffset alone) [] false]
  /\ alter (Analyzer.link_feature 0) i (Analyzer.features alone) !! i
     = Some (Analyzer.FImport
               (Analyzer.mkImport (Analyzer.importType scannedImport)
                  (Analyzer.imp_url scannedImport)
                  (Analyzer.imp_sourceRange scannedImport)
                  (Analyzer.urlSourceRange scannedImport) (Some 0%nat)))
  /\ AnalyzerNotions.loadedUrls a
     = match contents with Some _ => [u'] | None => [u; u'] end.
Proof.
  intros u u' root a alone. subst root u u' alone.
  rewrite analyzeRoot_create. cbn [fst].
  unfold RootNotions.stages in Hok, Hok'.
  destruct (Analyzer.load (Analyzer._loader env)
              (Analyzer._resolveUrl env (Analyzer.imp_url scannedImport)))
    as [|content'] eqn:Hload'; [done|].
  destruct (Analyzer._parse env _ content' _ Analyzer.create).1
    as [|d'] eqn:Hparse'; [done|].
  destruct (RootNotions.featuresOf env d') as [|f'] eqn:Hscan'; [done|].
  injection Hok' as -> ->.
  assert (Hlinked :
    alter (Analyzer.link_feature 0) i
          (Analyzer.features (RootNotions.leaf env document fs)) !! i
    = Some (Analyzer.FImport
              (Analyzer.mkImport (Analyzer.importType scannedImport)
                 (Analyzer.imp_url scannedImport)
                 (Analyzer.imp_sourceRange scannedImport)
                 (Analyzer.urlSourceRange scannedImport) (Some 0%nat)))).
  { rewrite list_lookup_alter_eq. cbn [RootNotions.leaf Analyzer.features].
    by rewrite (scanned_import env _ _ _ _ _ Hi). }
  destruct contents as [content|].
  - destruct (Analyzer._parse env _ content _ Analyzer.create).1
      as [|d] eqn:Hparse; [done|].
    destruct (RootNotions.featuresOf env d) as [|f] eqn:Hscan; [done|].
    injection Hok as -> ->.
    assert (Ha : a = Analyzer.run env 1
                       (Analyzer.run env 13
                          (Analyzer.loadResolved_parse env
                             (Analyzer._resolveUrl env url) content 4
                             (RootNotions.loaded env url [])))).
    { subst a. change 16%nat with (2 + (13 + 1))%nat.
      by rewrite !run_add, content_given. }
    destruct (one_import_resolved env url content [] document fs i scannedImport
                content' document' fs' Hparse Hscan Hdeps Hi Hother Hcan'
                Hload' Hparse' Hscan' Hleaf') as (J & R & P & D & C).
    rewrite run_idle in Ha by (by apply step_none). rewrite Ha.
    split; [exact J|split; [exact R|split; [exact P|split; [exact D|]]]].
    split; [exact Hlinked|].
    unfold AnalyzerNotions.loadedUrls. rewrite C, !scanCalls_cases.
    by destruct (Analyzer.scanners env !! Analyzer.type document),
                (Analyzer.scanners env !! Analyzer.type document').
  - destruct (Analyzer.load (Analyzer._loader env)
                (Analyzer._resolveUrl env url)) as [|content] eqn:Hload; [done|].
    destruct (Analyzer._parse env _ content _ Analyzer.create).1
      as [|d] eqn:Hparse; [done|].
    destruct (RootNotions.featuresOf env d) as [|f] eqn:Hscan; [done|].
    injection Hok as -> ->.
    assert (Ha : a = Analyzer.run env 13
                       (Analyzer.loadResolved_parse env
                          (Analyzer._resolveUrl env url) content 4
                          (RootNotions.loaded env url
                             [Analyzer.CallLoad (Analyzer._resolveUrl env url)]))).
    { subst a. change 16%nat with (3 + 13)%nat.
      rewrite run_add, content_loaded by done. by rewrite Hload. }
    destruct (one_import_resolved env url content
                [Analyzer.CallLoad (Analyzer._resolveUrl env url)]
                document fs i scannedImport
                content' document' fs' Hparse Hscan Hdeps Hi Hother Hcan'
                Hload' Hparse' Hscan' Hleaf') as (J & R & P & D & C).
    rewrite Ha.
    split; [exact J|split; [exact R|split; [exact P|split; [exact D|]]]].
    split; [exact Hlinked|].
    unfold AnalyzerNotions.loadedUrls. rewrite C, !scanCalls_cases.
    by destruct (Analyzer.scanners env !! Analyzer.type document),
                (Analyzer.scanners env !! Analyzer.type document').
Qed.


(** ** The order of dependencies and the order of warnings *)
Section ImportFailures.
Import Analyzer AnalyzerNotions.

Lemma mapM_open (l : list (option (option DocRef))) j :
  l !! j = Some None -> mapM id l = None.
Proof.
  revert j. induction l as [|y l IH]; intros j; [done|].
  destruct j as [|j]; cbn.
  - by intros [= ->].
  - intros H. rewrite (IH _ H). by destruct y.
Qed.

Lemma update_act_twice act f g a :
  update_act act f (update_act act g a) = update_act act (f ∘ g) a.
Proof.
  unfold update_act. cbn. by rewrite list_alter_alter_eq.
Qed.

(** An import that failed for another reason than a missing parser: the
    warning is pushed, the slot is filled, and the end of [_scanDocument]
    is tried. *)
Lemma resume_failed_import act slot feature e a x scannedImport :
  activations a !! act = Some x ->
  act_features x !! feature = Some (FImport scannedImport) ->
  isNoKnownParserError e = false ->
  resume_scanImport act slot feature (Rejected e) a
  = complete act (update_act act (failedImport e scannedImport slot) a).
Proof.
  intros Hact Hf He. unfold resume_scanImport. rewrite He, Hact, Hf.
  rewrite update_act_twice. unfold failedImport. by rewrite He.
Qed.

End ImportFailures.

(** X18. When two imports of a document fail, for another reason than a
    missing parser, and these are the last two of its dependencies to
    settle, the ScannedDocument is built with the same dependencies and
    features whichever failure arrives first, and with the two warnings
    last in its list in the order in which the failures arrived. *)
Theorem import_failures_in_either_order
    (act s1 s2 f1 f2 : nat) (e1 e2 : Exn) (a : Analyzer.t)
    (x : Analyzer.Activation) (import1 import2 : Analyzer.ScannedImport)
    (results : list (option nat))
    (Hact : Analyzer.activations a !! act = Some x)
    (Hf1 : Analyzer.act_features x !! f1 = Some (Analyzer.FImport import1))
    (Hf2 : Analyzer.act_features x !! f2 = Some (Analyzer.FImport import2))
    (He1 : Analyzer.isNoKnownParserError e1 = false)
    (He2 : Analyzer.isNoKnownParserError e2 = false)
    (Hslots : s1 <> s2)
    (Hopen1 : Analyzer.act_slots x !! s1 = Some None)
    (Hopen2 : Analyzer.act_slots x !! s2 = Some None)
    (Hpending : Analyzer.promises a !! Analyzer.act_promise x
                = Some Analyzer.Pending)
    (Hall : mapM id (<[s2 := Some None]> (<[s1 := Some None]>
                                            (Analyzer.act_slots x)))
            = Some results) :
  let w1 := Analyzer.couldNotLoad e1 import1 in
  let w2 := Analyzer.couldNotLoad e2 import2 in
  let built (ws : list Warning) :=
    Analyzer.mkScanned (Analyzer.act_document x) (omap id results)
      (Analyzer.act_features x) (Analyzer.act_locationOffset x)
      (Analyzer.act_warnings x ++ ws) false in
  Analyzer.documents
    (Analyzer.resume_scanImport act s2 f2 (Analyzer.Rejected e2)
       (Analyzer.resume_scanImport act s1 f1 (Analyzer.Rejected e1) a))
  = Analyzer.documents a ++ [built [w1; w2]]
  /\ Analyzer.documents
       (Analyzer.resume_scanImport act s1 f1 (Analyzer.Rejected e1)
          (Analyzer.resume_scanImport act s2 f2 (Analyzer.Rejected e2) a))
     = Analyzer.documents a ++ [built [w2; w1]].
Proof.
  intros w1 w2 built.
  assert (Hboth : forall sa sb fa fb ea eb ia ib,
            Analyzer.act_features x !! fa = Some (Analyzer.FImport ia) ->
            Analyzer.act_features x !! fb = Some (Analyzer.FImport ib) ->
            Analyzer.isNoKnownParserError ea = false ->
            Analyzer.isNoKnownParserError eb = false ->
            sa <> sb ->
            Analyzer.act_slots x !! sb = Some None ->
            mapM id (<[sb := Some None]> (<[sa := Some None]>
                                            (Analyzer.act_slots x)))
            = Some results ->
            Analyzer.documents
              (Analyzer.resume_scanImport act sb fb (Analyzer.Rejected eb)
                 (Analyzer.resume_scanImport act sa fa (Analyzer.Rejected ea) a))
            = Analyzer.documents a
              ++ [built [Analyzer.couldNotLoad ea ia;
                         Analyzer.couldNotLoad eb ib]]).
  { intros sa sb fa fb ea eb ia ib Hfa Hfb Hea Heb Hne Hopen Hres.
    rewrite (resume_failed_import act sa fa ea a x ia Hact Hfa Hea).
    set (a1 := Analyzer.update_act act
                 (AnalyzerNotions.failedImport ea ia sa) a).
    set (x1 := AnalyzerNotions.failedImport ea ia sa x).
    assert (Hact1 : Analyzer.activations a1 !! act = Some x1)
      by (by apply update_act_lookup).
    assert (Hslots1 : Analyzer.act_slots x1
                      = <[sa := Some None]> (Analyzer.act_slots x)).
    { unfold x1, AnalyzerNotions.failedImport. by rewrite Hea. }
    assert (Hwarn1 : Analyzer.act_warnings x1
                     = Analyzer.act_warnings x ++ [Analyzer.couldNotLoad ea ia]).
    { unfold x1, AnalyzerNotions.failedImport. by rewrite Hea. }
    assert (Hrest1 : Analyzer.act_features x1 = Analyzer.act_features x
                     /\ Analyzer.act_document x1 = Analyzer.act_document x
                     /\ Analyzer.act_locationOffset x1
                        = Analyzer.act_locationOffset x
                     /\ Analyzer.act_promise x1 = Analyzer.act_promise x).
    { unfold x1, AnalyzerNotions.failedImport. by rewrite Hea. }
    destruct Hrest1 as (Hfeat1 & Hdoc1 & Hoff1 & Hprom1).
    destruct (update_act_frame act (AnalyzerNotions.failedImport ea ia sa) a)
      as (Hp1 & Hd1 & _). fold a1 in Hp1, Hd1.
    assert (Hidle : Analyzer.complete act a1 = a1).
    { destruct (complete_spec act a1 x1 Hact1) as [_ Hc].
      rewrite Hprom1, Hp1, Hpending in Hc.
      rewrite (mapM_open _ sb) in Hc; [done|].
      rewrite Hslots1, list_lookup_insert_ne by done. exact Hopen. }
    rewrite Hidle.
    rewrite (resume_failed_import act sb fb eb a1 x1 ib Hact1); try done;
      [|by rewrite Hfeat1].
    set (a2 := Analyzer.update_act act
                 (AnalyzerNotions.failedImport eb ib sb) a1).
    set (x2 := AnalyzerNotions.failedImport eb ib sb x1).
    assert (Hact2 : Analyzer.activations a2 !! act = Some x2)
      by (by apply update_act_lookup).
    assert (Hx2 : Analyzer.act_slots x2
                  = <[sb := Some None]> (<[sa := Some None]>
                                           (Analyzer.act_slots x))
                  /\ Analyzer.act_warnings x2
                     = Analyzer.act_warnings x
                       ++ [Analyzer.couldNotLoad ea ia;
                           Analyzer.couldNotLoad eb ib]
                  /\ Analyzer.act_features x2 = Analyzer.act_features x
                  /\ Analyzer.act_document x2 = Analyzer.act_document x
                  /\ Analyzer.act_locationOffset x2
                     = Analyzer.act_locationOffset x
                  /\ Analyzer.act_promise x2 = Analyzer.act_promise x).
    { unfold x2, AnalyzerNotions.failedImport at 1 2 3 4 5 6. rewrite Heb.
      cbn [Analyzer.fill_slot Analyzer.push_warning Analyzer.act_set_slots
           Analyzer.act_set_warnings Analyzer.act_slots Analyzer.act_warnings
           Analyzer.act_features Analyzer.act_document
           Analyzer.act_locationOffset Analyzer.act_promise].
      rewrite Hslots1, Hwarn1, <- app_assoc. done. }
    destruct Hx2 as (Hs2 & Hw2 & Hfeat2 & Hdoc2 & Hoff2 & Hprom2).
    destruct (update_act_frame act (AnalyzerNotions.failedImport eb ib sb) a1)
      as (Hp2 & Hd2 & _). fold a2 in Hp2, Hd2.
    destruct (complete_spec act a2 x2 Hact2) as [_ Hc].
    rewrite Hprom2, Hp2, Hp1, Hpending, Hs2, Hres in Hc.
    destruct Hc as [Hc _]. rewrite Hc, Hd2, Hd1.
    unfold built. by rewrite Hdoc2, Hfeat2, Hoff2, Hw2. }
  split.
  - by apply Hboth.
  - apply Hboth; try done. by rewrite list_insert_insert_ne.
Qed.


(** ** [dedupe] on arbitrary keys *)
Section DedupeAll.
Import BehaviorNotions.
Context {T : Type} (key : T -> string).

Let entry (el : T) : string * T := (key el, el).

Let step (bucket : JsObject.t T) (el : T) : JsObject.t T :=
  if JsObject.has_in (key el) bucket then bucket
  else JsObject.set (key el) el bucket.

(** The bucket holds the first element of each key that [Object.prototype]
    does not have. *)
Lemma bucket_all (array : list T) (bucket : JsObject.t T) :
  foldl step bucket array
  = bucket ++ map entry (firstOfEachKey key (JsObject.inherited ++ bucket.*1) array).
Proof.
  revert bucket. induction array as [|el array IH]; intros bucket; cbn.
  - by rewrite app_nil_r.
  - unfold step at 2. unfold JsObject.has_in, JsObject.hasOwn.
    destruct (decide (key el ∈ JsObject.inherited ++ bucket.*1)) as [Hin|Hout].
    + rewrite (bool_decide_eq_true_2 _ Hin).
      apply elem_of_app in Hin as [Hin|Hin].
      * rewrite (bool_decide_eq_true_2 _ Hin). apply IH.
      * rewrite (bool_decide_eq_true_2 (key el ∈ bucket.*1) Hin).
        rewrite orb_true_r. apply IH.
    + rewrite (bool_decide_eq_false_2 _ Hout).
      rewrite !bool_decide_eq_false_2
        by (intros ?; apply Hout, elem_of_app; auto).
      cbn [orb]. rewrite set_fresh
        by (intros ?; apply Hout, elem_of_app; auto).
      rewrite IH, fmap_app. cbn. by rewrite <- !app_assoc.
Qed.

Lemma insert_sorted_perm n k l :
  JsObject.insert_sorted n k l ≡ₚ (n, k) :: l.
Proof.
  induction l as [|[m k'] l IH]; cbn; [done|].
  destruct (n <=? m)%N; [done|]. rewrite IH. apply Permutation_swap.
Qed.

Lemma keys_perm (o : JsObject.t T) : JsObject.keys o ≡ₚ o.*1.
Proof.
  unfold JsObject.keys, JsObject.indexKeys, JsObject.nameKeys.
  induction o as [|[k v] o IH]; [done|]. cbn.
  destruct (JsObject.arrayIndex k) as [n|].
  - rewrite insert_sorted_perm. cbn. by rewrite IH.
  - rewrite <- Permutation_middle. by rewrite IH.
Qed.

Lemma firsts_members (array : list T) (seen : list string) (el : T) :
  el ∈ firstOfEachKey key seen array -> el ∈ array /\ key el ∉ seen.
Proof.
  revert seen. induction array as [|x array IH]; intros seen; cbn.
  - by intros ?%elem_of_nil.
  - case_bool_decide as Hseen.
    + intros [? ?]%IH. split; [by right|done].
    + intros [->|Hin]%elem_of_cons; [split; [by left|done]|].
      apply IH in Hin as [? Hk]. split; [by right|].
      intros ?. apply Hk, elem_of_app. by left.
Qed.

Lemma firsts_cover (array : list T) (seen : list string) (el : T) :
  el ∈ array -> key el ∉ seen ->
  key el ∈ key <$> firstOfEachKey key seen array.
Proof.
  revert seen. induction array as [|x array IH]; intros seen; cbn.
  - by intros ?%elem_of_nil.
  - intros [->|Hin]%elem_of_cons Hk.
    + rewrite bool_decide_eq_false_2 by done. by left.
    + case_bool_decide as Hseen; [by apply IH|].
      destruct (decide (key el = key x)) as [->|Hne]; [by left|].
      right. apply IH; [done|].
      intros [?|?%list_elem_of_singleton]%elem_of_app; done.
Qed.

Lemma inherited_NoDup : NoDup JsObject.inherited.
Proof. apply (bool_decide_unpack (NoDup JsObject.inherited)). by vm_compute. Qed.

Lemma nameKeys_entries (l : list T) :
  JsObject.nameKeys (map entry l)
  = key <$> List.filter (fun el => bool_decide (JsObject.arrayIndex (key el) = None)) l.
Proof.
  unfold JsObject.nameKeys. induction l as [|el l IH]; [done|]. cbn.
  destruct (JsObject.arrayIndex (key el)); cbn; [exact IH|].
  f_equal. exact IH.
Qed.

Lemma get_entry (l : list T) (el : T) :
  NoDup (key <$> l) -> el ∈ l -> JsObject.get (key el) (map entry l) = Some el.
Proof.
  induction l as [|x l IH]; [by intros _ ?%elem_of_nil|].
  cbn. intros [Hx Hnd]%NoDup_cons [->|Hin]%elem_of_cons.
  - by rewrite bool_decide_eq_true_2.
  - rewrite bool_decide_eq_false_2; [by apply IH|].
    intros Heq. apply Hx. rewrite Heq. by apply list_elem_of_fmap_2.
Qed.

Lemma get_key (l : list T) (k : string) (el : T) :
  JsObject.get k (map entry l) = Some el -> key el = k /\ el ∈ l.
Proof.
  induction l as [|x l IH]; [done|]. cbn. case_bool_decide as Hk.
  - intros [= ->]. split; [done|by left].
  - intros [? ?]%IH. split; [done|by right].
Qed.

Lemma omap_get_sub (l sub : list T) :
  NoDup (key <$> l) -> sub ⊆ l ->
  omap (fun k => JsObject.get k (map entry l)) (key <$> sub) = sub.
Proof.
  intros Hnd. induction sub as [|el sub IH]; [done|]. intros Hsub.
  cbn. rewrite get_entry; [|done|apply Hsub; by left].
  f_equal. apply IH. intros x Hx. apply Hsub. by right.
Qed.

Lemma indexKeys_index (o : JsObject.t T) n k :
  (n, k) ∈ JsObject.indexKeys o -> JsObject.arrayIndex k = Some n.
Proof.
  unfold JsObject.indexKeys. induction o as [|[k' v] o IH]; cbn.
  - by intros ?%elem_of_nil.
  - destruct (JsObject.arrayIndex k') as [m|] eqn:E; [|exact IH].
    rewrite insert_sorted_perm. intros [[= -> ->]|Hin]%elem_of_cons; [done|].
    by apply IH.
Qed.

End DedupeAll.

(** X11. On any array and any key function, [dedupe] returns the first
    element of each key that is not the name of a member of
    [Object.prototype], and only those: no two of the elements returned
    have the same key, an element with such an inherited name is never
    returned, and every other key of the array is represented.  Elements
    whose key is not an array index keep the order of the array and come
    after those whose key is one. *)
Theorem dedupe_first_of_each_key {T : Type} (key : T -> string) (array : list T) :
  let firsts := BehaviorNotions.firstOfEachKey key JsObject.inherited array in
  let named el := bool_decide (JsObject.arrayIndex (key el) = None) in
  BehaviorScanner.dedupe array key ≡ₚ firsts
  /\ NoDup (key <$> BehaviorScanner.dedupe array key)
  /\ (forall el, el ∈ BehaviorScanner.dedupe array key ->
                 el ∈ array /\ key el ∉ JsObject.inherited)
  /\ (forall el, el ∈ array -> key el ∉ JsObject.inherited ->
                 key el ∈ key <$> BehaviorScanner.dedupe array key)
  /\ exists front,
       BehaviorScanner.dedupe array key = front ++ List.filter named firsts
       /\ Forall (fun el => named el = false) front.
Proof.
  intros firsts named.
  set (entry := fun el : T => (key el, el)).
  assert (Hbucket :
    foldl (fun bucket el =>
             if JsObject.has_in (key el) bucket then bucket
             else JsObject.set (key el) el bucket) JsObject.empty array
    = map entry firsts).
  { pose proof (bucket_all key array []) as H. cbv zeta in H.
    cbn [app fmap list_fmap] in H. rewrite app_nil_r in H. exact H. }
  assert (Hnd : NoDup (key <$> firsts)).
  { pose proof (firsts_fresh key array _ inherited_NoDup) as H.
    by apply NoDup_app in H as (_ & _ & H). }
  assert (Hkeys : (map entry firsts).*1 = key <$> firsts).
  { rewrite <- list_fmap_compose. done. }
  assert (Hsplit : BehaviorScanner.dedupe array key
                   = omap (fun k => JsObject.get k (map entry firsts))
                          (JsObject.indexKeys (map entry firsts)).*2
                     ++ List.filter named firsts).
  { unfold BehaviorScanner.dedupe. cbv zeta. rewrite Hbucket.
    unfold JsObject.keys. rewrite omap_app. f_equal.
    rewrite (nameKeys_entries key).
    apply (omap_get_sub key); [done|].
    intros el Hel. apply list_elem_of_In, filter_In in Hel as [Hel _].
    by apply list_elem_of_In. }
  assert (Hperm : BehaviorScanner.dedupe array key ≡ₚ firsts).
  { unfold BehaviorScanner.dedupe. cbv zeta. rewrite Hbucket.
    rewrite (keys_perm (map entry firsts)), Hkeys.
    unfold entry. by rewrite (omap_get_sub key firsts firsts Hnd). }
  split; [exact Hperm|split; [|split; [|split]]].
  - by rewrite Hperm.
  - intros el Hel. rewrite Hperm in Hel.
    by apply (firsts_members key) in Hel.
  - intros el Hel Hk. rewrite Hperm. by apply firsts_cover.
  - eexists. split; [exact Hsplit|].
    apply Forall_forall. intros el Hel.
    apply list_elem_of_omap in Hel as (k & Hk & Hget).
    apply list_elem_of_fmap in Hk as ([n k'] & -> & Hin).
    apply (get_key key) in Hget as [Hkey _].
    apply indexKeys_index in Hin. unfold named. cbn in Hkey.
    rewrite Hkey, Hin. by rewrite bool_decide_eq_false_2.
Qed.

(** ** [dedupe] of what [dedupe] returned *)
Section DedupeTwice.
Import BehaviorNotions.
Context {T : Type} (key : T -> string).

Let entry (el : T) : string * T := (key el, el).
Let named (el : T) : bool := bool_decide (JsObject.arrayIndex (key el) = None).
Let ascending (p q : N * string) : Prop := (p.1 <= q.1)%N.

Lemma firsts_NoDup (array : list T) :
  NoDup (key <$> firstOfEachKey key JsObject.inherited array).
Proof.
  pose proof (firsts_fresh key array _ inherited_NoDup) as H.
  by apply NoDup_app in H as (_ & _ & H).
Qed.

(** What [dedupe] returns, from the first elements of the keys. *)
Lemma dedupe_split (array : list T) :
  let firsts := firstOfEachKey key JsObject.inherited array in
  BehaviorScanner.dedupe array key
  = omap (fun k => JsObject.get k (map entry firsts))
         (JsObject.indexKeys (map entry firsts)).*2
    ++ List.filter named firsts.
Proof.
  intros firsts. unfold BehaviorScanner.dedupe. cbv zeta.
  pose proof (bucket_all key array []) as H. cbv zeta in H.
  cbn [app fmap list_fmap] in H. rewrite app_nil_r in H.
  unfold JsObject.empty. rewrite H. fold firsts.
  unfold JsObject.keys. rewrite omap_app. f_equal.
  rewrite (nameKeys_entries key).
  apply (omap_get_sub key); [apply firsts_NoDup|].
  intros el Hel. apply list_elem_of_In, filter_In in Hel as [Hel _].
  by apply list_elem_of_In.
Qed.

Lemma dedupe_perm (array : list T) :
  BehaviorScanner.dedupe array key
  ≡ₚ firstOfEachKey key JsObject.inherited array.
Proof.
  unfold BehaviorScanner.dedupe. cbv zeta.
  pose proof (bucket_all key array []) as H. cbv zeta in H.
  cbn [app fmap list_fmap] in H. rewrite app_nil_r in H.
  unfold JsObject.empty. rewrite H.
  rewrite (keys_perm (map _ _)), <- list_fmap_compose.
  change (fst ∘ (fun el : T => (key el, el))) with key.
  by rewrite (omap_get_sub key _ _ (firsts_NoDup array)).
Qed.

(** A list without two elements of one key, none of them seen, is its own
    list of first elements. *)
Lemma firsts_id (l : list T) (seen : list string) :
  NoDup (key <$> l) -> (forall el, el ∈ l -> key el ∉ seen) ->
  firstOfEachKey key seen l = l.
Proof.
  revert seen. induction l as [|x l IH]; intros seen; [done|].
  cbn. intros [Hx Hnd]%NoDup_cons Hseen.
  rewrite bool_decide_eq_false_2 by (apply Hseen; by left).
  f_equal. apply IH; [done|]. intros el Hel.
  intros [H|H%list_elem_of_singleton]%elem_of_app.
  - by apply (Hseen el); [right|].
  - apply Hx. rewrite <- H. by apply list_elem_of_fmap_2.
Qed.

Lemma insert_sorted_least n k l :
  Forall (ascending (n, k)) l -> JsObject.insert_sorted n k l = (n, k) :: l.
Proof.
  destruct l as [|[m k'] l]; [done|]. intros [H _]%Forall_cons.
  cbn. unfold ascending in H. cbn in H.
  by rewrite (proj2 (N.leb_le n m) H).
Qed.

Lemma insert_sorted_ascending n k l :
  StronglySorted ascending l ->
  StronglySorted ascending (JsObject.insert_sorted n k l).
Proof.
  induction 1 as [|[m k'] l Hs IH Hall]; cbn.
  - constructor; [constructor|done].
  - destruct (n <=? m)%N eqn:E.
    + apply N.leb_le in E. constructor; [by constructor|].
      constructor; [exact E|].
      eapply Forall_impl; [exact Hall|]. intros [? ?]. unfold ascending. cbn. lia.
    + apply N.leb_gt in E. constructor; [exact IH|].
      rewrite insert_sorted_perm. constructor; [|exact Hall].
      unfold ascending. cbn. lia.
Qed.

Lemma indexKeys_ascending (o : JsObject.t T) :
  StronglySorted ascending (JsObject.indexKeys o).
Proof.
  unfold JsObject.indexKeys. induction o as [|[k v] o IH]; cbn; [constructor|].
  destruct (JsObject.arrayIndex k); [|exact IH].
  by apply insert_sorted_ascending.
Qed.

Lemma indexKeys_named (l : list T) :
  Forall (fun el => named el = true) l -> JsObject.indexKeys (map entry l) = [].
Proof.
  unfold JsObject.indexKeys. induction 1 as [|el l Hel _ IH]; [done|].
  cbn. apply bool_decide_eq_true_1 in Hel. by rewrite Hel.
Qed.

(** Elements given in the order of their array indices are enumerated in
    that order. *)
Lemma indexKeys_entries (front names : list T) (l : list (N * string)) :
  StronglySorted ascending l ->
  key <$> front = l.*2 ->
  (forall n k, (n, k) ∈ l -> JsObject.arrayIndex k = Some n) ->
  Forall (fun el => named el = true) names ->
  JsObject.indexKeys (map entry (front ++ names)) = l.
Proof.
  intros Hs Hk Hi Hn. revert l Hs Hk Hi.
  induction front as [|el front IH]; intros l Hs Hk Hi.
  - destruct l; [|done]. by apply indexKeys_named.
  - destruct l as [|[n k] l]; [done|]. cbn in Hk. injection Hk as Hel Hk.
    apply StronglySorted_inv in Hs as [Hs Hall].
    specialize (IH l Hs Hk (fun n k H => Hi n k (list_elem_of_further _ _ _ H))).
    unfold JsObject.indexKeys in *. cbn.
    rewrite Hel, (Hi n k) by by left.
    rewrite IH. by apply insert_sorted_least.
Qed.

Lemma get_keys (l : list T) (ks : list string) :
  NoDup (key <$> l) -> ks ⊆ key <$> l ->
  key <$> omap (fun k => JsObject.get k (map entry l)) ks = ks.
Proof.
  intros Hnd. induction ks as [|k ks IH]; [done|]. intros Hsub.
  assert (Hk : k ∈ key <$> l) by (apply Hsub; by left).
  apply list_elem_of_fmap in Hk as (el & -> & Hel).
  cbn [omap list_omap]. unfold entry at 1.
  rewrite (get_entry key l el Hnd Hel). cbn. f_equal.
  apply IH. intros x Hx. apply Hsub. by right.
Qed.

Lemma dedupe_twice (array : list T) :
  BehaviorScanner.dedupe (BehaviorScanner.dedupe array key) key
  = BehaviorScanner.dedupe array key.
Proof.
  set (firsts := firstOfEachKey key JsObject.inherited array).
  set (D := BehaviorScanner.dedupe array key).
  set (L := JsObject.indexKeys (map entry firsts)).
  set (front := omap (fun k => JsObject.get k (map entry firsts)) L.*2).
  set (names := List.filter named firsts).
  assert (HD : D = front ++ names) by apply dedupe_split.
  assert (Hperm : D ≡ₚ firsts) by apply dedupe_perm.
  assert (Hnd : NoDup (key <$> D)).
  { rewrite Hperm. apply firsts_NoDup. }
  assert (Hown : forall el, el ∈ D -> key el ∉ JsObject.inherited).
  { intros el Hel. rewrite Hperm in Hel.
    by apply (firsts_members key) in Hel as [_ ?]. }
  assert (Hnames : Forall (fun el => named el = true) names).
  { apply Forall_forall. intros el Hel.
    by apply list_elem_of_In, filter_In in Hel as [_ ?]. }
  assert (HL : L.*2 ⊆ key <$> firsts).
  { intros k Hk.
    assert (Hin : k ∈ JsObject.keys (map entry firsts))
      by (apply elem_of_app; by left).
    rewrite (keys_perm (map entry firsts)), <- list_fmap_compose in Hin.
    exact Hin. }
  assert (Hfront : key <$> front = L.*2)
    by (apply get_keys; [apply firsts_NoDup|exact HL]).
  assert (Hindex : JsObject.indexKeys (map entry D) = L).
  { rewrite HD. apply indexKeys_entries; try done.
    - apply indexKeys_ascending.
    - intros n k. apply indexKeys_index. }
  assert (Hfiltered : List.filter named D = names).
  { rewrite HD, List.filter_app.
    assert (Hnone : List.filter named front = []).
    { assert (Hf : Forall (fun el => named el = false) front).
      { apply Forall_forall. intros el Hel.
        assert (Hk : key el ∈ L.*2)
          by (rewrite <- Hfront; by apply list_elem_of_fmap_2).
        apply list_elem_of_fmap in Hk as ([n k] & Hk & Hin). cbn in Hk.
        apply indexKeys_index in Hin. unfold named.
        rewrite Hk, Hin. by rewrite bool_decide_eq_false_2. }
      clear -Hf. induction Hf as [|el l Hel _ IH]; [done|].
      cbn. by rewrite Hel. }
    rewrite Hnone. cbn. unfold names.
    clear. induction firsts as [|el l IH]; [done|]. cbn.
    destruct (named el) eqn:E; cbn; [rewrite E; by f_equal|done]. }
  rewrite (dedupe_split D). cbv zeta.
  rewrite (firsts_id D JsObject.inherited Hnd Hown).
  rewrite Hindex, Hfiltered, <- Hfront. unfold entry.
  rewrite (omap_get_sub key D front Hnd).
  - by rewrite <- HD.
  - intros el Hel. rewrite HD. apply elem_of_app. by left.
Qed.

End DedupeTwice.

(** X19. [dedupe] is idempotent: applied to what it returned, with the
    same key function, it returns the same array, in the same order. *)
Theorem dedupe_is_idempotent {T : Type} (key : T -> string) (array : list T) :
  BehaviorScanner.dedupe (BehaviorScanner.dedupe array key) key
  = BehaviorScanner.dedupe array key.
Proof. apply dedupe_twice. Qed.

(** ** The records of the behavior scanner *)
Section Named.
Import BehaviorScanner BehaviorNotions NamedNotions.
Variable env : Env.
Hypothesis Hhandlers : handlersKeepName env.

Lemma isNamed_names v v' r : nameAt v' r = nameAt v r -> isNamed v r -> isNamed v' r.
Proof. intros H (c & Hc & Ht). exists c. by rewrite H. Qed.

Lemma allNamed_mutate r f v :
  (forall b, className (f b) = className b) -> allNamed v -> allNamed (mutate r f v).
Proof.
  intros Hf [Hfound Hcur]. split.
  - intros r' Hr'. eapply isNamed_names; [|by apply Hfound].
    by apply nameAt_mutate_keep.
  - intros c Hc. eapply isNamed_names; [|by apply Hcur].
    by apply nameAt_mutate_keep.
Qed.

Lemma finish_named v : allNamed v -> allNamed (_finishBehavior v).
Proof.
  intros [Hfound Hcur]. unfold _finishBehavior, console_assert.
  destruct v as [st fd [c|] h fa]; cbn in *.
  - split; [|done]. cbn. intros r Hr. unfold Set_add in Hr.
    case_bool_decide; [by apply Hfound|].
    apply elem_of_app in Hr as [Hr|Hr%list_elem_of_singleton]; [|subst r].
    + by apply Hfound.
    + by apply Hcur.
  - split; [|done]. exact Hfound.
Qed.

Lemma nameAt_parseChained node v r :
  nameAt (_parseChainedBehaviors env node v) r = nameAt v r.
Proof.
  unfold _parseChainedBehaviors.
  destruct (behaviorExpression node) as [[]|]; try done.
  destruct (currentBehavior v); try done.
  destruct (0 <? _)%nat; [|done]. by apply nameAt_mutate_keep.
Qed.

Lemma initBehavior_named node symbol v v' :
  wf v -> allNamed v -> _initBehavior env node symbol v = inr v' -> allNamed v'.
Proof.
  intros Hwf [Hfound Hcur] Hinit.
  destruct (mentionsTag env node || isSentinel symbol)%bool eqn:Hp.
  2:{ rewrite initBehavior_ignored in Hinit by done. by injection Hinit as <-. }
  rewrite initBehavior_promoted in Hinit by done. cbn zeta in Hinit.
  pose proof (sameFound_promoted env node v Hwf) as S1.
  assert (Hnew : length (store v) ∉ found v).
  { intros Hin. destruct Hwf as [Hf _]. rewrite Forall_forall in Hf.
    specialize (Hf _ Hin). lia. }
  destruct (negb _ && negb _)%bool.
  { injection Hinit as <-. split; [|done].
    intros r Hr. destruct S1 as (_ & _ & N1).
    eapply isNamed_names; [|by apply Hfound]. by apply N1. }
  set (name := Js.or_else _ symbol) in *.
  destruct (Js.truthy name) eqn:Hname; [|done]. cbn [negb] in Hinit.
  set (v2 := mutate (length (store v)) (with_className name) (promoted env node v)) in *.
  set (v3 := _parseChainedBehaviors env node v2) in *.
  assert (S3 : sameFound v v3).
  { eapply sameFound_trans; [exact S1|].
    eapply sameFound_trans; [|apply sameFound_parseChained].
    by apply sameFound_mutate_new. }
  assert (Hcand : nameAt v3 (length (store v)) = Some name).
  { unfold v3. rewrite nameAt_parseChained. unfold v2, nameAt.
    by rewrite (deref_mutate_eq _ _ _ _ (deref_promoted env node v)). }
  assert (H3 : forall r, r ∈ found v3 -> isNamed v3 r).
  { destruct S3 as (F3 & _ & N3). intros r Hr. rewrite F3 in Hr.
    eapply isNamed_names; [|by apply Hfound]. by apply N3. }
  assert (Hmerge : allNamed
            (set_handlers (Some (mergeBehavior (length (store v)) v3).1)
               (set_current (Some (mergeBehavior (length (store v)) v3).1)
                            (mergeBehavior (length (store v)) v3).2))).
  { unfold mergeBehavior.
    destruct (deref (length (store v)) v3) as [nb|] eqn:Hnb.
    2:{ unfold nameAt in Hcand. by rewrite Hnb in Hcand. }
    destruct (sameName nb (store v3) (found v3)) as [r|] eqn:Hs; cbn [fst snd].
    - destruct (sameName_Some _ _ _ _ Hs) as [Hin _].
      assert (Hm : forall r', r' ∈ found v3 ->
                     isNamed (mutate r (mergeInto nb) v3) r').
      { intros r' Hr'. eapply isNamed_names; [|by apply H3].
        apply nameAt_mutate_keep, mergeInto_className. }
      split; [exact Hm|]. intros c [= <-]. by apply Hm.
    - split; [exact H3|]. intros c [= <-]. by exists name. }
  destruct (isSimpleBehaviorArray _); injection Hinit as <-;
    [by apply finish_named|done].
Qed.

Lemma objectProperties_named props v v' :
  allNamed v -> objectProperties env props v = inr v' -> allNamed v'.
Proof.
  revert v. induction props as [|prop props IH]; intros v Hv; cbn.
  - by intros [= <-].
  - destruct (negb (Js.truthy _)); [done|]. apply IH.
    destruct (declarationPropertyHandlers env _) as [handler|] eqn:Hh.
    + destruct (propertyHandlers v); [|done].
      apply allNamed_mutate; [|done]. intros b. by eapply Hhandlers.
    + destruct (currentBehavior v); [|done]. by apply allNamed_mutate.
Qed.

Lemma visit_named es v v' :
  wf v -> allNamed v -> visit env es v = inr v' -> allNamed v'.
Proof.
  revert v. induction es as [|e es IH]; intros v Hwf Hv; cbn.
  - by intros [= <-].
  - destruct (visit1 env e v) as [|v1] eqn:He; [done|].
    apply IH; [by eapply visit1_wf|].
    destruct e as [node|node parent|node]; cbn in He.
    + unfold enterVariableDeclaration in He.
      destruct node as [[|d [|]] ?| |]; try (by injection He as <-).
      by eapply initBehavior_named.
    + unfold enterAssignmentExpression in He.
      destruct node; try (by injection He as <-).
      by eapply initBehavior_named.
    + unfold enterObjectExpression in He.
      destruct node as [| |props| | |]; try (by injection He as <-).
      destruct (currentBehavior v); try (by injection He as <-).
      destruct (objectProperties env props v) as [|v2] eqn:Ho; [done|].
      injection He as <-. apply finish_named. by eapply objectProperties_named.
Qed.

Lemma scan_named es bs :
  scan env es = inr bs -> Forall (fun b => Js.truthy (className b) = true) bs.
Proof.
  unfold scan. destruct (visit env es create) as [|v] eqn:Hv; [done|].
  intros [= <-].
  assert (Hn : allNamed create) by (split; [by intros r ?%elem_of_nil|done]).
  destruct (visit_named es create v wf_create Hn Hv) as [Hfound _].
  apply Forall_forall. intros b Hb.
  apply list_elem_of_omap in Hb as (r & Hr & Hderef).
  destruct (Hfound r Hr) as (c & Hc & Ht).
  unfold nameAt in Hc. rewrite Hderef in Hc. by injection Hc as ->.
Qed.

End Named.

(** X12. Every behavior the scanner reports has a class name that is not
    empty, and no two behaviors it reports have the same class name, as
    long as the handlers of the declaration properties leave the class
    name alone. *)
Theorem scanned_behaviors_have_distinct_names
    (env : BehaviorScanner.Env) (es : list BehaviorScanner.Visit)
    (bs : list BehaviorScanner.ScannedBehavior)
    (Hhandlers : BehaviorNotions.handlersKeepName env)
    (Hscan : BehaviorScanner.scan env es = inr bs) :
  Forall (fun b => Js.truthy (BehaviorScanner.className b) = true) bs
  /\ NoDup (BehaviorScanner.className <$> bs).
Proof.
  split.
  - by eapply scan_named.
  - by eapply scan_one_record_per_name.
Qed.

(** A well-formed string that is not empty has a positive length. *)
Lemma wellFormed_length (s : string) :
  Js.wellFormed s = true -> s <> "" -> (0 < Js.length s)%nat.
Proof.
  destruct s as [|c s]; [done|]. intros H _. revert H.
  unfold Js.wellFormed. cbn [Js.encoded Js.length]. unfold Js.codeUnits.
  cbv zeta.
  destruct (nat_of_ascii c <? 128)%nat; [lia|].
  destruct (nat_of_ascii c <? 192)%nat; [done|].
  destruct (nat_of_ascii c <? 240)%nat; lia.
Qed.

(** X13. When a declaration is merged into the record of the same class
    name, the description that is strictly longer wins, the length being
    counted in UTF-16 code units as [.length] counts it and a missing
    description counting as empty: the merged record carries the new
    description exactly when it is longer than the old one, and the old one
    otherwise, ties included. *)
Theorem merged_description_is_longest
    (newBehavior behavior : BehaviorScanner.ScannedBehavior)
    (Hnew : Js.wellFormed
              (default "" (BehaviorScanner.description newBehavior)) = true) :
  let merged := BehaviorScanner.mergeInto newBehavior behavior in
  let size (d : option string) := Js.length (default "" d) in
  let old := BehaviorScanner.description behavior in
  let new := BehaviorScanner.description newBehavior in
  BehaviorScanner.description merged
  = (if (size old <? size new)%nat then new else old)
  /\ size (BehaviorScanner.description merged) = (size old `max` size new)%nat.
Proof.
  intros merged size old new.
  destruct (mergeInto_description newBehavior behavior) as (H1 & H2 & H3).
  fold merged old new in H1, H2, H3, Hnew.
  assert (Hsize : forall d, Js.truthy d = false -> size d = 0%nat).
  { intros [s|]; cbn; [|done]. case_bool_decide; [by subst|done]. }
  assert (Hpos : Js.truthy new = true -> (0 < size new)%nat).
  { destruct new as [s|]; cbn; [|done]. case_bool_decide; [done|].
    intros _. by apply wellFormed_length. }
  assert (Heq : BehaviorScanner.description merged
                = if (size old <? size new)%nat then new else old).
  { destruct (Js.truthy new) eqn:Hn.
    - destruct (Js.truthy old) eqn:Ho.
      + by apply H3.
      + rewrite H2 by done. apply Hsize in Ho. specialize (Hpos eq_refl).
        destruct (Nat.ltb_spec (size old) (size new)); [done|lia].
    - rewrite H1 by done. apply Hsize in Hn.
      destruct (Nat.ltb_spec (size old) (size new)); [lia|done]. }
  split; [exact Heq|]. rewrite Heq.
  destruct (Nat.ltb_spec (size old) (size new)); lia.
Qed.

Lemma substring_prefix (s post : string) :
  String.substring 0 (String.length s) (s +:+ post) = s.
Proof.
  induction s as [|y s IHs].
  - change ("" +:+ post) with post. by destruct post.
  - change (String y s +:+ post) with (String y (s +:+ post)). cbn.
    by rewrite IHs.
Qed.

Lemma substring_middle (pre s post : string) :
  String.substring (String.length pre) (String.length s) (pre +:+ s +:+ post) = s.
Proof.
  induction pre as [|x pre IH].
  - change ("" +:+ s +:+ post) with (s +:+ post). apply substring_prefix.
  - change (String x pre +:+ s +:+ post) with (String x (pre +:+ s +:+ post)).
    exact IH.
Qed.

(** X14. The merge keeps, of the chained behaviors of both records, those
    whose name does not contain the class name of the new record, in their
    order: a chained name in which the class name occurs anywhere is
    dropped, whatever follows or precedes the class name in it. *)
Theorem merge_drops_chained_names_with_class_name
    (newBehavior behavior : BehaviorScanner.ScannedBehavior) (c : string)
    (Hname : BehaviorScanner.className newBehavior = Some c) :
  let merged := BehaviorScanner.mergeInto newBehavior behavior in
  let chained := BehaviorScanner.behaviors behavior
                 ++ BehaviorScanner.behaviors newBehavior in
  BehaviorScanner.behaviors merged `sublist_of` chained
  /\ (forall b, b ∈ BehaviorScanner.behaviors merged
                <-> b ∈ chained /\ Js.includes b c = false)
  /\ (forall b pre post, b ∈ chained -> b = pre +:+ c +:+ post ->
        b ∉ BehaviorScanner.behaviors merged).
Proof.
  intros merged chained.
  destruct (mergeInto_members newBehavior behavior) as (_ & _ & _ & _ & Hb & _).
  fold merged chained in Hb. rewrite Hname in Hb. cbn [default] in Hb.
  assert (Hiff : forall b, b ∈ BehaviorScanner.behaviors merged
                           <-> b ∈ chained /\ Js.includes b c = false).
  { intros b. rewrite Hb, list_elem_of_In, filter_In, <- list_elem_of_In.
    by rewrite negb_true_iff. }
  split; [|split; [exact Hiff|]].
  - rewrite Hb. clear. induction chained as [|b l IH]; cbn; [done|].
    destruct (negb _); [by constructor|by constructor].
  - intros b pre post Hin -> Hkept. apply Hiff in Hkept as [_ Hno].
    destruct c as [|a c'].
    + by destruct (pre +:+ "" +:+ post).
    + eapply (includes_absent _ _ (String.length pre) Hno); [done|].
      apply substring_middle.
Qed.
(** ** The location offset of the text of an HTML node *)

(** X15. [getLocationOffsetOfStartOfTextContent] throws exactly when
    neither the node nor any of its children has a location, and the
    message then ends in the inspection of the node.  When a child has a
    location, the location used is that of the first such child, whatever
    the location of the node itself and of the later children; when no
    child has one, it is that of the node.  From the location used, the
    offset has the line less one and the column when the location has a
    line of its own, and the line less one and the end offset of the start
    tag when it has not; no file name is set. *)
Theorem location_offset_of_first_located_child
    (inspect : InlineDocument.Element -> string)
    (astNode : InlineDocument.ASTNode)
    (own : option InlineDocument.Location)
    (children : list InlineDocument.Element) :
  let node := InlineDocument.mkElement astNode own children in
  let result := InlineDocument.getLocationOffsetOfStartOfTextContent inspect node in
  let offsetOf (loc : InlineDocument.Location) :=
    match loc with
    | InlineDocument.PlainLocation l =>
        mkOffset (InlineDocument.loc_line l - 1) (InlineDocument.loc_col l) None
    | InlineDocument.ElementLocation startTag =>
        mkOffset (InlineDocument.loc_line startTag - 1)
                 (InlineDocument.endOffset startTag) None
    end in
  let unlocated :=
    Forall (fun c => InlineDocument.__location c = None) in
  ((exists e, result = inl e) <-> own = None /\ unlocated children)
  /\ (own = None /\ unlocated children ->
      result
      = inl (Error ("Couldn't extract a location offset from HTML node: "
                    +:+ inspect node) ""))
  /\ (forall before child after loc,
        children = before ++ child :: after ->
        unlocated before ->
        InlineDocument.__location child = Some loc ->
        result = inr (offsetOf loc))
  /\ (forall loc,
        unlocated children -> own = Some loc -> result = inr (offsetOf loc)).
Proof.
  intros node result offsetOf unlocated. subst result node unlocated.
  unfold InlineDocument.getLocationOffsetOfStartOfTextContent.
  cbn [InlineDocument.childNodes InlineDocument.__location].
  set (located := fun n : InlineDocument.Element =>
                    bool_decide (is_Some (InlineDocument.__location n))).
  assert (Hnone : forall l,
            Forall (fun c => InlineDocument.__location c = None) l ->
            List.find located l = None).
  { induction 1 as [|c l Hc _ IH]; cbn; [done|].
    unfold located at 1. rewrite Hc.
    by rewrite bool_decide_eq_false_2 by (by intros [? ?]). }
  assert (Hskip : forall before child after,
            Forall (fun c => InlineDocument.__location c = None) before ->
            is_Some (InlineDocument.__location child) ->
            List.find located (before ++ child :: after) = Some child).
  { intros before child after Hb Hc. induction Hb as [|c l Hcl _ IH]; cbn.
    - unfold located. by rewrite bool_decide_eq_true_2.
    - unfold located at 1. rewrite Hcl.
      rewrite bool_decide_eq_false_2 by (by intros [? ?]). exact IH. }
  assert (Hfind : forall l child,
            List.find located l = Some child ->
            child ∈ l /\ is_Some (InlineDocument.__location child)).
  { induction l as [|c l IH]; cbn; [done|]. intros child.
    unfold located at 1. case_bool_decide as Hc.
    - intros [= <-]. split; [by left|done].
    - intros H. destruct (IH _ H). split; [by right|done]. }
  assert (Hall : forall l,
            List.find located l = None ->
            Forall (fun c => InlineDocument.__location c = None) l).
  { induction l as [|c l IH]; cbn; [constructor|].
    unfold located at 1. case_bool_decide as Hc; [done|].
    intros H. constructor; [|by apply IH].
    destruct (InlineDocument.__location c); [|done].
    exfalso. apply Hc. by eexists. }
  split; [|split; [|split]].
  - destruct (List.find located children) as [child|] eqn:E.
    + destruct (Hfind _ _ E) as [Hin [loc Hloc]]. rewrite Hloc. split.
      * intros [e He]. by destruct loc.
      * intros [_ Hno]. rewrite Forall_forall in Hno.
        rewrite (Hno _ Hin) in Hloc. done.
    + apply Hall in E.
      destruct own as [[l|l]|]; split; try (by intros [? ?]); try done.
      intros _. by eexists.
  - intros [-> Hno]. by rewrite (Hnone _ Hno).
  - intros before child after loc -> Hb Hc.
    rewrite Hskip by (try done; by rewrite Hc). rewrite Hc.
    by destruct loc.
  - intros loc Hno ->. rewrite (Hnone _ Hno). by destruct loc.
Qed.

(** The location of the second child is used when the first has none,
    though the node and the third child have locations too. *)
Example location_offset_sample :
  let at_ line col := InlineDocument.mkLocation line col 0%Z 7%Z in
  let child loc :=
    InlineDocument.mkElement (InlineDocument.mkNode "#text" None) loc [] in
  InlineDocument.getLocationOffsetOfStartOfTextContent (fun _ => "node")
    (InlineDocument.mkElement (InlineDocument.mkNode "script" None)
       (Some (InlineDocument.PlainLocation (at_ 1 1)%Z))
       [child None;
        child (Some (InlineDocument.ElementLocation (at_ 5 2)%Z));
        child (Some (InlineDocument.PlainLocation (at_ 9 3)%Z))])
  = inr (mkOffset 4%Z 7%Z None).
Proof. reflexivity. Qed.

(** ** Instances of the further properties *)

(** The second request of a channel goes out as number one. *)
Lemma request_ids_are_fresh_witness :
  let ch := (Channel.request Channel.create).2 in
  (Channel.request ch).1.1 = 1%Z
  /\ ChannelNotions.promiseOf (Channel.request ch).2 (Channel.request ch).1.1
     = Some Channel.Pending.
Proof.
  cbn zeta.
  destruct (request_ids_are_fresh [ChannelNotions.Request]
              (Channel.request Channel.create).2 eq_refl)
    as (H1 & _ & _ & H4 & _).
  split; [exact H1|exact H4].
Defined.

(** Of two requests the answer to the second leaves the first pending. *)
Lemma response_settles_only_its_request_witness :
  let ch := (Channel.request (Channel.request Channel.create).2).2 in
  exists ch',
    Channel._handleResponse (Channel.mkResponse 1 (Channel.Resolution "[]")) ch
    = inr ch'
    /\ ChannelNotions.promiseOf ch' 0 = Some Channel.Pending
    /\ ChannelNotions.promiseOf ch' 1 = Some (Channel.Resolved "[]").
Proof.
  cbn zeta. eexists. split; [reflexivity|].
  destruct (response_settles_only_its_request
              [ChannelNotions.Request; ChannelNotions.Request]
              (Channel.request (Channel.request Channel.create).2).2 _
              (Channel.mkResponse 1 (Channel.Resolution "[]"))
              eq_refl eq_refl) as (Hother & Hown & _).
  split.
  - rewrite (Hother 0%Z); [reflexivity|discriminate].
  - apply Hown. reflexivity.
Defined.

(** A file that does not exist is refused though its contents are given. *)
Lemma unloadable_root_is_rejected_witness :
  let a := Analyzer.run Samples.chain 4
             (RootNotions.asked Samples.chain "missing.html" (Some "<p>")) in
  Analyzer.promises a !! 2%nat
  = Some (Analyzer.Done
            (Analyzer.Rejected (Error "Can't load URL: missing.html" "")))
  /\ Analyzer.calls a = [].
Proof.
  cbn zeta.
  destruct (unloadable_root_is_rejected Samples.chain "missing.html"
              (Some "<p>")) as (_ & _ & H1 & H2 & _).
  - vm_compute. reflexivity.
  - split; [exact H1|exact H2].
Defined.

(** The failure stays in the cache when the file has appeared, and
    answers while the scan of another document is queued. *)
Lemma cached_outcome_answers_later_requests_witness :
  let a := (Analyzer.analyzeRoot Samples.chain "a.html" None
              (Analyzer.run Samples.chain 4
                 (RootNotions.asked Samples.chain "missing.html" None))).2 in
  exists b,
    Analyzer.run_schedule RootSamples.restored [1; 1]%nat
      (Analyzer.analyzeRoot RootSamples.restored "missing.html" None a).2
    = Some b
    /\ Analyzer.promises b !! 8%nat
       = Some (Analyzer.Done
                 (Analyzer.Rejected (Error "Can't load URL: missing.html" "")))
    /\ Analyzer.jobs b = [Analyzer.JScanResolved "a.html" None 5]
    /\ Analyzer.calls b = [].
Proof.
  cbn zeta.
  destruct (cached_outcome_answers_later_requests Samples.chain
              RootSamples.restored "missing.html"
              (Analyzer.analyzeRoot Samples.chain "a.html" None
                 (Analyzer.run Samples.chain 4
                    (RootNotions.asked Samples.chain "missing.html" None))).2
              1%nat
              (Analyzer.Rejected (Error "Can't load URL: missing.html" "")))
    as (_ & _ & _ & b & Hrun & Hjobs & _ & Hcalls & _ & _ & _ & _ & _ & Hagain).
  - apply AnalyzerNotions.later_request.
    eapply later_trans; [|apply run_later].
    apply AnalyzerNotions.later_request. apply AnalyzerNotions.later_now.
  - vm_compute. reflexivity.
  - vm_compute. reflexivity.
  - exists b. split; [exact Hrun|]. split; [exact Hagain|].
    split; [rewrite Hjobs; vm_compute; reflexivity|].
    rewrite Hcalls. vm_compute. reflexivity.
Defined.


(** The contents given for card.html are what is parsed. *)
Lemma leaf_document_is_scanned_witness :
  let a := Analyzer.run RootSamples.plain 8
             (RootNotions.asked RootSamples.plain "card.html"
                                (Some "<x-card>new</x-card>")) in
  Analyzer.promises a !! 2%nat
  = Some (Analyzer.Done (Analyzer.Fulfilled (Analyzer.VDocument 0)))
  /\ AnalyzerNotions.loadedUrls a = []
  /\ AnalyzerNotions.scannedUrls a = ["card.html"]
  /\ (Analyzer.contents <$> (Analyzer.document <$> Analyzer.documents a))
     = ["<x-card>new</x-card>"].
Proof.
  cbn zeta.
  destruct (leaf_document_is_scanned RootSamples.plain "card.html"
              (Some "<x-card>new</x-card>")
              (Analyzer.mkParsed "html" "card.html" "<x-card>new</x-card>"
                                 "<x-card>new</x-card>")
              [Analyzer.FElement
                 (Analyzer.mkElement "x-card" (Samples.range0 "card.html") None);
               Analyzer.FOther "comment"])
    as (_ & _ & H1 & H2 & H3 & H4 & _).
  - vm_compute. reflexivity.
  - vm_compute. reflexivity.
  - repeat constructor.
  - split; [exact H1|split; [exact H3|split; [exact H4|]]].
    rewrite H2. reflexivity.
Defined.

(** The two declarations of [twice] give one named record. *)
Lemma scanned_behaviors_have_distinct_names_witness :
  exists bs,
    BehaviorScanner.scan BehaviorSamples.twice BehaviorSamples.twiceVisits = inr bs
    /\ Forall (fun b => Js.truthy (BehaviorScanner.className b) = true) bs
    /\ NoDup (BehaviorScanner.className <$> bs).
Proof.
  eexists. split; [vm_compute; reflexivity|].
  apply (scanned_behaviors_have_distinct_names BehaviorSamples.twice
           BehaviorSamples.twiceVisits).
  - intros name handler value b H. discriminate H.
  - vm_compute. reflexivity.
Defined.

(** Merging into [Polymer.Foo] keeps the chained [Polymer.Bar], in which
    the class name does not occur. *)
Lemma merge_drops_chained_names_with_class_name_witness :
  let record name chained :=
    BehaviorScanner.with_behaviors chained
      (BehaviorScanner.with_className (Some name)
         (BehaviorScanner.new_ScannedBehavior None [] (BehaviorSamples.at_line 1))) in
  "Polymer.Bar"
  ∈ BehaviorScanner.behaviors
      (BehaviorScanner.mergeInto
         (record "Polymer.Foo" ["Polymer.FooImpl"; "Polymer.Bar"])
         (record "Polymer.Foo" ["Polymer.FooBar"])).
Proof.
  cbn zeta.
  destruct (merge_drops_chained_names_with_class_name
              (BehaviorScanner.with_behaviors ["Polymer.FooImpl"; "Polymer.Bar"]
                 (BehaviorScanner.with_className (Some "Polymer.Foo")
                    (BehaviorScanner.new_ScannedBehavior None []
                       (BehaviorSamples.at_line 1))))
              (BehaviorScanner.with_behaviors ["Polymer.FooBar"]
                 (BehaviorScanner.with_className (Some "Polymer.Foo")
                    (BehaviorScanner.new_ScannedBehavior None []
                       (BehaviorSamples.at_line 1))))
              "Polymer.Foo" eq_refl) as (_ & H & _).
  apply H. split; [|reflexivity]. cbn. repeat constructor.
Defined.

(** A description of three letters is kept against one of two accented
    letters, which is four bytes and two code units long. *)
Lemma merged_description_is_longest_witness :
  let accented := Js.bytes [195; 169; 195; 169]%nat in
  let record description :=
    BehaviorScanner.with_className (Some "Polymer.Foo")
      (BehaviorScanner.new_ScannedBehavior description []
         (BehaviorSamples.at_line 1)) in
  String.length accented = 4%nat
  /\ Js.length accented = 2%nat
  /\ BehaviorScanner.description
       (BehaviorScanner.mergeInto (record (Some accented)) (record (Some "abc")))
     = Some "abc".
Proof.
  cbn zeta. split; [reflexivity|]. split; [reflexivity|].
  destruct (merged_description_is_longest
              (BehaviorScanner.with_className (Some "Polymer.Foo")
                 (BehaviorScanner.new_ScannedBehavior
                    (Some (Js.bytes [195; 169; 195; 169]%nat)) []
                    (BehaviorSamples.at_line 1)))
              (BehaviorScanner.with_className (Some "Polymer.Foo")
                 (BehaviorScanner.new_ScannedBehavior (Some "abc") []
                    (BehaviorSamples.at_line 1)))) as [H _].
  - vm_compute. reflexivity.
  - rewrite H. vm_compute. reflexivity.
Defined.

(** a.html of [selfish] is still pending after twenty turns. *)
Lemma self_import_is_never_analyzed_witness :
  Analyzer.jobs (Analyzer.run RootSamples.selfish 20
                   (RootNotions.asked RootSamples.selfish "a.html" None)) = []
  /\ exists a,
       Analyzer.run_schedule RootSamples.selfish [0; 0; 0; 0; 0; 0]%nat
         (RootNotions.asked RootSamples.selfish "a.html" None) = Some a
       /\ Analyzer.promises a !! 2%nat = Some Analyzer.Pending.
Proof.
  destruct (self_import_is_never_analyzed RootSamples.selfish "a.html" None
              (Analyzer.mkParsed "html" "a.html" "<link rel=import href=a.html>"
                                 "<link rel=import href=a.html>")
              [Analyzer.FOther "comment"; Samples.html_import "a.html" "a.html"]
              1%nat
              (Analyzer.mkImport "html-import" "a.html" (Samples.range0 "a.html")
                                 (Samples.range0 "a.html") None))
    as (Hall & Hend).
  - vm_compute. reflexivity.
  - vm_compute. reflexivity.
  - reflexivity.
  - reflexivity.
  - reflexivity.
  - split.
    + destruct (Hend 20%nat) as (H & _); [lia|exact H].
    + eexists. split; [vm_compute; reflexivity|].
      apply (Hall [0; 0; 0; 0; 0; 0]%nat). vm_compute. reflexivity.
Defined.

(** a.html of [chain] has b.html as its dependency. *)
Lemma import_of_leaf_is_resolved_witness :
  let a := Analyzer.run Samples.chain 16
             (RootNotions.asked Samples.chain "a.html" None) in
  Analyzer.promises a !! 2%nat
  = Some (Analyzer.Done (Analyzer.Fulfilled (Analyzer.VDocument 1)))
  /\ AnalyzerNotions.loadedUrls a = ["a.html"; "b.html"]
  /\ (Analyzer.dependencies <$> Analyzer.documents a) = [[]; [0%nat]].
Proof.
  cbn zeta.
  destruct (import_of_leaf_is_resolved Samples.chain "a.html" None
              (Analyzer.mkParsed "html" "a.html" "<link rel=import href=b.html>"
                                 "<link rel=import href=b.html>")
              [Samples.html_import "a.html" "b.html"] 0%nat
              (Analyzer.mkImport "html-import" "b.html" (Samples.range0 "a.html")
                                 (Samples.range0 "a.html") None)
              (Analyzer.mkParsed "html" "b.html" "" "") [])
    as (_ & _ & H1 & H2 & _ & H3).
  - vm_compute. reflexivity.
  - vm_compute. reflexivity.
  - reflexivity.
  - reflexivity.
  - vm_compute. discriminate.
  - vm_compute. reflexivity.
  - vm_compute. reflexivity.
  - constructor.
  - split; [exact H1|split; [exact H3|]]. rewrite H2. reflexivity.
Defined.

(** The two imports of a.html in [severed], failing in either order. *)
Lemma import_failures_in_either_order_witness :
  let ex := Error "Can't load URL: x.html" "" in
  let ey := Error "Can't load URL: y.html" "" in
  let a := RootSamples.severed_waiting in
  let seen (b : Analyzer.t) :=
    (fun d => (Analyzer.dependencies d, message <$> Analyzer.warnings d))
      <$> Analyzer.documents b in
  seen (Analyzer.resume_scanImport 0 1 1 (Analyzer.Rejected ey)
          (Analyzer.resume_scanImport 0 0 0 (Analyzer.Rejected ex) a))
  = [([], ["Unable to load import: Can't load URL: x.html";
           "Unable to load import: Can't load URL: y.html"])]
  /\ seen (Analyzer.resume_scanImport 0 0 0 (Analyzer.Rejected ex)
             (Analyzer.resume_scanImport 0 1 1 (Analyzer.Rejected ey) a))
     = [([], ["Unable to load import: Can't load URL: y.html";
              "Unable to load import: Can't load URL: x.html"])].
Proof.
  cbn zeta.
  edestruct (import_failures_in_either_order 0 0 1 0 1
               (Error "Can't load URL: x.html" "")
               (Error "Can't load URL: y.html" "")
               RootSamples.severed_waiting) as [H1 H2].
  - vm_compute. reflexivity.
  - vm_compute. reflexivity.
  - vm_compute. reflexivity.
  - reflexivity.
  - reflexivity.
  - discriminate.
  - vm_compute. reflexivity.
  - vm_compute. reflexivity.
  - vm_compute. reflexivity.
  - vm_compute. reflexivity.
  - rewrite H1, H2. split; vm_compute; reflexivity.
Defined.
